(** * spotify-to-slack: the status reconciler of [spotify-status.ts]

    A shallow embedding of the script that publishes the track Spotify is
    playing as the user's Slack status, and the properties of its decision
    pipeline: the status classifier, the cache, the bounded retry of the
    profile read, and [main] with its catch-all handler. *)

From Stdlib Require Import List String Ascii Bool Arith NArith ZArith QArith
  Qround Lia.
Import ListNotations.

Set Implicit Arguments.
Local Close Scope Q_scope.
Local Open Scope string_scope.
Local Open Scope list_scope.

(** ** JavaScript values *)

(** A JavaScript string is a sequence of UTF-16 code units. *)
Definition jsstring := list N.

Definition lit (s : string) : jsstring :=
  List.map N_of_ascii (list_ascii_of_string s).

Definition jsstring_eq_dec : forall a b : jsstring, {a = b} + {a <> b} :=
  list_eq_dec N.eq_dec.

(** [a === b] on strings. *)
Definition streq (a b : jsstring) : bool :=
  if jsstring_eq_dec a b then true else false.

(** The code units [String.prototype.trim] strips: ECMAScript WhiteSpace
    and LineTerminator. *)
Definition isWhiteSpace (c : N) : bool :=
  ((9 <=? c) && (c <=? 13) || (c =? 32) || (c =? 160) || (c =? 5760)
   || (8192 <=? c) && (c <=? 8202) || (c =? 8232) || (c =? 8233)
   || (c =? 8239) || (c =? 8287) || (c =? 12288) || (c =? 65279))%N.

Fixpoint trimStart (s : jsstring) : jsstring :=
  match s with
  | [] => []
  | c :: r => if isWhiteSpace c then trimStart r else s
  end.

Fixpoint trimEnd (s : jsstring) : jsstring :=
  match s with
  | [] => []
  | c :: r =>
      match trimEnd r with
      | [] => if isWhiteSpace c then [] else [c]
      | r' => c :: r'
      end
  end.

Definition trim (s : jsstring) : jsstring := trimEnd (trimStart s).

Fixpoint startsWith (s p : jsstring) : bool :=
  match p, s with
  | [], _ => true
  | _ :: _, [] => false
  | x :: p', y :: s' => (x =? y)%N && startsWith s' p'
  end.

(** [s.includes(p)] *)
Fixpoint includes (s p : jsstring) : bool :=
  startsWith s p || match s with [] => false | _ :: r => includes r p end.

(** The declarative reading of [includes]: [p] occurs as a substring. *)
Definition Substring (p s : jsstring) : Prop :=
  exists a b, s = a ++ p ++ b.

(** A JavaScript number.  Finite doubles are rationals; the two infinities
    and NaN are kept apart.  The one sum the script computes is taken
    exactly (it is exact on the integers of an epoch clock). *)
Inductive number :=
| Finite (q : Q)
| PosInfinity
| NegInfinity
| NaN.

Definition ofZ (z : Z) : number := Finite (inject_Z z).

Definition number_add (a b : number) : number :=
  match a, b with
  | Finite x, Finite y => Finite (Qred (x + y)%Q)
  | NaN, _ | _, NaN => NaN
  | PosInfinity, NegInfinity | NegInfinity, PosInfinity => NaN
  | PosInfinity, _ | _, PosInfinity => PosInfinity
  | NegInfinity, _ | _, NegInfinity => NegInfinity
  end.

(** [Number.isFinite] *)
Definition isFinite (n : number) : bool :=
  match n with Finite _ => true | _ => false end.

(** [n >= 0] *)
Definition geZero (n : number) : bool :=
  match n with
  | Finite q => Qle_bool 0%Q q
  | PosInfinity => true
  | _ => false
  end.

(** [Number.isInteger] *)
Definition isInteger (n : number) : bool :=
  match n with
  | Finite q => (Qnum q mod Zpos (Qden q) =? 0)%Z
  | _ => false
  end.

(** What [JSON.parse] returns. *)
#[warnings="-register-all"]
Inductive json :=
| JNull
| JBool (b : bool)
| JNum (n : number)
| JStr (s : jsstring)
| JArr (items : list json)
| JObj (fields : list (jsstring * json)).

(** [o[key]] on a parsed object; [None] is [undefined]. *)
Fixpoint getField (key : jsstring) (fields : list (jsstring * json))
  : option json :=
  match fields with
  | [] => None
  | (k, v) :: r => if streq k key then Some v else getField key r
  end.

(** ** The status classifier *)

Module Runtime.
Record StatusEmojiConfig := {
  statusEmoji : jsstring;
  statusEmojiUnicode : jsstring
}.

(** [RuntimeConfig = StatusEmojiConfig & {...}] *)
Record RuntimeConfig := {
  emojiConfig : StatusEmojiConfig;
  statusTtlSeconds : number;
  alwaysOverride : bool;
  logMaxLines : number;
  logKeepLines : number;
  stdoutLogPath : jsstring;
  stderrLogPath : jsstring;
  cacheMaxAgeSeconds : number;
  requireTwoEmptyReadsBeforeOverride : bool;
  emptyReadConfirmWindowSeconds : number
}.
End Runtime.

Abbreviation StatusEmojiConfig := Runtime.StatusEmojiConfig.
Abbreviation RuntimeConfig := Runtime.RuntimeConfig.
Coercion Runtime.emojiConfig : Runtime.RuntimeConfig >-> Runtime.StatusEmojiConfig.

(** [x ?? ""] *)
Definition orEmpty (x : option jsstring) : jsstring :=
  match x with Some s => s | None => [] end.

Definition normalizeEmoji (emoji : option jsstring) : jsstring :=
  trim (orEmpty emoji).

Definition normalizeText (text : option jsstring) : jsstring :=
  trim (orEmpty text).

(** The artist/track separator [" - "]. *)
Definition separator : jsstring := [32; 45; 32]%N.

Definition isStatusOwnedByScript
  (text emoji : jsstring) (config : StatusEmojiConfig) : bool :=
  let normalizedEmoji := normalizeEmoji (Some emoji) in
  if streq normalizedEmoji (Runtime.statusEmoji config)
     || streq normalizedEmoji (Runtime.statusEmojiUnicode config)
  then
    if streq text [] || includes text separator then true else false
  else false.

Definition isEmptySlackStatus (text emoji : jsstring) : bool :=
  streq (normalizeText (Some text)) []
  && streq (normalizeEmoji (Some emoji)) [].

Definition isSafeToOverrideWhenPlayingTrack
  (statusText statusEmoji : jsstring) : bool :=
  streq statusText [] || streq statusEmoji [].

(** ** The cache record and its schema *)

Record ObservedStatus := {
  os_text : jsstring;
  os_emoji : jsstring;
  os_expiration : number;
  observedAt : number
}.

Record EmptyRead := {
  lastSeenAt : number;
  consecutiveCount : number
}.

Record SetStatus := {
  ss_text : jsstring;
  ss_emoji : jsstring;
  ss_expiration : number;
  setAt : number
}.

(** [type Cache]; [passthrough] holds the keys the schema does not name,
    which [.passthrough()] keeps on the parsed object. *)
Record Cache := {
  updatedAt : number;
  lastNonEmptyNonOwned : option ObservedStatus;
  emptyRead : option EmptyRead;
  lastSetByScript : option SetStatus;
  passthrough : list (jsstring * json)
}.

(** [{ updatedAt: currentTimestampSeconds() }] *)
Definition freshCache (now : number) : Cache :=
  {| updatedAt := now;
     lastNonEmptyNonOwned := None;
     emptyRead := None;
     lastSetByScript := None;
     passthrough := [] |}.

(** [z.string()] *)
Definition zString (j : json) : option jsstring :=
  match j with JStr s => Some s | _ => None end.

(** [z.number().finite().min(0)]; [z.number()] already refuses NaN. *)
Definition zFiniteMin0 (j : json) : option number :=
  match j with
  | JNum NaN => None
  | JNum n => if isFinite n && geZero n then Some n else None
  | _ => None
  end.

(** [z.number().int().min(0)] *)
Definition zIntMin0 (j : json) : option number :=
  match j with
  | JNum NaN => None
  | JNum n => if isInteger n && geZero n then Some n else None
  | _ => None
  end.

(** A key of a [z.object] shape: a missing key reads as [undefined],
    which a plain schema refuses and an [.optional()] one accepts. *)
Definition required A (p : json -> option A) (v : option json) : option A :=
  match v with Some j => p j | None => None end.

Definition optional A (p : json -> option A) (v : option json)
  : option (option A) :=
  match v with
  | None => Some None
  | Some j => match p j with Some a => Some (Some a) | None => None end
  end.

Definition zObservedStatus (j : json) : option ObservedStatus :=
  match j with
  | JObj fs =>
      match required zString (getField (lit "text") fs),
            required zString (getField (lit "emoji") fs),
            required zFiniteMin0 (getField (lit "expiration") fs),
            required zFiniteMin0 (getField (lit "observedAt") fs) with
      | Some t, Some e, Some x, Some o =>
          Some {| os_text := t; os_emoji := e;
                  os_expiration := x; observedAt := o |}
      | _, _, _, _ => None
      end
  | _ => None
  end.

Definition zEmptyRead (j : json) : option EmptyRead :=
  match j with
  | JObj fs =>
      match required zFiniteMin0 (getField (lit "lastSeenAt") fs),
            required zIntMin0 (getField (lit "consecutiveCount") fs) with
      | Some l, Some c => Some {| lastSeenAt := l; consecutiveCount := c |}
      | _, _ => None
      end
  | _ => None
  end.

Definition zSetStatus (j : json) : option SetStatus :=
  match j with
  | JObj fs =>
      match required zString (getField (lit "text") fs),
            required zString (getField (lit "emoji") fs),
            required zFiniteMin0 (getField (lit "expiration") fs),
            required zFiniteMin0 (getField (lit "setAt") fs) with
      | Some t, Some e, Some x, Some a =>
          Some {| ss_text := t; ss_emoji := e;
                  ss_expiration := x; setAt := a |}
      | _, _, _, _ => None
      end
  | _ => None
  end.

(** The keys of the [cacheSchema] shape. *)
Definition cacheShapeKeys : list jsstring :=
  [lit "updatedAt"; lit "lastNonEmptyNonOwned"; lit "emptyRead";
   lit "lastSetByScript"].

Definition inShape (k : jsstring) : bool :=
  existsb (streq k) cacheShapeKeys.

(** [cacheSchema.safeParse]; [None] is [success: false]. *)
Definition cacheSchema (payload : json) : option Cache :=
  match payload with
  | JObj fs =>
      match required zFiniteMin0 (getField (lit "updatedAt") fs),
            optional zObservedStatus
              (getField (lit "lastNonEmptyNonOwned") fs),
            optional zEmptyRead (getField (lit "emptyRead") fs),
            optional zSetStatus (getField (lit "lastSetByScript") fs) with
      | Some u, Some l, Some e, Some s =>
          Some {| updatedAt := u;
                  lastNonEmptyNonOwned := l;
                  emptyRead := e;
                  lastSetByScript := s;
                  passthrough :=
                    filter (fun kv => negb (inShape (fst kv))) fs |}
      | _, _, _, _ => None
      end
  | _ => None
  end.

(** ** Configuration *)

Module Config.
(** [type Config] of config-schema.ts. *)
Record t := {
  slackToken : jsstring;
  pollIntervalSeconds : option number;
  statusEmoji : option jsstring;
  statusEmojiUnicode : option jsstring;
  statusTtlSeconds : option number;
  alwaysOverride : option bool;
  requireTwoEmptyReadsBeforeOverride : option bool;
  emptyReadConfirmWindowSeconds : option number;
  cacheMaxAgeSeconds : option number;
  logMaxLines : option number;
  logKeepLines : option number;
  stdoutLogPath : option jsstring;
  stderrLogPath : option jsstring
}.
End Config.

Module DEFAULT_CONFIG.
Definition statusEmoji : jsstring := lit ":headphones:".
(** U+1F3A7 as its surrogate pair. *)
Definition statusEmojiUnicode : jsstring := [55356; 57255]%N.
Definition statusTtlSeconds : number := ofZ 120.
Definition alwaysOverride : bool := false.
Definition requireTwoEmptyReadsBeforeOverride : bool := true.
Definition emptyReadConfirmWindowSeconds : number := ofZ 600.
Definition cacheMaxAgeSeconds : number := ofZ 600.
Definition logMaxLines : number := ofZ 5000.
Definition logKeepLines : number := ofZ 3000.
End DEFAULT_CONFIG.

(** [x ?? d] *)
Definition nullish A (x : option A) (d : A) : A :=
  match x with Some v => v | None => d end.

Notation "x ?? d" := (nullish x d) (at level 45, left associativity).

(** [o?.f] *)
Definition optChain A B (o : option A) (f : A -> option B) : option B :=
  match o with Some a => f a | None => None end.

(** [path.join(dir, name)] for an absolute, normalised [dir]. *)
Definition pathJoin (dir name : jsstring) : jsstring :=
  dir ++ lit "/" ++ name.

(** ** Slack payloads *)

Record SlackProfile := {
  status_text : option jsstring;
  status_emoji : option jsstring;
  status_expiration : option number
}.

Record SlackProfileGetResponse := {
  ok : bool;
  error : option jsstring;
  profile : option SlackProfile
}.

Record SlackSetResponse := {
  set_ok : bool;
  set_error : option jsstring
}.

(** The body [{ profile: { status_text, status_emoji, status_expiration } }]
    of [users.profile.set]. *)
Record StatusBody := {
  body_text : jsstring;
  body_emoji : jsstring;
  body_expiration : number
}.

(** ** Effects *)

Inductive LogLevel := DEBUG | INFO | WARN | ERROR.

(** A thrown value, by its message. *)
Definition exn := string.

(** What the script does to the world, in order.  [ConsoleLog] keeps the
    level and the message of a [log] call (not its metadata); [TrimLog]
    stands for the read-split-slice-write of one log file. *)
Inductive event :=
| ConsoleLog (level : LogLevel) (message : string)
| TrimLog (filePath : jsstring) (maxLines keepLines : number)
| ExecFile (file : string) (args : list string)
| Fetch (token : jsstring) (method : string) (body : option StatusBody)
| SetTimeout (ms : nat)
| WriteFile (filePath : jsstring) (content : Cache).

(** What the process carries besides its variables. *)
Record State := {
  ticks : nat;      (* clock readings taken so far *)
  writes : nat;     (* cache writes attempted so far *)
  exitCode : Z      (* process.exitCode *)
}.

Definition initialState : State :=
  {| ticks := 0; writes := 0; exitCode := 0 |}.

Inductive result (A : Type) :=
| Ok (a : A)
| Throw (e : exn).

Arguments Ok {A} a.
Arguments Throw {A} e.

(** A computation emits events, updates the state, and returns or throws;
    events and state survive a throw. *)
Definition M (A : Type) : Type := State -> list event * State * result A.

Definition ret A (a : A) : M A := fun s => ([], s, Ok a).

Definition bind A B (c : M A) (k : A -> M B) : M B :=
  fun s =>
    match c s with
    | (t1, s1, Ok a) =>
        match k a s1 with (t2, s2, r) => (t1 ++ t2, s2, r) end
    | (t1, s1, Throw e) => (t1, s1, Throw e)
    end.

Definition throw {A} (e : exn) : M A := fun s => ([], s, Throw e).

(** [try { c } catch (e) { h(e) }] *)
Definition tryCatch A (c : M A) (h : exn -> M A) : M A :=
  fun s =>
    match c s with
    | (t1, s1, Ok a) => (t1, s1, Ok a)
    | (t1, s1, Throw e) =>
        match h e s1 with (t2, s2, r) => (t1 ++ t2, s2, r) end
    end.

Definition emit (e : event) : M unit := fun s => ([e], s, Ok tt).

(** [process.exitCode = code] *)
Definition setExitCode (code : Z) : M unit :=
  fun s =>
    ([], {| ticks := ticks s; writes := writes s; exitCode := code |}, Ok tt).

Notation "x <- c ;; k" := (bind c (fun x => k))
  (at level 100, c at next level, right associativity).
Notation "c ;; k" := (bind c (fun _ => k))
  (at level 100, right associativity).

(** The outcome of the HTTP exchange inside [callSlackApi]. *)
Inductive fetchOutcome (T : Type) :=
| NetworkError (e : exn)
| NonJsonBody
| JsonBody (r : T).

Arguments NetworkError {T} e.
Arguments NonJsonBody {T}.
Arguments JsonBody {T} r.

(** What is at the cache path. *)
Inductive fileContent :=
| Missing
| Unreadable (e : exn)
| NotJson
| Json (j : json).

(** The world outside the process: every answer it gives the script. *)
Record Env := {
  cwd : jsstring;
  configOutcome : exn + Config.t * jsstring;
  logTrimOutcome : jsstring -> option exn;
  cacheFile : fileContent;
  execFile : string -> list string -> exn + jsstring;
  profileGetOutcome : nat -> fetchOutcome SlackProfileGetResponse;
  profileSetOutcome : fetchOutcome SlackSetResponse;
  writeFileOutcome : nat -> option exn;
  clock : nat -> Z;
  getAllMatches : jsstring -> list (nat * nat);
  applyTo : jsstring -> list (nat * nat) -> jsstring
}.

(** ** The script *)

Definition quote : string := String (ascii_of_nat 34) EmptyString.

Definition stateScript : string :=
  ("tell application " ++ quote ++ "Spotify" ++ quote
   ++ " to player state")%string.

Definition trackScript : string :=
  ("tell application " ++ quote ++ "Spotify" ++ quote
   ++ " to artist of current track & " ++ quote ++ " - " ++ quote
   ++ " & name of current track")%string.

Inductive PlayerState := playing | paused | stopped | unknown.

Definition isPlaying (p : PlayerState) : bool :=
  match p with playing => true | _ => false end.

(** Assignments to the fields of the one [cache] object. *)
Definition withUpdatedAt (c : Cache) (now : number) : Cache :=
  {| updatedAt := now;
     lastNonEmptyNonOwned := lastNonEmptyNonOwned c;
     emptyRead := emptyRead c;
     lastSetByScript := lastSetByScript c;
     passthrough := passthrough c |}.

Definition withLastNonEmptyNonOwned (c : Cache) (o : ObservedStatus) : Cache :=
  {| updatedAt := updatedAt c;
     lastNonEmptyNonOwned := Some o;
     emptyRead := emptyRead c;
     lastSetByScript := lastSetByScript c;
     passthrough := passthrough c |}.

Definition withLastSetByScript (c : Cache) (v : SetStatus) : Cache :=
  {| updatedAt := updatedAt c;
     lastNonEmptyNonOwned := lastNonEmptyNonOwned c;
     emptyRead := emptyRead c;
     lastSetByScript := Some v;
     passthrough := passthrough c |}.

(** The [runtimeConfig] literal of [main]. *)
Definition runtimeConfigOf (repositoryDirectory : jsstring)
  (config : Config.t) : RuntimeConfig :=
  {| Runtime.emojiConfig :=
       {| Runtime.statusEmoji :=
            Config.statusEmoji config ?? DEFAULT_CONFIG.statusEmoji;
          Runtime.statusEmojiUnicode :=
            Config.statusEmojiUnicode config
            ?? DEFAULT_CONFIG.statusEmojiUnicode |};
     Runtime.statusTtlSeconds :=
       Config.statusTtlSeconds config ?? DEFAULT_CONFIG.statusTtlSeconds;
     Runtime.alwaysOverride :=
       Config.alwaysOverride config ?? DEFAULT_CONFIG.alwaysOverride;
     Runtime.logMaxLines :=
       Config.logMaxLines config ?? DEFAULT_CONFIG.logMaxLines;
     Runtime.logKeepLines :=
       Config.logKeepLines config ?? DEFAULT_CONFIG.logKeepLines;
     Runtime.stdoutLogPath :=
       Config.stdoutLogPath config
       ?? pathJoin repositoryDirectory (lit "spotify-status.log");
     Runtime.stderrLogPath :=
       Config.stderrLogPath config
       ?? pathJoin repositoryDirectory (lit "spotify-status.error.log");
     Runtime.cacheMaxAgeSeconds :=
       Config.cacheMaxAgeSeconds config
       ?? DEFAULT_CONFIG.cacheMaxAgeSeconds;
     Runtime.requireTwoEmptyReadsBeforeOverride :=
       Config.requireTwoEmptyReadsBeforeOverride config
       ?? DEFAULT_CONFIG.requireTwoEmptyReadsBeforeOverride;
     Runtime.emptyReadConfirmWindowSeconds :=
       Config.emptyReadConfirmWindowSeconds config
       ?? DEFAULT_CONFIG.emptyReadConfirmWindowSeconds |}.

Section Script.

Variable env : Env.

Definition censorText (text : jsstring) : jsstring :=
  let matches := getAllMatches env text in
  if Nat.eqb (List.length matches) 0 then text else applyTo env text matches.

Definition currentTimestampSeconds : M number :=
  fun s =>
    ([],
     {| ticks := S (ticks s); writes := writes s; exitCode := exitCode s |},
     Ok (ofZ (clock env (ticks s)))).

Definition log (level : LogLevel) (message : string) : M unit :=
  emit (ConsoleLog level message).

(** The search for the config file and its validation (config.ts,
    config-schema.ts), by their outcome. *)
Definition loadConfiguration (repositoryDirectory : jsstring)
  : M (Config.t * jsstring) :=
  match configOutcome env with
  | inl e => throw e
  | inr loaded => ret loaded
  end.

Definition getCacheFilePath (repositoryDirectory : jsstring) : jsstring :=
  pathJoin repositoryDirectory (lit ".slack_status_cache.json").

Definition parseCache (cachePayload : json) : M Cache :=
  match cacheSchema cachePayload with
  | None => throw "Cache file is corrupted or invalid."
  | Some data => ret data
  end.

Definition loadCache (repositoryDirectory : jsstring) : M Cache :=
  tryCatch
    (match cacheFile env with
     | Missing =>
         now <- currentTimestampSeconds ;; ret (freshCache now)
     | Unreadable e => throw e
     | NotJson => throw "SyntaxError: JSON Parse error"
     | Json j => parseCache j
     end)
    (fun _ =>
       log WARN "Cache read failed; starting fresh." ;;
       now <- currentTimestampSeconds ;; ret (freshCache now)).

Definition writeFile (filePath : jsstring) (content : Cache) : M unit :=
  fun s =>
    ([WriteFile filePath content],
     {| ticks := ticks s; writes := S (writes s); exitCode := exitCode s |},
     match writeFileOutcome env (writes s) with
     | Some e => Throw e
     | None => Ok tt
     end).

(** Returns the cache object as the call leaves it ([updatedAt] set). *)
Definition saveCache (repositoryDirectory : jsstring) (cache : Cache)
  : M Cache :=
  let filePath := getCacheFilePath repositoryDirectory in
  now <- currentTimestampSeconds ;;
  let cache := withUpdatedAt cache now in
  writeFile filePath cache ;;
  ret cache.

Definition trimLogFile (filePath : jsstring) (maxLines keepLines : number)
  : M unit :=
  tryCatch
    (emit (TrimLog filePath maxLines keepLines) ;;
     match logTrimOutcome env filePath with
     | Some e => throw e
     | None => ret tt
     end)
    (fun _ => log WARN "Log trimming failed (non-fatal)").

Definition executeFileAsync (file : string) (args : list string)
  : M jsstring :=
  emit (ExecFile file args) ;;
  match execFile env file args with
  | inl e => throw e
  | inr stdout => ret stdout
  end.

Definition osascript (script : string) : M jsstring :=
  stdout <- executeFileAsync "/usr/bin/osascript" ["-e"; script] ;;
  ret (trim stdout).

Definition isSpotifyRunning : M bool :=
  tryCatch
    (executeFileAsync "/usr/bin/pgrep" ["Spotify"] ;; ret true)
    (fun _ => ret false).

Definition getSpotifyState : M PlayerState :=
  tryCatch
    (state <- osascript stateScript ;;
     if streq state (lit "playing") then ret playing
     else if streq state (lit "paused") then ret paused
     else if streq state (lit "stopped") then ret stopped
     else ret unknown)
    (fun _ => ret unknown).

Definition getSpotifyTrack : M jsstring :=
  song <- osascript trackScript ;;
  ret song.

(** [outcome] is what the exchange this call starts will yield. *)
Definition callSlackApi T (outcome : fetchOutcome T)
  (token : jsstring) (method : string) (body : option StatusBody) : M T :=
  emit (Fetch token method body) ;;
  match outcome with
  | NetworkError e => throw e
  | NonJsonBody =>
      throw ("Slack API " ++ method ++ " returned non-JSON")%string
  | JsonBody r => ret r
  end.

Definition maxAttempts : nat := 3.

(** The [for] loop of [getSlackProfileWithRetry] from [attempt] on, with
    [remaining] iterations left before [attempt <= maxAttempts] fails. *)
Fixpoint retryFrom (token : jsstring) (remaining attempt : nat)
  (lastError : option exn) : M SlackProfileGetResponse :=
  match remaining with
  | 0 =>
      throw (match lastError with Some e => e | None => "undefined" end)
  | S remaining' =>
      step <-
        tryCatch
          (response <-
             callSlackApi (profileGetOutcome env attempt) token
               "users.profile.get" None ;;
           ret (inr response))
          (fun error =>
             log WARN "Slack profile.get failed, retrying" ;;
             emit (SetTimeout (250 * attempt)) ;;
             ret (inl error)) ;;
      match step with
      | inr response => ret response
      | inl error => retryFrom token remaining' (attempt + 1) (Some error)
      end
  end.

Definition getSlackProfileWithRetry (token : jsstring)
  : M SlackProfileGetResponse :=
  retryFrom token maxAttempts 1 None.

Definition main : M unit :=
  let repositoryDirectory := cwd env in
  loaded <- loadConfiguration repositoryDirectory ;;
  let config := fst loaded in
  let runtimeConfig := runtimeConfigOf repositoryDirectory config in
  trimLogFile (Runtime.stdoutLogPath runtimeConfig)
    (Runtime.logMaxLines runtimeConfig) (Runtime.logKeepLines runtimeConfig) ;;
  trimLogFile (Runtime.stderrLogPath runtimeConfig)
    (Runtime.logMaxLines runtimeConfig) (Runtime.logKeepLines runtimeConfig) ;;
  log INFO "spotify-status-on-slack" ;;
  cache <- loadCache repositoryDirectory ;;
  spotifyRunning <- isSpotifyRunning ;;
  log DEBUG "Spotify running check" ;;
  if negb spotifyRunning then
    log INFO "Spotify is not running; exiting (no status change)."
  else
    playerState <- getSpotifyState ;;
    log INFO "Spotify player state" ;;
    profileResponse <- getSlackProfileWithRetry (Config.slackToken config) ;;
    if negb (ok profileResponse) then
      log WARN
        "Slack users.profile.get returned ok=false; skipping to avoid overrides"
    else
      let statusText :=
        normalizeText (optChain (profile profileResponse) status_text) in
      let statusEmoji :=
        normalizeEmoji (optChain (profile profileResponse) status_emoji) in
      let statusExpiration :=
        optChain (profile profileResponse) status_expiration ?? ofZ 0 in
      let isOwnedByScript :=
        isStatusOwnedByScript statusText statusEmoji runtimeConfig in
      let isStatusEmpty := isEmptySlackStatus statusText statusEmoji in
      let isSafeToOverride :=
        isSafeToOverrideWhenPlayingTrack statusText statusEmoji
        || isOwnedByScript in
      log INFO "Slack current status snapshot" ;;
      cache <-
        (if negb isOwnedByScript && negb (streq statusText [])
            && negb (streq statusEmoji [])
         then
           now <- currentTimestampSeconds ;;
           ret (withLastNonEmptyNonOwned cache
                  {| os_text := statusText;
                     os_emoji := statusEmoji;
                     os_expiration := statusExpiration;
                     observedAt := now |})
         else ret cache) ;;
      cache <- saveCache repositoryDirectory cache ;;
      if negb (isPlaying playerState) then
        log INFO
          "Spotify not playing; exiting (status will expire if previously set)."
      else if negb isSafeToOverride
              && negb (Runtime.alwaysOverride runtimeConfig)
      then
        log WARN
          "Skipping update because Slack status appears set by another app/user (both text and emoji are non-empty)."
      else
        rawTrackName <- getSpotifyTrack ;;
        let censoredTrackName := censorText rawTrackName in
        now <- currentTimestampSeconds ;;
        let expirationEpoch :=
          number_add now (Runtime.statusTtlSeconds runtimeConfig) in
        log INFO "Updating Slack status to current track" ;;
        setResponse <-
          callSlackApi (profileSetOutcome env) (Config.slackToken config)
            "users.profile.set"
            (Some {| body_text := censoredTrackName;
                     body_emoji := Runtime.statusEmoji runtimeConfig;
                     body_expiration := expirationEpoch |}) ;;
        if negb (set_ok setResponse) then
          log ERROR "Slack users.profile.set failed"
        else
          setAtNow <- currentTimestampSeconds ;;
          cache <-
            saveCache repositoryDirectory
              (withLastSetByScript cache
                 {| ss_text := censoredTrackName;
                    ss_emoji := Runtime.statusEmoji runtimeConfig;
                    ss_expiration := expirationEpoch;
                    setAt := setAtNow |}) ;;
          log INFO "Done".

(** [main().catch(...)] *)
Definition program : M unit :=
  tryCatch main
    (fun e =>
       log ERROR "Fatal error" ;;
       setExitCode 1).

End Script.

(** One run of the process. *)
Definition run (env : Env) : list event * State * result unit :=
  program env initialState.

Definition traceOf (r : list event * State * result unit) : list event :=
  fst (fst r).

Definition stateOf (r : list event * State * result unit) : State :=
  snd (fst r).


(** ** The configuration file (config-schema.ts, config.ts) *)

(** [p.then(k)] on a parse result: the first refusal ends the parse. *)
Definition andThen A B (x : option A) (k : A -> option B) : option B :=
  match x with Some a => k a | None => None end.

(** [z.boolean()] *)
Definition zBoolean (j : json) : option bool :=
  match j with JBool b => Some b | _ => None end.

(** [trimmedString = z.string().trim()] *)
Definition trimmedString (j : json) : option jsstring :=
  match j with JStr s => Some (trim s) | _ => None end.

(** [nonEmptyString = trimmedString.min(1, ...)]: the length is tested
    after the trim. *)
Definition nonEmptyString (j : json) : option jsstring :=
  match trimmedString j with
  | Some s => if (1 <=? List.length s)%nat then Some s else None
  | None => None
  end.

(** The function [optionalTrimmedString] preprocesses with: a value that
    is not a string passes as it is, a string is trimmed, and the empty
    string becomes [undefined]. *)
Definition trimOrUndefined (value : option json) : option json :=
  match value with
  | Some (JStr s) =>
      let trimmed := trim s in
      if streq trimmed [] then None else Some (JStr trimmed)
  | _ => value
  end.

(** [optionalTrimmedString = z.preprocess(..., z.string().optional())] *)
Definition optionalTrimmedString (value : option json)
  : option (option jsstring) :=
  optional zString (trimOrUndefined value).

(** [nonNegativeNumber = z.number().finite().min(0, ...)] *)
Definition nonNegativeNumber (j : json) : option number := zFiniteMin0 j.

(** The keys of the [configSchema] shape. *)
Definition configShapeKeys : list jsstring :=
  [lit "slackToken"; lit "pollIntervalSeconds"; lit "statusEmoji";
   lit "statusEmojiUnicode"; lit "statusTtlSeconds"; lit "alwaysOverride";
   lit "requireTwoEmptyReadsBeforeOverride";
   lit "emptyReadConfirmWindowSeconds"; lit "cacheMaxAgeSeconds";
   lit "logMaxLines"; lit "logKeepLines"; lit "stdoutLogPath";
   lit "stderrLogPath"].

(** [.strict()]: no key outside the shape. *)
Definition strict (shapeKeys : list jsstring) (fs : list (jsstring * json))
  : bool :=
  forallb (fun kv => existsb (streq (fst kv)) shapeKeys) fs.

(** [configSchema.safeParse]; [None] is [success: false]. *)
Definition configSchema (payload : json) : option Config.t :=
  match payload with
  | JObj fs =>
      if strict configShapeKeys fs then
        andThen (required nonEmptyString (getField (lit "slackToken") fs))
        (fun slackToken =>
        andThen (optional nonNegativeNumber
                   (getField (lit "pollIntervalSeconds") fs))
        (fun pollIntervalSeconds =>
        andThen (optionalTrimmedString (getField (lit "statusEmoji") fs))
        (fun statusEmoji =>
        andThen (optionalTrimmedString
                   (getField (lit "statusEmojiUnicode") fs))
        (fun statusEmojiUnicode =>
        andThen (optional nonNegativeNumber
                   (getField (lit "statusTtlSeconds") fs))
        (fun statusTtlSeconds =>
        andThen (optional zBoolean (getField (lit "alwaysOverride") fs))
        (fun alwaysOverride =>
        andThen (optional zBoolean
                   (getField (lit "requireTwoEmptyReadsBeforeOverride") fs))
        (fun requireTwoEmptyReadsBeforeOverride =>
        andThen (optional nonNegativeNumber
                   (getField (lit "emptyReadConfirmWindowSeconds") fs))
        (fun emptyReadConfirmWindowSeconds =>
        andThen (optional nonNegativeNumber
                   (getField (lit "cacheMaxAgeSeconds") fs))
        (fun cacheMaxAgeSeconds =>
        andThen (optional nonNegativeNumber (getField (lit "logMaxLines") fs))
        (fun logMaxLines =>
        andThen (optional nonNegativeNumber
                   (getField (lit "logKeepLines") fs))
        (fun logKeepLines =>
        andThen (optionalTrimmedString (getField (lit "stdoutLogPath") fs))
        (fun stdoutLogPath =>
        andThen (optionalTrimmedString (getField (lit "stderrLogPath") fs))
        (fun stderrLogPath =>
        Some {| Config.slackToken := slackToken;
                Config.pollIntervalSeconds := pollIntervalSeconds;
                Config.statusEmoji := statusEmoji;
                Config.statusEmojiUnicode := statusEmojiUnicode;
                Config.statusTtlSeconds := statusTtlSeconds;
                Config.alwaysOverride := alwaysOverride;
                Config.requireTwoEmptyReadsBeforeOverride :=
                  requireTwoEmptyReadsBeforeOverride;
                Config.emptyReadConfirmWindowSeconds :=
                  emptyReadConfirmWindowSeconds;
                Config.cacheMaxAgeSeconds := cacheMaxAgeSeconds;
                Config.logMaxLines := logMaxLines;
                Config.logKeepLines := logKeepLines;
                Config.stdoutLogPath := stdoutLogPath;
                Config.stderrLogPath := stderrLogPath |})))))))))))))
      else None
  | _ => None
  end.

(** [parseConfig]; [None] is the [Error] it throws on a payload the schema
    refuses. *)
Definition parseConfig (payload : json) : option Config.t :=
  configSchema payload.

Module ConfigDraft.
(** [type ConfigDraft = Partial<Config> & { slackToken?: string }] *)
Record t := {
  slackToken : option jsstring;
  pollIntervalSeconds : option number;
  statusEmoji : option jsstring;
  statusEmojiUnicode : option jsstring;
  statusTtlSeconds : option number;
  alwaysOverride : option bool;
  requireTwoEmptyReadsBeforeOverride : option bool;
  emptyReadConfirmWindowSeconds : option number;
  cacheMaxAgeSeconds : option number;
  logMaxLines : option number;
  logKeepLines : option number;
  stdoutLogPath : option jsstring;
  stderrLogPath : option jsstring
}.
End ConfigDraft.

Module ConfigWithDefaults.
(** [type ConfigWithDefaults]: every key of [DEFAULT_CONFIG] is set. *)
Record t := {
  slackToken : jsstring;
  pollIntervalSeconds : option number;
  statusEmoji : jsstring;
  statusEmojiUnicode : jsstring;
  statusTtlSeconds : number;
  alwaysOverride : bool;
  requireTwoEmptyReadsBeforeOverride : bool;
  emptyReadConfirmWindowSeconds : number;
  cacheMaxAgeSeconds : number;
  logMaxLines : number;
  logKeepLines : number;
  stdoutLogPath : jsstring;
  stderrLogPath : jsstring
}.
End ConfigWithDefaults.

(** A [Config] where a [ConfigDraft] is expected. *)
Definition draftOf (config : Config.t) : ConfigDraft.t :=
  {| ConfigDraft.slackToken := Some (Config.slackToken config);
     ConfigDraft.pollIntervalSeconds := Config.pollIntervalSeconds config;
     ConfigDraft.statusEmoji := Config.statusEmoji config;
     ConfigDraft.statusEmojiUnicode := Config.statusEmojiUnicode config;
     ConfigDraft.statusTtlSeconds := Config.statusTtlSeconds config;
     ConfigDraft.alwaysOverride := Config.alwaysOverride config;
     ConfigDraft.requireTwoEmptyReadsBeforeOverride :=
       Config.requireTwoEmptyReadsBeforeOverride config;
     ConfigDraft.emptyReadConfirmWindowSeconds :=
       Config.emptyReadConfirmWindowSeconds config;
     ConfigDraft.cacheMaxAgeSeconds := Config.cacheMaxAgeSeconds config;
     ConfigDraft.logMaxLines := Config.logMaxLines config;
     ConfigDraft.logKeepLines := Config.logKeepLines config;
     ConfigDraft.stdoutLogPath := Config.stdoutLogPath config;
     ConfigDraft.stderrLogPath := Config.stderrLogPath config |}.

(** The two log paths of [DEFAULT_CONFIG]. *)
Definition DEFAULT_CONFIG_stdoutLogPath : jsstring :=
  lit "./spotify-status.log".

Definition DEFAULT_CONFIG_stderrLogPath : jsstring :=
  lit "./spotify-status.error.log".

Definition applyDefaults (config : ConfigDraft.t) : ConfigWithDefaults.t :=
  {| ConfigWithDefaults.slackToken := ConfigDraft.slackToken config ?? [];
     ConfigWithDefaults.pollIntervalSeconds :=
       ConfigDraft.pollIntervalSeconds config;
     ConfigWithDefaults.statusEmoji :=
       ConfigDraft.statusEmoji config ?? DEFAULT_CONFIG.statusEmoji;
     ConfigWithDefaults.statusEmojiUnicode :=
       ConfigDraft.statusEmojiUnicode config
       ?? DEFAULT_CONFIG.statusEmojiUnicode;
     ConfigWithDefaults.statusTtlSeconds :=
       ConfigDraft.statusTtlSeconds config
       ?? DEFAULT_CONFIG.statusTtlSeconds;
     ConfigWithDefaults.alwaysOverride :=
       ConfigDraft.alwaysOverride config ?? DEFAULT_CONFIG.alwaysOverride;
     ConfigWithDefaults.requireTwoEmptyReadsBeforeOverride :=
       ConfigDraft.requireTwoEmptyReadsBeforeOverride config
       ?? DEFAULT_CONFIG.requireTwoEmptyReadsBeforeOverride;
     ConfigWithDefaults.emptyReadConfirmWindowSeconds :=
       ConfigDraft.emptyReadConfirmWindowSeconds config
       ?? DEFAULT_CONFIG.emptyReadConfirmWindowSeconds;
     ConfigWithDefaults.cacheMaxAgeSeconds :=
       ConfigDraft.cacheMaxAgeSeconds config
       ?? DEFAULT_CONFIG.cacheMaxAgeSeconds;
     ConfigWithDefaults.logMaxLines :=
       ConfigDraft.logMaxLines config ?? DEFAULT_CONFIG.logMaxLines;
     ConfigWithDefaults.logKeepLines :=
       ConfigDraft.logKeepLines config ?? DEFAULT_CONFIG.logKeepLines;
     ConfigWithDefaults.stdoutLogPath :=
       ConfigDraft.stdoutLogPath config ?? DEFAULT_CONFIG_stdoutLogPath;
     ConfigWithDefaults.stderrLogPath :=
       ConfigDraft.stderrLogPath config ?? DEFAULT_CONFIG_stderrLogPath |}.

(** *** Writing a configuration and reading it back *)

(** How [JSON.stringify] writes a number and [JSON.parse] reads it back:
    a number that is not finite is written as [null]. *)
Definition jsonNumber (n : number) : json :=
  if isFinite n then JNum n else JNull.

(** [key: value] where the value is set; [JSON.stringify] leaves out a key
    whose value is [undefined]. *)
Definition field A (key : string) (toJson : A -> json) (value : option A)
  : list (jsstring * json) :=
  match value with
  | Some v => [(lit key, toJson v)]
  | None => []
  end.

(** [JSON.parse(JSON.stringify(config, null, 2))]: what [readConfigFile]
    parses from the file [writeConfigFile] wrote. *)
Definition configToJson (config : Config.t) : json :=
  JObj
    ((lit "slackToken", JStr (Config.slackToken config))
     :: field "pollIntervalSeconds" jsonNumber
          (Config.pollIntervalSeconds config)
     ++ field "statusEmoji" JStr (Config.statusEmoji config)
     ++ field "statusEmojiUnicode" JStr (Config.statusEmojiUnicode config)
     ++ field "statusTtlSeconds" jsonNumber (Config.statusTtlSeconds config)
     ++ field "alwaysOverride" JBool (Config.alwaysOverride config)
     ++ field "requireTwoEmptyReadsBeforeOverride" JBool
          (Config.requireTwoEmptyReadsBeforeOverride config)
     ++ field "emptyReadConfirmWindowSeconds" jsonNumber
          (Config.emptyReadConfirmWindowSeconds config)
     ++ field "cacheMaxAgeSeconds" jsonNumber
          (Config.cacheMaxAgeSeconds config)
     ++ field "logMaxLines" jsonNumber (Config.logMaxLines config)
     ++ field "logKeepLines" jsonNumber (Config.logKeepLines config)
     ++ field "stdoutLogPath" JStr (Config.stdoutLogPath config)
     ++ field "stderrLogPath" JStr (Config.stderrLogPath config)).

(** *** The settings the configuration page edits (ui-server.ts) *)

(** [type UiConfig] *)
Record UiConfig := {
  ui_statusTtlSeconds : number;
  ui_alwaysOverride : bool;
  ui_cacheMaxAgeSeconds : number;
  ui_emptyReadConfirmWindowSeconds : number
}.

Definition uiShapeKeys : list jsstring :=
  [lit "statusTtlSeconds"; lit "alwaysOverride"; lit "cacheMaxAgeSeconds";
   lit "emptyReadConfirmWindowSeconds"].

(** [uiConfigSchema.safeParse] *)
Definition uiConfigSchema (payload : json) : option UiConfig :=
  match payload with
  | JObj fs =>
      if strict uiShapeKeys fs then
        andThen (required zFiniteMin0 (getField (lit "statusTtlSeconds") fs))
        (fun statusTtlSeconds =>
        andThen (required zBoolean (getField (lit "alwaysOverride") fs))
        (fun alwaysOverride =>
        andThen (required zFiniteMin0
                   (getField (lit "cacheMaxAgeSeconds") fs))
        (fun cacheMaxAgeSeconds =>
        andThen (required zFiniteMin0
                   (getField (lit "emptyReadConfirmWindowSeconds") fs))
        (fun emptyReadConfirmWindowSeconds =>
        Some {| ui_statusTtlSeconds := statusTtlSeconds;
                ui_alwaysOverride := alwaysOverride;
                ui_cacheMaxAgeSeconds := cacheMaxAgeSeconds;
                ui_emptyReadConfirmWindowSeconds :=
                  emptyReadConfirmWindowSeconds |}))))
      else None
  | _ => None
  end.

Definition selectUiConfig (config : ConfigWithDefaults.t) : UiConfig :=
  {| ui_statusTtlSeconds := ConfigWithDefaults.statusTtlSeconds config;
     ui_alwaysOverride := ConfigWithDefaults.alwaysOverride config;
     ui_cacheMaxAgeSeconds := ConfigWithDefaults.cacheMaxAgeSeconds config;
     ui_emptyReadConfirmWindowSeconds :=
       ConfigWithDefaults.emptyReadConfirmWindowSeconds config |}.

(** [{ ...existingConfig.config, ...parsedUiConfig.data }] *)
Definition spread (existing : Config.t) (data : UiConfig) : Config.t :=
  {| Config.slackToken := Config.slackToken existing;
     Config.pollIntervalSeconds := Config.pollIntervalSeconds existing;
     Config.statusEmoji := Config.statusEmoji existing;
     Config.statusEmojiUnicode := Config.statusEmojiUnicode existing;
     Config.statusTtlSeconds := Some (ui_statusTtlSeconds data);
     Config.alwaysOverride := Some (ui_alwaysOverride data);
     Config.requireTwoEmptyReadsBeforeOverride :=
       Config.requireTwoEmptyReadsBeforeOverride existing;
     Config.emptyReadConfirmWindowSeconds :=
       Some (ui_emptyReadConfirmWindowSeconds data);
     Config.cacheMaxAgeSeconds := Some (ui_cacheMaxAgeSeconds data);
     Config.logMaxLines := Config.logMaxLines existing;
     Config.logKeepLines := Config.logKeepLines existing;
     Config.stdoutLogPath := Config.stdoutLogPath existing;
     Config.stderrLogPath := Config.stderrLogPath existing |}.

(** The [updatedConfig] of [PUT /api/ui-config]: the stored configuration
    with the page's settings spread over it, validated again. *)
Definition updatedConfig (existing : Config.t) (data : UiConfig)
  : option Config.t :=
  parseConfig (configToJson (spread existing data)).

(** *** Finding the configuration file (config.ts) *)

(** The files the script can see: what is at a path, and the home
    directory. *)
Record FileSystem := {
  homedir : jsstring;
  fileAt : jsstring -> fileContent
}.

Definition existsSync (fs : FileSystem) (filePath : jsstring) : bool :=
  match fileAt fs filePath with
  | Missing => false
  | _ => true
  end.

Definition getConfigSearchPaths (fs : FileSystem)
  (repositoryDirectory : jsstring) : list jsstring :=
  let homeDirectory := homedir fs in
  [pathJoin repositoryDirectory (lit "config.local.json");
   pathJoin
     (pathJoin (pathJoin homeDirectory (lit ".config"))
        (lit "spotify-status-on-slack"))
     (lit "config.json")].

(** [overridePath] is [None] when the variable [CONFIG_PATH] is not set;
    an empty string is falsy. *)
Definition resolveConfigPath (fs : FileSystem)
  (repositoryDirectory : jsstring) (overridePath : option jsstring)
  : jsstring :=
  match overridePath with
  | Some (c :: r) => c :: r
  | _ =>
      let searchPaths := getConfigSearchPaths fs repositoryDirectory in
      match find (existsSync fs) searchPaths with
      | Some candidate => candidate
      | None => nth 0 searchPaths []
      end
  end.

(** The error of a payload the schema refuses stands for the message
    [formatZodError] builds. *)
Definition readConfigFile (fs : FileSystem) (filePath : jsstring)
  : exn + Config.t :=
  match fileAt fs filePath with
  | Missing => inl "ENOENT: no such file or directory"
  | Unreadable e => inl e
  | NotJson => inl "SyntaxError: JSON Parse error"
  | Json j =>
      match parseConfig j with
      | Some config => inr config
      | None => inl "config: invalid"
      end
  end.

Module OnDisk.
(** [loadConfiguration] on the files themselves: what the [configOutcome]
    of an environment stands for.  The error message is given without the
    two paths it names. *)
Definition loadConfiguration (fs : FileSystem)
  (overridePath : option jsstring) (repositoryDirectory : jsstring)
  : exn + Config.t * jsstring :=
  let configPath := resolveConfigPath fs repositoryDirectory overridePath in
  if negb (existsSync fs configPath) then
    inl "No config found. See README."
  else
    match readConfigFile fs configPath with
    | inl e => inl e
    | inr config => inr (config, configPath)
    end.
End OnDisk.

(** ** The log files *)

(** The code unit of a line feed, and of a carriage return. *)
Definition LF : N := 10%N.
Definition CR : N := 13%N.

(** [s.split(sep)] for a separator of one code unit: the pieces between
    the separators; a string without one is its only piece. *)
Fixpoint split (sep : N) (s : jsstring) : list jsstring :=
  match s with
  | [] => [[]]
  | c :: r =>
      if (c =? sep)%N then [] :: split sep r
      else
        match split sep r with
        | [] => [[c]]
        | piece :: pieces => (c :: piece) :: pieces
        end
  end.

(** [pieces.join(sep)] *)
Fixpoint join (sep : jsstring) (pieces : list jsstring) : jsstring :=
  match pieces with
  | [] => []
  | [piece] => piece
  | piece :: rest => piece ++ sep ++ join sep rest
  end.

(** *** Numbers as array indices *)

Definition ofNat (n : nat) : number := ofZ (Z.of_nat n).

(** [a - b]; on finite operands the difference is taken exactly, as the
    sum is. *)
Definition number_sub (a b : number) : number :=
  match a, b with
  | NaN, _ | _, NaN => NaN
  | Finite x, Finite y => Finite (Qred (x - y)%Q)
  | PosInfinity, PosInfinity | NegInfinity, NegInfinity => NaN
  | PosInfinity, _ | _, NegInfinity => PosInfinity
  | NegInfinity, _ | _, PosInfinity => NegInfinity
  end.

(** [a <= b] *)
Definition number_le (a b : number) : bool :=
  match a, b with
  | NaN, _ | _, NaN => false
  | NegInfinity, _ | _, PosInfinity => true
  | Finite x, Finite y => Qle_bool x y
  | _, _ => false
  end.

(** [a > b] *)
Definition number_gt (a b : number) : bool :=
  match a, b with
  | NaN, _ | _, NaN => false
  | PosInfinity, PosInfinity | NegInfinity, NegInfinity => false
  | PosInfinity, _ | _, NegInfinity => true
  | Finite x, Finite y => negb (Qle_bool x y)
  | _, _ => false
  end.

(** [Math.max(a, b)] *)
Definition Math_max (a b : number) : number :=
  match a, b with
  | NaN, _ | _, NaN => NaN
  | PosInfinity, _ | _, PosInfinity => PosInfinity
  | NegInfinity, x | x, NegInfinity => x
  | Finite x, Finite y => if Qle_bool x y then Finite y else Finite x
  end.

(** An integer or an infinity. *)
Inductive integerOrInfinity :=
| MinusInfinity
| Integer (z : Z)
| PlusInfinity.

(** Rounding towards zero. *)
Definition truncate (q : Q) : Z :=
  Z.quot (Qnum q) (Zpos (Qden q)).

(** ECMAScript [ToIntegerOrInfinity]. *)
Definition toIntegerOrInfinity (n : number) : integerOrInfinity :=
  match n with
  | NaN => Integer 0
  | PosInfinity => PlusInfinity
  | NegInfinity => MinusInfinity
  | Finite q => Integer (truncate q)
  end.

(** The index of [Array.prototype.slice] for a relative position: a
    negative one counts from the end, and the result stays within the
    array. *)
Definition sliceIndex (len : nat) (relative : integerOrInfinity) : nat :=
  match relative with
  | MinusInfinity => 0
  | PlusInfinity => len
  | Integer z =>
      if (z <? 0)%Z then Z.to_nat (Z.max (Z.of_nat len + z) 0)
      else Nat.min (Z.to_nat z) len
  end.

(** [items.slice(start, end)] *)
Definition slice A (items : list A) (start finish : number) : list A :=
  let len := List.length items in
  let k := sliceIndex len (toIntegerOrInfinity start) in
  let final := sliceIndex len (toIntegerOrInfinity finish) in
  firstn (final - k) (skipn k items).

(** [items.slice(start)] *)
Definition sliceFrom A (items : list A) (start : number) : list A :=
  let len := List.length items in
  skipn (sliceIndex len (toIntegerOrInfinity start)) items.

(** [items[items.length - 1] === ""] *)
Definition lastIsEmpty (items : list jsstring) : bool :=
  match items with
  | [] => false
  | _ => streq (last items []) []
  end.

(** *** [trimLogFile] on the text of the file *)

(** What [trimLogFile] hands to [writeFile] for a file that holds
    [contents]; [None] when it returns without writing. *)
Definition trimmedLog (contents : jsstring) (maxLines keepLines : number)
  : option jsstring :=
  let lines := split LF contents in
  let lineCount :=
    if lastIsEmpty lines then List.length lines - 1 else List.length lines in
  if number_le (ofNat lineCount) maxLines then None
  else
    let tail :=
      join [LF]
        (slice lines
           (Math_max (ofZ 0) (number_sub (ofNat lineCount) keepLines))
           (ofNat lineCount))
      ++ [LF] in
    Some tail.

(** *** [readLogTail] of the configuration page (ui-server.ts) *)

(** [rawContent.replace(/\r\n/g, "\n")] *)
Fixpoint replaceCRLF (s : jsstring) : jsstring :=
  match s with
  | [] => []
  | c :: r =>
      match r with
      | d :: r' =>
          if (c =? CR)%N && (d =? LF)%N then LF :: replaceCRLF r'
          else c :: replaceCRLF r
      | [] => [c]
      end
  end.

Record LogTail := {
  tail_lines : list jsstring;
  totalLines : nat;
  truncated : bool;
  missing : bool
}.

(** [file] is [None] when nothing is at the path. *)
Definition readLogTail (file : option jsstring) (lineLimit : number)
  : LogTail :=
  match file with
  | None =>
      {| tail_lines := []; totalLines := 0; truncated := false;
         missing := true |}
  | Some rawContent =>
      let normalizedContent := replaceCRLF rawContent in
      let allLines := split LF normalizedContent in
      let allLines :=
        if (0 <? List.length allLines)%nat && lastIsEmpty allLines
        then removelast allLines else allLines in
      let totalLines := List.length allLines in
      let lines :=
        if number_gt (ofNat totalLines) lineLimit
        then sliceFrom allLines (number_sub (ofNat totalLines) lineLimit)
        else allLines in
      {| tail_lines := lines;
         totalLines := totalLines;
         truncated := (List.length lines <? totalLines)%nat;
         missing := false |}
  end.

(** *** Redacting tokens in what is logged *)

(** [[A-Za-z0-9-]] *)
Definition isTokenChar (c : N) : bool :=
  ((65 <=? c) && (c <=? 90) || (97 <=? c) && (c <=? 122)
   || (48 <=? c) && (c <=? 57) || (c =? 45))%N.

(** [[pbar]] *)
Definition isTokenKind (c : N) : bool :=
  ((c =? 112) || (c =? 98) || (c =? 97) || (c =? 114))%N.

(** The code units at the start of [s] that [[A-Za-z0-9-]+] takes. *)
Fixpoint tokenChars (s : jsstring) : nat :=
  match s with
  | c :: r => if isTokenChar c then S (tokenChars r) else 0
  | [] => 0
  end.

(** The length of the match of [/xox[pbar]-[A-Za-z0-9-]+/] at the start of
    [s], if there is one. *)
Definition matchToken (s : jsstring) : option nat :=
  match s with
  | x :: o :: x' :: kind :: dash :: r =>
      if ((x =? 120) && (o =? 111) && (x' =? 120))%N && isTokenKind kind
         && (dash =? 45)%N && (0 <? tokenChars r)%nat
      then Some (5 + tokenChars r)
      else None
  | _ => None
  end.

Definition REDACTED : jsstring := lit "xox*-REDACTED".

(** [value.replace(/.../g, "xox*-REDACTED")] from left to right: a match
    is replaced and the search goes on after it; [skip] code units of the
    last match are still to be passed over. *)
Fixpoint replaceTokens (skip : nat) (s : jsstring) : jsstring :=
  match s with
  | [] => []
  | c :: r =>
      match skip with
      | S skip' => replaceTokens skip' r
      | 0 =>
          match matchToken s with
          | Some n => REDACTED ++ replaceTokens (n - 1) r
          | None => c :: replaceTokens 0 r
          end
      end
  end.

Definition redactSlackToken (value : jsstring) : jsstring :=
  replaceTokens 0 value.

(** The metadata of a [log] call as [JSON.stringify] writes it with the
    replacer of [log]: every string value in it goes through
    [redactSlackToken]. *)
Fixpoint sanitized (metadata : json) : json :=
  match metadata with
  | JStr value => JStr (redactSlackToken value)
  | JArr items => JArr (List.map sanitized items)
  | JObj fields =>
      JObj
        (List.map
           (fun kv : jsstring * json => let (k, v) := kv in (k, sanitized v))
           fields)
  | _ => metadata
  end.

(** ** The cache file between two runs *)

(** [JSON.parse(JSON.stringify(j))]: a number that is not finite comes
    back as [null]. *)
Fixpoint reparsed (j : json) : json :=
  match j with
  | JNum n => jsonNumber n
  | JArr items => JArr (List.map reparsed items)
  | JObj fields =>
      JObj
        (List.map
           (fun kv : jsstring * json => let (k, v) := kv in (k, reparsed v))
           fields)
  | _ => j
  end.

(** A value [JSON.parse] can return: every number in it is finite. *)
Fixpoint parsed (j : json) : bool :=
  match j with
  | JNum n => isFinite n
  | JArr items => forallb parsed items
  | JObj fields =>
      forallb (fun kv : jsstring * json => let (_, v) := kv in parsed v)
        fields
  | _ => true
  end.

Definition observedStatusToJson (o : ObservedStatus) : json :=
  JObj [(lit "text", JStr (os_text o));
        (lit "emoji", JStr (os_emoji o));
        (lit "expiration", jsonNumber (os_expiration o));
        (lit "observedAt", jsonNumber (observedAt o))].

Definition emptyReadToJson (e : EmptyRead) : json :=
  JObj [(lit "lastSeenAt", jsonNumber (lastSeenAt e));
        (lit "consecutiveCount", jsonNumber (consecutiveCount e))].

Definition setStatusToJson (v : SetStatus) : json :=
  JObj [(lit "text", JStr (ss_text v));
        (lit "emoji", JStr (ss_emoji v));
        (lit "expiration", jsonNumber (ss_expiration v));
        (lit "setAt", jsonNumber (setAt v))].

(** [JSON.parse(JSON.stringify(cache, null, 2))]: what the next run parses
    from the file [saveCache] wrote. *)
Definition cacheToJson (cache : Cache) : json :=
  JObj
    ((lit "updatedAt", jsonNumber (updatedAt cache))
     :: field "lastNonEmptyNonOwned" observedStatusToJson
          (lastNonEmptyNonOwned cache)
     ++ field "emptyRead" emptyReadToJson (emptyRead cache)
     ++ field "lastSetByScript" setStatusToJson (lastSetByScript cache)
     ++ List.map
          (fun kv : jsstring * json => let (k, v) := kv in (k, reparsed v))
          (passthrough cache)).

(** ** The log page (ui/app.ts) *)

(** [s.replaceAll(c, by)] for a pattern of one code unit and a replacement
    without [$]. *)
Definition replaceAll (c : N) (by_ : jsstring) (s : jsstring) : jsstring :=
  flat_map (fun x => if (x =? c)%N then by_ else [x]) s.

Definition escapeHtml (input : jsstring) : jsstring :=
  replaceAll 39 (lit "&#39;")
    (replaceAll 34 (lit "&quot;")
       (replaceAll 62 (lit "&gt;")
          (replaceAll 60 (lit "&lt;")
             (replaceAll 38 (lit "&amp;") input)))).
(** * Vocabulary of the properties *)

(** The sentinel test of [isStatusOwnedByScript]. *)
Definition IsSentinel (emoji : jsstring) (config : StatusEmojiConfig) : Prop :=
  trim emoji = Runtime.statusEmoji config
  \/ trim emoji = Runtime.statusEmojiUnicode config.

(** The reading of C2 that trims the text before the test. *)
Definition OwnedOnTrimmedText
  (text emoji : jsstring) (config : StatusEmojiConfig) : Prop :=
  isStatusOwnedByScript text emoji config = true <->
  IsSentinel emoji config
  /\ (trim text = [] \/ Substring separator (trim text)).

Definition defaultEmojiConfig : StatusEmojiConfig :=
  {| Runtime.statusEmoji := DEFAULT_CONFIG.statusEmoji;
     Runtime.statusEmojiUnicode := DEFAULT_CONFIG.statusEmojiUnicode |}.

(** The reading of C3 that trims both fields before the test. *)
Definition SafeOnTrimmedFields (text emoji : jsstring) : Prop :=
  isSafeToOverrideWhenPlayingTrack text emoji = true <->
  trim text = [] \/ trim emoji = [].

Definition extrasOnly (extras : list (jsstring * json)) : Prop :=
  Forall (fun kv => inShape (fst kv) = false) extras.

(** The cache file holds nothing the schema accepts. *)
Definition cacheUnusable (env : Env) : Prop :=
  match cacheFile env with
  | Missing | Unreadable _ | NotJson => True
  | Json j => cacheSchema j = None
  end.


(** ** Reading a run *)

Definition isSetCall (e : event) : bool :=
  match e with
  | Fetch _ method _ => String.eqb method "users.profile.set"
  | _ => false
  end.

Definition isReadCall (e : event) : bool :=
  match e with
  | Fetch _ method _ => String.eqb method "users.profile.get"
  | _ => false
  end.

Definition isBackoff (e : event) : bool :=
  match e with SetTimeout _ => true | _ => false end.

(** The status-set calls of a trace, in order. *)
Definition setCalls (t : list event) : list event := filter isSetCall t.

(** The profile reads of a trace. *)
Definition readCalls (t : list event) : list event := filter isReadCall t.

(** The profile reads and the waits between them. *)
Definition readSteps (t : list event) : list event :=
  filter (fun e => isReadCall e || isBackoff e) t.

(** The cache records handed to [writeFile], in order. *)
Definition cacheWrites (t : list event) : list Cache :=
  flat_map (fun e => match e with WriteFile _ c => [c] | _ => [] end) t.

(** Events that touch neither Slack nor the cache file. *)
Definition isLocal (e : event) : bool :=
  match e with
  | ConsoleLog _ _ | TrimLog _ _ _ | ExecFile _ _ => true
  | _ => false
  end.

Definition localOnly (t : list event) : Prop := forallb isLocal t = true.

(** The trace ends with [suffix]. *)
Definition EndsWith (suffix t : list event) : Prop :=
  exists pre, t = pre ++ suffix.

(** *** What the environment answers *)

Definition ConfigLoaded (env : Env) (config : Config.t) : Prop :=
  exists path, configOutcome env = inr (config, path).

Definition SpotifyRunning (env : Env) : Prop :=
  exists stdout, execFile env "/usr/bin/pgrep" ["Spotify"] = inr stdout.

(** The state query answers, and its trimmed answer is [playing]. *)
Definition StatePlaying (env : Env) : Prop :=
  exists stdout,
    execFile env "/usr/bin/osascript" ["-e"; stateScript] = inr stdout
    /\ trim stdout = lit "playing".

Definition TrackYields (env : Env) (track : jsstring) : Prop :=
  exists stdout,
    execFile env "/usr/bin/osascript" ["-e"; trackScript] = inr stdout
    /\ track = trim stdout.

Definition readFails (env : Env) (attempt : nat) : Prop :=
  forall r, profileGetOutcome env attempt <> JsonBody r.

(** Attempt [k] is the first to bring back a parsed body, [r]. *)
Definition ReadYieldsAt (env : Env) (k : nat) (r : SlackProfileGetResponse)
  : Prop :=
  1 <= k <= maxAttempts
  /\ profileGetOutcome env k = JsonBody r
  /\ forall j, 1 <= j < k -> readFails env j.

Definition ReadYields (env : Env) (r : SlackProfileGetResponse) : Prop :=
  exists k, ReadYieldsAt env k r.

Definition ReadExhausted (env : Env) : Prop :=
  forall j, 1 <= j <= maxAttempts -> readFails env j.

(** *** The snapshot of a response, as [main] reads it *)

Definition statusTextOf (r : SlackProfileGetResponse) : jsstring :=
  normalizeText (optChain (profile r) status_text).

Definition statusEmojiOf (r : SlackProfileGetResponse) : jsstring :=
  normalizeEmoji (optChain (profile r) status_emoji).

Definition statusExpirationOf (r : SlackProfileGetResponse) : number :=
  optChain (profile r) status_expiration ?? ofZ 0.

Definition ownedOf (rc : RuntimeConfig) (r : SlackProfileGetResponse) : bool :=
  isStatusOwnedByScript (statusTextOf r) (statusEmojiOf r) rc.

Definition safeOf (r : SlackProfileGetResponse) : bool :=
  isSafeToOverrideWhenPlayingTrack (statusTextOf r) (statusEmojiOf r).

(** Not owned, text and emoji both set: the status the cache records. *)
Definition protectedOf (rc : RuntimeConfig) (r : SlackProfileGetResponse)
  : bool :=
  negb (ownedOf rc r) && negb (streq (statusTextOf r) [])
  && negb (streq (statusEmojiOf r) []).

(** The gates of C1: configuration loaded, Spotify running, the read
    answered [ok: true], the player is playing, and the snapshot is safe,
    owned, or [alwaysOverride] is on. *)
Definition GatesOpen (env : Env) : Prop :=
  exists config r,
    ConfigLoaded env config
    /\ SpotifyRunning env
    /\ ReadYields env r /\ ok r = true
    /\ StatePlaying env
    /\ (safeOf r = true
        \/ ownedOf (runtimeConfigOf (cwd env) config) r = true
        \/ Runtime.alwaysOverride (runtimeConfigOf (cwd env) config) = true).

(** The first cache write succeeds. *)
Definition FirstWriteSucceeds (env : Env) : Prop :=
  writeFileOutcome env 0 = None.

(** The steps between the gates and the set call succeed: the cache is
    written and the track is read. *)
Definition StepsSucceed (env : Env) : Prop :=
  FirstWriteSucceeds env /\ exists track, TrackYields env track.

(** C1 as stated: one set call exactly when the gates are open, none
    otherwise. *)
Definition SetCallIffGates (env : Env) : Prop :=
  (List.length (setCalls (traceOf (run env))) = 1 <-> GatesOpen env)
  /\ (~ GatesOpen env -> setCalls (traceOf (run env)) = []).

(** ** Vocabulary for reasoning about computations *)

(** [wp c s Q]: running [c] from [s] ends in a trace, state and result
    that satisfy [Q]. *)
Definition wp {A} (c : M A) (s : State)
  (Q : list event -> State -> result A -> Prop) : Prop :=
  Q (fst (fst (c s))) (snd (fst (c s))) (snd (c s)).

(** One more clock reading taken. *)
Definition tick (s : State) : State :=
  {| ticks := S (ticks s); writes := writes s; exitCode := exitCode s |}.

(** One more cache write attempted. *)
Definition wrote (s : State) : State :=
  {| ticks := ticks s; writes := S (writes s); exitCode := exitCode s |}.

(** The cache the schema accepts from the cache file, if any. *)
Definition usableCache (env : Env) : option Cache :=
  match cacheFile env with
  | Json j => cacheSchema j
  | _ => None
  end.

Definition isFailure {T} (outcome : fetchOutcome T) : Prop :=
  match outcome with
  | JsonBody _ => False
  | _ => True
  end.

Definition readEvent (token : jsstring) : event :=
  Fetch token "users.profile.get" None.

(** The trace of [n] failed reads in a row, the first being number
    [attempt]: the call, the warning, the wait. *)
Fixpoint failedAttempts (token : jsstring) (attempt n : nat) : list event :=
  match n with
  | 0 => []
  | S n' =>
      readEvent token
      :: ConsoleLog WARN "Slack profile.get failed, retrying"
      :: SetTimeout (250 * attempt)
      :: failedAttempts token (attempt + 1) n'
  end.

Definition StateQueryFails (env : Env) : Prop :=
  exists e, execFile env "/usr/bin/osascript" ["-e"; stateScript] = inl e.

(** ** The cache the run starts from *)


(** ** Sample environments *)

Definition sampleConfig : Config.t :=
  {| Config.slackToken := lit "xoxp-sample";
     Config.pollIntervalSeconds := None;
     Config.statusEmoji := None;
     Config.statusEmojiUnicode := None;
     Config.statusTtlSeconds := None;
     Config.alwaysOverride := None;
     Config.requireTwoEmptyReadsBeforeOverride := None;
     Config.emptyReadConfirmWindowSeconds := None;
     Config.cacheMaxAgeSeconds := None;
     Config.logMaxLines := None;
     Config.logKeepLines := None;
     Config.stdoutLogPath := None;
     Config.stderrLogPath := None |}.

Definition statusOf (text emoji : jsstring) : SlackProfileGetResponse :=
  {| ok := true;
     error := None;
     profile :=
       Some {| status_text := Some text;
               status_emoji := Some emoji;
               status_expiration := Some (ofZ 0) |} |}.

(** A machine where Spotify runs and answers the state query with
    [state] and the track query with [track], Slack answers the reads with
    [reads] and the set call with [set], and the cache path holds [file]
    and takes writes as [writesTo] says. *)
Definition sampleEnv
  (state track : exn + jsstring)
  (reads : nat -> fetchOutcome SlackProfileGetResponse)
  (set : fetchOutcome SlackSetResponse)
  (file : fileContent) (writesTo : nat -> option exn) : Env :=
  {| cwd := lit "/repo";
     configOutcome := inr (sampleConfig, lit "/repo/config.local.json");
     logTrimOutcome := fun _ => None;
     cacheFile := file;
     execFile :=
       fun file args =>
         if String.eqb file "/usr/bin/pgrep" then inr (lit "4242")
         else
           match args with
           | [_; script] =>
               if String.eqb script stateScript then state else track
           | _ => inl "ENOENT"
           end;
     profileGetOutcome := reads;
     profileSetOutcome := set;
     writeFileOutcome := writesTo;
     clock := fun k => (1700000000 + Z.of_nat k)%Z;
     getAllMatches := fun _ => [];
     applyTo := fun text _ => text |}.

Definition setAccepted : fetchOutcome SlackSetResponse :=
  JsonBody {| set_ok := true; set_error := None |}.

(** Playing, an empty Slack status, everything succeeds: the run sets the
    status. *)
Definition envPlaying : Env :=
  sampleEnv (inr (lit "playing")) (inr (lit "Artist - Song"))
    (fun _ => JsonBody (statusOf [] [])) setAccepted Missing (fun _ => None).

(** As [envPlaying], but the track query fails. *)
Definition envTrackFails : Env :=
  sampleEnv (inr (lit "playing")) (inl "osascript: execution error")
    (fun _ => JsonBody (statusOf [] [])) setAccepted Missing (fun _ => None).

(** As [envPlaying], but Slack shows a lunch status set by hand. *)
Definition envLunch : Env :=
  sampleEnv (inr (lit "playing")) (inr (lit "Artist - Song"))
    (fun _ => JsonBody (statusOf (lit "Lunch") (lit ":pizza:")))
    setAccepted Missing (fun _ => None).

(** Spotify is paused; the Slack status is empty. *)
Definition envPaused : Env :=
  sampleEnv (inr (lit "paused")) (inr (lit "Artist - Song"))
    (fun _ => JsonBody (statusOf [] [])) setAccepted Missing (fun _ => None).

(** [pgrep] finds no Spotify process. *)
Definition envSpotifyClosed : Env :=
  {| cwd := lit "/repo";
     configOutcome := inr (sampleConfig, lit "/repo/config.local.json");
     logTrimOutcome := fun _ => None;
     cacheFile := Missing;
     execFile := fun _ _ => inl "Command failed: /usr/bin/pgrep Spotify";
     profileGetOutcome := fun _ => JsonBody (statusOf [] []);
     profileSetOutcome := setAccepted;
     writeFileOutcome := fun _ => None;
     clock := fun k => (1700000000 + Z.of_nat k)%Z;
     getAllMatches := fun _ => [];
     applyTo := fun text _ => text |}.

(** ** Vocabulary of the cache update (C4) *)





(** ** Vocabulary of the profile read (C5) *)

(** Slack never answers a read with a body that parses. *)
Definition envReadsFail : Env :=
  sampleEnv (inr (lit "playing")) (inr (lit "Artist - Song"))
    (fun _ => NonJsonBody) setAccepted Missing (fun _ => None).

(** The second read is answered, with [ok: false]. *)
Definition envReadRefused : Env :=
  sampleEnv (inr (lit "playing")) (inr (lit "Artist - Song"))
    (fun k =>
       if Nat.eqb k 2
       then JsonBody {| ok := false;
                        error := Some (lit "invalid_auth");
                        profile := None |}
       else NetworkError "ECONNRESET")
    setAccepted Missing (fun _ => None).

(** ** Vocabulary of the failures (C7) *)

Definition ConfigFails (env : Env) : Prop :=
  exists e, configOutcome env = inl e.

Definition TrackFails (env : Env) : Prop :=
  exists e, execFile env "/usr/bin/osascript" ["-e"; trackScript] = inl e.

(** The run ended in the catch-all handler: the error is logged last and
    the exit code is 1. *)
Definition Fatal (env : Env) : Prop :=
  exitCode (stateOf (run env)) = 1%Z
  /\ EndsWith [ConsoleLog ERROR "Fatal error"] (traceOf (run env)).

(** The run ended normally and never called the set method. *)
Definition EndsQuietly (env : Env) : Prop :=
  exitCode (stateOf (run env)) = 0%Z /\ setCalls (traceOf (run env)) = [].

(** C7 as stated: a non-zero exit code comes from a configuration that
    failed to load, and from nothing else. *)
Definition OnlyConfigFailureIsFatal (env : Env) : Prop :=
  exitCode (stateOf (run env)) <> 0%Z -> ConfigFails env.

(** Playing, gates open, but the set exchange breaks on the wire. *)
Definition envSetBreaks : Env :=
  sampleEnv (inr (lit "playing")) (inr (lit "Artist - Song"))
    (fun _ => JsonBody (statusOf [] [])) (NetworkError "ECONNRESET")
    Missing (fun _ => None).

(** The state query fails. *)
Definition envStateFails : Env :=
  sampleEnv (inl "osascript: timeout") (inr (lit "Artist - Song"))
    (fun _ => JsonBody (statusOf [] [])) setAccepted Missing (fun _ => None).

(** ** Vocabulary of the unused guard (C8) *)



(** The same machine, with [file] at the cache path. *)
Definition envWithCacheFile (env : Env) (file : fileContent) : Env :=
  {| cwd := cwd env;
     configOutcome := configOutcome env;
     logTrimOutcome := logTrimOutcome env;
     cacheFile := file;
     execFile := execFile env;
     profileGetOutcome := profileGetOutcome env;
     profileSetOutcome := profileSetOutcome env;
     writeFileOutcome := writeFileOutcome env;
     clock := clock env;
     getAllMatches := getAllMatches env;
     applyTo := applyTo env |}.








(** ** Vocabulary of the absent fields (C10) *)

(** The response carries no status text, emoji or expiration: the profile
    object is absent, or the three fields are. *)
Definition AbsentFields (r : SlackProfileGetResponse) : Prop :=
  optChain (profile r) status_text = None
  /\ optChain (profile r) status_emoji = None
  /\ optChain (profile r) status_expiration = None.

Definition okWithoutProfile : SlackProfileGetResponse :=
  {| ok := true; error := None; profile := None |}.

(** C10 as stated: after an [ok: true] answer without the status fields,
    a playing player gets the set call. *)
Definition AbsentFieldsGetSetCall (env : Env) : Prop :=
  forall config r,
    ConfigLoaded env config ->
    SpotifyRunning env ->
    ReadYields env r -> ok r = true ->
    AbsentFields r ->
    StatePlaying env ->
    List.length (setCalls (traceOf (run env))) = 1.

(** Playing, Slack answers without a profile, the disk is full. *)
Definition envNoProfileDiskFull : Env :=
  sampleEnv (inr (lit "playing")) (inr (lit "Artist - Song"))
    (fun _ => JsonBody okWithoutProfile) setAccepted Missing
    (fun _ => Some "ENOSPC").

(** Playing, Slack answers without a profile, everything else succeeds. *)
Definition envNoProfile : Env :=
  sampleEnv (inr (lit "playing")) (inr (lit "Artist - Song"))
    (fun _ => JsonBody okWithoutProfile) setAccepted Missing
    (fun _ => None).

(** ** Vocabulary for the log files *)

(** The lines of a log the way [trimLogFile] and [readLogTail] count them:
    the pieces between line feeds, without the empty piece that follows a
    final line feed. *)
Definition logLines (contents : jsstring) : list jsstring :=
  let lines := split LF contents in
  if lastIsEmpty lines then removelast lines else lines.

(** A text in which every line ends with a line feed. *)
Definition unlines (lines : list jsstring) : jsstring :=
  List.concat (List.map (fun l => l ++ [LF]) lines).

(** How many of the [lineCount] lines of a log [trimLogFile] drops: the
    start of its [slice], for the [len] pieces [split] returned. *)
Definition dropped (lineCount len : nat) (keepLines : number) : nat :=
  sliceIndex len
    (toIntegerOrInfinity
       (Math_max (ofZ 0) (number_sub (ofNat lineCount) keepLines))).

(** [maxLines] and [keepLines] as the schema lets them through: not
    negative.  *)
Definition nonNegative (n : number) : Prop := number_le (ofZ 0) n = true.

(** ** Vocabulary for the redaction *)

(** Somewhere in [s] the token pattern matches. *)
Definition ContainsToken (s : jsstring) : Prop :=
  exists pre post n, s = pre ++ post /\ matchToken post = Some n.

(** No suffix of [s] starts with a match. *)
Definition NoToken (s : jsstring) : Prop :=
  forall k, matchToken (skipn k s) = None.

(** ** Vocabulary for the configuration *)

(** A string as the schema hands it on: trimmed, and not empty. *)
Definition trimmedNonEmpty (s : jsstring) : Prop := trim s = s /\ s <> [].

(** A number as the schema hands it on: finite, and not negative. *)
Definition finiteNonNegative (n : number) : Prop :=
  isFinite n = true /\ geZero n = true.

(** [P] holds of the value of a key that is set. *)
Definition whenSet A (P : A -> Prop) (x : option A) : Prop :=
  match x with
  | Some a => P a
  | None => True
  end.

(** What [configSchema] guarantees of the configuration it returns. *)
Definition ValidConfig (config : Config.t) : Prop :=
  trimmedNonEmpty (Config.slackToken config)
  /\ whenSet finiteNonNegative (Config.pollIntervalSeconds config)
  /\ whenSet trimmedNonEmpty (Config.statusEmoji config)
  /\ whenSet trimmedNonEmpty (Config.statusEmojiUnicode config)
  /\ whenSet finiteNonNegative (Config.statusTtlSeconds config)
  /\ whenSet finiteNonNegative (Config.emptyReadConfirmWindowSeconds config)
  /\ whenSet finiteNonNegative (Config.cacheMaxAgeSeconds config)
  /\ whenSet finiteNonNegative (Config.logMaxLines config)
  /\ whenSet finiteNonNegative (Config.logKeepLines config)
  /\ whenSet trimmedNonEmpty (Config.stdoutLogPath config)
  /\ whenSet trimmedNonEmpty (Config.stderrLogPath config).

(** A payload the schema accepts, for the examples. *)
Definition samplePayload : json :=
  JObj [(lit "slackToken", JStr (lit " xoxp-sample "));
        (lit "statusEmoji", JStr (lit "  "));
        (lit "statusTtlSeconds", JNum (ofZ 90));
        (lit "alwaysOverride", JBool true)].

(** What [configSchema] makes of [samplePayload]. *)
Definition sampleParsed : Config.t :=
  {| Config.slackToken := lit "xoxp-sample";
     Config.pollIntervalSeconds := None;
     Config.statusEmoji := None;
     Config.statusEmojiUnicode := None;
     Config.statusTtlSeconds := Some (ofZ 90);
     Config.alwaysOverride := Some true;
     Config.requireTwoEmptyReadsBeforeOverride := None;
     Config.emptyReadConfirmWindowSeconds := None;
     Config.cacheMaxAgeSeconds := None;
     Config.logMaxLines := None;
     Config.logKeepLines := None;
     Config.stdoutLogPath := None;
     Config.stderrLogPath := None |}.

(** The settings of the configuration page, for the examples. *)
Definition sampleUiPayload : json :=
  JObj [(lit "statusTtlSeconds", JNum (ofZ 300));
        (lit "alwaysOverride", JBool false);
        (lit "cacheMaxAgeSeconds", JNum (ofZ 600));
        (lit "emptyReadConfirmWindowSeconds", JNum (ofZ 600))].

Definition sampleUiConfig : UiConfig :=
  {| ui_statusTtlSeconds := ofZ 300;
     ui_alwaysOverride := false;
     ui_cacheMaxAgeSeconds := ofZ 600;
     ui_emptyReadConfirmWindowSeconds := ofZ 600 |}.

(** A machine with a local configuration file and one in the home
    directory, for the examples. *)
Definition sampleFiles : FileSystem :=
  {| homedir := lit "/Users/me";
     fileAt :=
       fun p =>
         if streq p (lit "/repo/config.local.json") then Json samplePayload
         else if streq p
                   (lit "/Users/me/.config/spotify-status-on-slack/config.json")
         then Json (JObj [(lit "slackToken", JStr (lit "xoxp-home"))])
         else Missing |}.

(** ** Vocabulary for the cache file *)

Definition wholeNonNegative (n : number) : Prop :=
  isInteger n = true /\ geZero n = true.

(** A cache record that [cacheSchema] accepts when it is read back from
    the file: its numbers are as the schema wants them, and the keys it
    passes through are not keys of the schema and hold values
    [JSON.parse] returned. *)
Definition Storable (cache : Cache) : Prop :=
  finiteNonNegative (updatedAt cache)
  /\ whenSet
       (fun o =>
          finiteNonNegative (os_expiration o)
          /\ finiteNonNegative (observedAt o))
       (lastNonEmptyNonOwned cache)
  /\ whenSet
       (fun e =>
          finiteNonNegative (lastSeenAt e)
          /\ wholeNonNegative (consecutiveCount e))
       (emptyRead cache)
  /\ whenSet
       (fun v =>
          finiteNonNegative (ss_expiration v) /\ finiteNonNegative (setAt v))
       (lastSetByScript cache)
  /\ extrasOnly (passthrough cache)
  /\ Forall (fun kv => parsed (snd kv) = true) (passthrough cache).


(** ** Vocabulary for what a run never does *)

(** Every event of [c] satisfies [I], from any state, and the value [c]
    returns satisfies [R]. *)
Definition triple {A} (I : event -> Prop) (c : M A) (R : A -> Prop) : Prop :=
  forall s,
    Forall I (fst (fst (c s)))
    /\ forall a, snd (c s) = Ok a -> R a.

(** The commands the script runs. *)
Definition knownCommands : list (string * list string) :=
  [("/usr/bin/pgrep", ["Spotify"]);
   ("/usr/bin/osascript", ["-e"; stateScript]);
   ("/usr/bin/osascript", ["-e"; trackScript])].

(** A process is started only with one of the known commands. *)
Definition knownCommand (e : event) : Prop :=
  match e with
  | ExecFile file args => In (file, args) knownCommands
  | _ => True
  end.

(** The body of a status-set call as [main] builds it from [config]: the
    censored track label the player gave, the configured emoji, and a
    clock reading plus the configured time to live. *)
Definition bodyOf (env : Env) (config : Config.t) (body : StatusBody) : Prop :=
  let runtimeConfig := runtimeConfigOf (cwd env) config in
  (exists stdout,
      execFile env "/usr/bin/osascript" ["-e"; trackScript] = inr stdout
      /\ body_text body = censorText env (trim stdout))
  /\ body_emoji body = Runtime.statusEmoji runtimeConfig
  /\ exists k,
       body_expiration body
       = number_add (ofZ (clock env k))
           (Runtime.statusTtlSeconds runtimeConfig).

(** A call to Slack is a profile read without a body or a status-set call
    with the body of [main], and carries the configured token. *)
Definition slackCallOf (env : Env) (config : Config.t) (e : event) : Prop :=
  match e with
  | Fetch token method body =>
      token = Config.slackToken config
      /\ ((method = "users.profile.get" /\ body = None)
          \/ (method = "users.profile.set"
              /\ exists b, body = Some b /\ bodyOf env config b))
  | _ => True
  end.

(** A file is written only at the cache path, with a record the next run
    can load. *)
Definition storableWrite (env : Env) (e : event) : Prop :=
  match e with
  | WriteFile filePath content =>
      filePath = getCacheFilePath (cwd env) /\ Storable content
  | _ => True
  end.

(** What the environment must answer for the cache to stay loadable: the
    clock is not before the epoch, the configuration is one the schema
    let through, Slack reports an expiration that is finite and not
    negative, and the cache file holds what [JSON.parse] can return. *)
Definition WellBehaved (env : Env) : Prop :=
  (forall k, (0 <= clock env k)%Z)
  /\ (forall config path,
         configOutcome env = inr (config, path) -> ValidConfig config)
  /\ (forall k r,
         profileGetOutcome env k = JsonBody r ->
         finiteNonNegative (statusExpirationOf r))
  /\ (forall j, cacheFile env = Json j -> parsed j = true).

(** ** Vocabulary for the log trimming *)

(** The same machine, on which trimming the logs goes as [outcome]
    says. *)
Definition envWithLogTrimOutcome (env : Env)
  (outcome : jsstring -> option exn) : Env :=
  {| cwd := cwd env;
     configOutcome := configOutcome env;
     logTrimOutcome := outcome;
     cacheFile := cacheFile env;
     execFile := execFile env;
     profileGetOutcome := profileGetOutcome env;
     profileSetOutcome := profileSetOutcome env;
     writeFileOutcome := writeFileOutcome env;
     clock := clock env;
     getAllMatches := getAllMatches env;
     applyTo := applyTo env |}.

(** The events of [trimLogFile]: the trim, and the warning when it
    fails. *)
Definition aboutTrimming (e : event) : bool :=
  match e with
  | TrimLog _ _ _ => true
  | ConsoleLog WARN message =>
      String.eqb message "Log trimming failed (non-fatal)"
  | _ => false
  end.

(** The events of a trace that are not about trimming. *)
Definition besidesTrimming (t : list event) : list event :=
  filter (fun e => negb (aboutTrimming e)) t.

(** Two computations that do the same besides trimming: same other
    events, same state, same result. *)
Definition sameBesidesTrimming {A} (m1 m2 : M A) : Prop :=
  forall s,
    besidesTrimming (fst (fst (m1 s))) = besidesTrimming (fst (fst (m2 s)))
    /\ snd (fst (m1 s)) = snd (fst (m2 s))
    /\ snd (m1 s) = snd (m2 s).

(** The string values of a JSON value, at any depth. *)
Fixpoint stringValues (j : json) : list jsstring :=
  match j with
  | JStr s => [s]
  | JArr items => flat_map stringValues items
  | JObj fields =>
      flat_map (fun kv : jsstring * json => let (_, v) := kv in stringValues v)
        fields
  | _ => []
  end.

(** ** Vocabulary for the log page *)

(** What [escapeHtml] makes of one code unit. *)
Definition escapeUnit (c : N) : jsstring :=
  if (c =? 38)%N then lit "&amp;"
  else if (c =? 60)%N then lit "&lt;"
  else if (c =? 62)%N then lit "&gt;"
  else if (c =? 34)%N then lit "&quot;"
  else if (c =? 39)%N then lit "&#39;"
  else [c].

(** The code units with a meaning in HTML text and attribute values,
    other than [&]. *)
Definition isMarkup (c : N) : bool :=
  ((c =? 60) || (c =? 62) || (c =? 34) || (c =? 39))%N.

(** A call to Slack that can be accepted: the token is trimmed and not
    empty, and a status it sets has an emoji that is trimmed and not
    empty, and does not expire before the clock reading it was computed
    from. *)
Definition soundCall (env : Env) (e : event) : Prop :=
  match e with
  | Fetch token _ body =>
      trimmedNonEmpty token
      /\ whenSet
           (fun b =>
              trimmedNonEmpty (body_emoji b)
              /\ exists k,
                   number_le (ofZ (clock env k)) (body_expiration b) = true)
           body
  | _ => True
  end.

(** A machine whose configuration is what [loadConfiguration] finds in
    [sampleFiles]. *)
Definition envFromDisk : Env :=
  {| cwd := lit "/repo";
     configOutcome := OnDisk.loadConfiguration sampleFiles None (lit "/repo");
     logTrimOutcome := fun _ => None;
     cacheFile := Missing;
     execFile :=
       fun file args =>
         if String.eqb file "/usr/bin/pgrep" then inr (lit "4242")
         else
           match args with
           | [_; script] =>
               if String.eqb script stateScript then inr (lit "playing")
               else inr (lit "Artist - Song")
           | _ => inl "ENOENT"
           end;
     profileGetOutcome := fun _ => JsonBody (statusOf [] []);
     profileSetOutcome := setAccepted;
     writeFileOutcome := fun _ => None;
     clock := fun k => (1700000000 + Z.of_nat k)%Z;
     getAllMatches := fun _ => [];
     applyTo := fun text _ => text |}.

(** ** Vocabulary for what the cache file decides *)

(** An event as the world outside the cache sees it: without the warning
    about the cache file, without the record a cache write carries, and
    without the expiration of a status, which depends on when the clock
    was read. *)
Definition outward (e : event) : list event :=
  match e with
  | ConsoleLog WARN message =>
      if String.eqb message "Cache read failed; starting fresh." then []
      else [e]
  | Fetch token method (Some body) =>
      [Fetch token method
         (Some {| body_text := body_text body;
                  body_emoji := body_emoji body;
                  body_expiration := ofZ 0 |})]
  | WriteFile filePath _ => [WriteFile filePath (freshCache (ofZ 0))]
  | _ => [e]
  end.

Definition outwardOf (t : list event) : list event := flat_map outward t.

(** Two computations that look the same from outside the cache, from
    states that agree but for the clock readings taken: same outward
    events, the same number of cache writes, the same exit code, and
    results related by [R]. *)
Definition sameOutward {A} (R : A -> A -> Prop) (m1 m2 : M A) : Prop :=
  forall s1 s2,
    writes s1 = writes s2 -> exitCode s1 = exitCode s2 ->
    outwardOf (fst (fst (m1 s1))) = outwardOf (fst (fst (m2 s2)))
    /\ writes (snd (fst (m1 s1))) = writes (snd (fst (m2 s2)))
    /\ exitCode (snd (fst (m1 s1))) = exitCode (snd (fst (m2 s2)))
    /\ match snd (m1 s1), snd (m2 s2) with
       | Ok a, Ok b => R a b
       | Throw e1, Throw e2 => e1 = e2
       | _, _ => False
       end.

(** A computation that neither reads nor changes the state. *)
Definition stateless {A} (m : M A) : Prop :=
  exists t r, forall s, m s = (t, s, r).

(** Any two values. *)
Definition whatever {A} (a b : A) : Prop := True.

(** ** Vocabulary for the settings [main] does not read *)

(** [config] with [pollIntervalSeconds] and [cacheMaxAgeSeconds]
    replaced. *)
Definition withIdleSettings (config : Config.t)
  (pollInterval cacheMaxAge : option number) : Config.t :=
  {| Config.slackToken := Config.slackToken config;
     Config.pollIntervalSeconds := pollInterval;
     Config.statusEmoji := Config.statusEmoji config;
     Config.statusEmojiUnicode := Config.statusEmojiUnicode config;
     Config.statusTtlSeconds := Config.statusTtlSeconds config;
     Config.alwaysOverride := Config.alwaysOverride config;
     Config.requireTwoEmptyReadsBeforeOverride :=
       Config.requireTwoEmptyReadsBeforeOverride config;
     Config.emptyReadConfirmWindowSeconds :=
       Config.emptyReadConfirmWindowSeconds config;
     Config.cacheMaxAgeSeconds := cacheMaxAge;
     Config.logMaxLines := Config.logMaxLines config;
     Config.logKeepLines := Config.logKeepLines config;
     Config.stdoutLogPath := Config.stdoutLogPath config;
     Config.stderrLogPath := Config.stderrLogPath config |}.

(** The same machine, whose configuration file sets these two
    otherwise. *)
Definition envWithIdleSettings (env : Env)
  (pollInterval cacheMaxAge : option number) : Env :=
  {| cwd := cwd env;
     configOutcome :=
       match configOutcome env with
       | inl e => inl e
       | inr (config, path) =>
           inr (withIdleSettings config pollInterval cacheMaxAge, path)
       end;
     logTrimOutcome := logTrimOutcome env;
     cacheFile := cacheFile env;
     execFile := execFile env;
     profileGetOutcome := profileGetOutcome env;
     profileSetOutcome := profileSetOutcome env;
     writeFileOutcome := writeFileOutcome env;
     clock := clock env;
     getAllMatches := getAllMatches env;
     applyTo := applyTo env |}.
(** * Properties *)

Unset Implicit Arguments.

(** ** Strings *)

Lemma streq_true (a b : jsstring) : streq a b = true <-> a = b.
Proof. unfold streq; destruct (jsstring_eq_dec a b); split; congruence. Qed.

Lemma streq_false (a b : jsstring) : streq a b = false <-> a <> b.
Proof. unfold streq; destruct (jsstring_eq_dec a b); split; congruence. Qed.

Lemma startsWith_prefix (p s : jsstring) :
  startsWith s p = true <-> exists b, s = p ++ b.
Proof.
  revert s; induction p as [|x p IH]; intros s; simpl.
  - destruct s; split; eauto.
  - destruct s as [|y s]; simpl.
    + split; [discriminate | intros [b Hb]; discriminate].
    + rewrite andb_true_iff, N.eqb_eq, IH. split.
      * intros [-> [b ->]]. now exists b.
      * intros [b Hb]. injection Hb as -> ->. eauto.
Qed.

Lemma includes_Substring (p s : jsstring) :
  includes s p = true <-> Substring p s.
Proof.
  unfold Substring. induction s as [|c s IH].
  - cbn [includes]. rewrite orb_false_r, startsWith_prefix. split.
    + intros [b Hb]. now exists [], b.
    + intros [a [b Hab]]. destruct a; [now exists b | discriminate].
  - cbn [includes]. rewrite orb_true_iff, startsWith_prefix, IH. split.
    + intros [[b Hb] | [a [b Hab]]].
      * now exists [], b.
      * exists (c :: a), b. now rewrite Hab.
    + intros [[|c' a] [b Hab]].
      * left. now exists b.
      * right. injection Hab as _ ->. now exists a, b.
Qed.

Lemma trimStart_idem (s : jsstring) : trimStart (trimStart s) = trimStart s.
Proof.
  induction s as [|c s IH]; simpl; auto.
  destruct (isWhiteSpace c) eqn:E; auto. simpl. now rewrite E.
Qed.

Lemma trimEnd_keeps_head (c : N) (s : jsstring) :
  isWhiteSpace c = false -> trimEnd (c :: s) = c :: trimEnd s.
Proof. intros E. simpl. rewrite E. now destruct (trimEnd s). Qed.

Lemma trimEnd_idem (s : jsstring) : trimEnd (trimEnd s) = trimEnd s.
Proof.
  induction s as [|c s IH]; simpl; auto.
  destruct (trimEnd s) as [|d r] eqn:E.
  - destruct (isWhiteSpace c) eqn:W; simpl; auto. now rewrite W.
  - change (trimEnd (c :: d :: r)) with
      (match trimEnd (d :: r) with
       | [] => if isWhiteSpace c then [] else [c]
       | r' => c :: r'
       end).
    now rewrite IH.
Qed.

Lemma trimStart_head (s : jsstring) :
  trimStart s = [] \/
  exists c r, trimStart s = c :: r /\ isWhiteSpace c = false.
Proof.
  induction s as [|c s IH]; simpl; auto.
  destruct (isWhiteSpace c) eqn:E; auto. right. eauto.
Qed.

Lemma trim_idem (s : jsstring) : trim (trim s) = trim s.
Proof.
  unfold trim. destruct (trimStart_head s) as [-> | [c [r [-> W]]]]; auto.
  rewrite (trimEnd_keeps_head c r W). simpl trimStart. rewrite W.
  rewrite <- (trimEnd_keeps_head c r W). apply trimEnd_idem.
Qed.

Lemma normalizeText_trimmed (t : option jsstring) :
  trim (normalizeText t) = normalizeText t.
Proof. apply trim_idem. Qed.

Lemma normalizeEmoji_trimmed (e : option jsstring) :
  trim (normalizeEmoji e) = normalizeEmoji e.
Proof. apply trim_idem. Qed.

(** ** The classifier (C2, C3) *)

Lemma isStatusOwnedByScript_true (text emoji : jsstring)
  (config : StatusEmojiConfig) :
  isStatusOwnedByScript text emoji config = true <->
  IsSentinel emoji config /\ (text = [] \/ Substring separator text).
Proof.
  unfold isStatusOwnedByScript, IsSentinel, normalizeEmoji, orEmpty.
  rewrite <- includes_Substring, <- !streq_true.
  destruct (streq (trim emoji) (Runtime.statusEmoji config));
    destruct (streq (trim emoji) (Runtime.statusEmojiUnicode config));
    destruct (streq text []); destruct (includes text separator);
    simpl; intuition congruence.
Qed.

(** C2, as the code has it: [isStatusOwnedByScript text emoji config] is
    true if and only if the trimmed emoji is one of the two configured
    sentinels and the text, as passed, is empty or contains [" - "]: the
    emoji is trimmed inside the function, the
    text is tested as passed; on a text that is already trimmed (what
    [main] passes) this is the trimmed-text reading; an emoji that is not a
    sentinel is never owned. *)
Theorem C2_isStatusOwnedByScript_characterised :
  forall (text emoji : jsstring) (config : StatusEmojiConfig),
    (isStatusOwnedByScript text emoji config = true <->
     IsSentinel emoji config /\ (text = [] \/ Substring separator text))
    /\ OwnedOnTrimmedText (trim text) emoji config
    /\ (~ IsSentinel emoji config ->
        isStatusOwnedByScript text emoji config = false).
Proof.
  intros text emoji config. split; [apply isStatusOwnedByScript_true|]. split.
  - unfold OwnedOnTrimmedText. rewrite trim_idem.
    apply isStatusOwnedByScript_true.
  - intros H. destruct (isStatusOwnedByScript text emoji config) eqn:E; auto.
    apply isStatusOwnedByScript_true in E. tauto.
Qed.

Lemma C2_witness :
  ~ IsSentinel (lit ":pizza:") defaultEmojiConfig
  /\ isStatusOwnedByScript (lit "a - b") (lit ":pizza:") defaultEmojiConfig
     = false.
Proof.
  assert (H : ~ IsSentinel (lit ":pizza:") defaultEmojiConfig)
    by (intros [H | H]; vm_compute in H; discriminate).
  split; [exact H|].
  exact (proj2 (proj2 (C2_isStatusOwnedByScript_characterised
                         (lit "a - b") (lit ":pizza:") defaultEmojiConfig)) H).
Defined.

(** The trimmed-text reading fails on a blank text under the sentinel
    emoji: the text trims to the empty string, yet the status is not owned. *)
Lemma C2_counterexample :
  ~ OwnedOnTrimmedText [32%N] (lit ":headphones:") defaultEmojiConfig.
Proof.
  unfold OwnedOnTrimmedText. intros [_ H].
  assert (E : isStatusOwnedByScript [32%N] (lit ":headphones:")
                defaultEmojiConfig = false) by reflexivity.
  rewrite H in E; [discriminate|].
  split; [left; reflexivity | left; reflexivity].
Qed.

(** C3, as the code has it: [isEmptySlackStatus] is true if and only if
    both trimmed fields are empty;
    [isSafeToOverrideWhenPlayingTrack] tests them as passed, which on
    trimmed fields (what [main] passes) is the trimmed reading; the empty
    pair satisfies both. *)
Theorem C3_empty_and_safe_characterised :
  forall text emoji : jsstring,
    (isEmptySlackStatus text emoji = true <-> trim text = [] /\ trim emoji = [])
    /\ (isSafeToOverrideWhenPlayingTrack text emoji = true <->
        text = [] \/ emoji = [])
    /\ SafeOnTrimmedFields (trim text) (trim emoji)
    /\ isEmptySlackStatus [] [] = true
    /\ isSafeToOverrideWhenPlayingTrack [] [] = true.
Proof.
  intros text emoji.
  assert (S : forall a b, isSafeToOverrideWhenPlayingTrack a b = true <->
                          a = [] \/ b = []).
  { intros a b. unfold isSafeToOverrideWhenPlayingTrack.
    now rewrite orb_true_iff, !streq_true. }
  repeat split; try reflexivity; try apply S.
  - unfold isEmptySlackStatus, normalizeText, normalizeEmoji, orEmpty in H.
    apply andb_true_iff in H. now apply streq_true.
  - unfold isEmptySlackStatus, normalizeText, normalizeEmoji, orEmpty in H.
    apply andb_true_iff in H. now apply streq_true.
  - intros [H1 H2]. unfold isEmptySlackStatus, normalizeText, normalizeEmoji,
      orEmpty. now rewrite H1, H2.
  - rewrite !trim_idem. apply S.
  - rewrite !trim_idem. apply S.
Qed.

(** A blank text beside a set emoji trims to an empty text, yet is not safe
    for the function. *)
Lemma C3_counterexample :
  ~ SafeOnTrimmedFields [32%N] (lit ":pizza:").
Proof.
  unfold SafeOnTrimmedFields. intros [_ H].
  assert (E : isSafeToOverrideWhenPlayingTrack [32%N] (lit ":pizza:") = false)
    by reflexivity.
  rewrite H in E; [discriminate | left; reflexivity].
Qed.

(** ** Loading the cache (C9) *)

Lemma getField_extras (key : jsstring) (fs extras : list (jsstring * json)) :
  inShape key = true -> extrasOnly extras ->
  getField key (fs ++ extras) = getField key fs.
Proof.
  intros Hk Hx. induction fs as [|[k v] fs IH]; simpl.
  - induction Hx as [|[k v] extras Hkv _ IH]; simpl; auto.
    destruct (streq k key) eqn:E; auto.
    apply streq_true in E. simpl in Hkv. congruence.
  - now destruct (streq k key).
Qed.

Lemma filter_extras (fs extras : list (jsstring * json)) :
  extrasOnly extras ->
  filter (fun kv => negb (inShape (fst kv))) (fs ++ extras)
  = filter (fun kv => negb (inShape (fst kv))) fs ++ extras.
Proof.
  intros Hx. rewrite filter_app. f_equal.
  induction Hx as [|kv extras Hkv _ IH]; simpl; auto.
  now rewrite Hkv, IH.
Qed.

Lemma cacheSchema_extras (fs extras : list (jsstring * json)) (c : Cache) :
  extrasOnly extras ->
  cacheSchema (JObj fs) = Some c ->
  cacheSchema (JObj (fs ++ extras))
  = Some {| updatedAt := updatedAt c;
            lastNonEmptyNonOwned := lastNonEmptyNonOwned c;
            emptyRead := emptyRead c;
            lastSetByScript := lastSetByScript c;
            passthrough := passthrough c ++ extras |}.
Proof.
  intros Hx. unfold cacheSchema.
  rewrite !getField_extras by (auto; reflexivity).
  rewrite filter_extras by auto.
  destruct (required zFiniteMin0 _); [|discriminate].
  destruct (optional zObservedStatus _); [|discriminate].
  destruct (optional zEmptyRead _); [|discriminate].
  destruct (optional zSetStatus _); [|discriminate].
  intros H. now injection H as <-.
Qed.

Lemma loadCache_returns (env : Env) (dir : jsstring) (s : State) :
  exists t s' c, loadCache env dir s = (t, s', Ok c).
Proof.
  unfold loadCache, tryCatch, parseCache.
  destruct (cacheFile env) as [| e | | j]; simpl; eauto.
  destruct (cacheSchema j); simpl; eauto.
Qed.

Lemma loadCache_fresh (env : Env) (dir : jsstring) (s : State) :
  cacheUnusable env ->
  exists t s',
    loadCache env dir s = (t, s', Ok (freshCache (ofZ (clock env (ticks s))))).
Proof.
  unfold cacheUnusable, loadCache, tryCatch, parseCache.
  destruct (cacheFile env) as [| e | | j]; simpl; eauto.
  intros ->. simpl. eauto.
Qed.

Lemma loadCache_valid (env : Env) (dir : jsstring) (s : State)
  (j : json) (c : Cache) :
  cacheFile env = Json j -> cacheSchema j = Some c ->
  loadCache env dir s = ([], s, Ok c).
Proof.
  intros Hf Hc. unfold loadCache, tryCatch, parseCache.
  now rewrite Hf, Hc.
Qed.

(** C9: [loadCache] always returns; on a missing, unreadable, non-JSON or
    schema-invalid file it returns the fresh cache holding only [updatedAt],
    the clock reading taken then; a record the schema accepts is still
    accepted, with the same fields, when keys outside the schema are added
    to it, and is what [loadCache] returns. *)
Theorem C9_loadCache_never_fails :
  forall (env : Env) (dir : jsstring) (s : State),
    (exists t s' c, loadCache env dir s = (t, s', Ok c))
    /\ (cacheUnusable env ->
        exists t s',
          loadCache env dir s
          = (t, s', Ok (freshCache (ofZ (clock env (ticks s))))))
    /\ (forall fs extras c,
          extrasOnly extras ->
          cacheSchema (JObj fs) = Some c ->
          cacheFile env = Json (JObj (fs ++ extras)) ->
          loadCache env dir s
          = ([], s,
             Ok {| updatedAt := updatedAt c;
                   lastNonEmptyNonOwned := lastNonEmptyNonOwned c;
                   emptyRead := emptyRead c;
                   lastSetByScript := lastSetByScript c;
                   passthrough := passthrough c ++ extras |})).
Proof.
  intros env dir s. split; [apply loadCache_returns|]. split.
  - apply loadCache_fresh.
  - intros fs extras c Hx Hc Hf.
    apply (loadCache_valid env dir s _ _ Hf).
    now apply cacheSchema_extras.
Qed.

(** A cache file with a key the schema does not name. *)
Lemma C9_witness :
  loadCache
    (envWithCacheFile envPlaying
       (Json (JObj ([(lit "updatedAt", JNum (ofZ 1699999000))]
                    ++ [(lit "schemaVersion", JStr (lit "2"))]))))
    (lit "/repo") initialState
  = ([], initialState,
     Ok {| updatedAt := ofZ 1699999000;
           lastNonEmptyNonOwned := None;
           emptyRead := None;
           lastSetByScript := None;
           passthrough := [] ++ [(lit "schemaVersion", JStr (lit "2"))] |}).
Proof.
  destruct (C9_loadCache_never_fails
              (envWithCacheFile envPlaying
                 (Json (JObj ([(lit "updatedAt", JNum (ofZ 1699999000))]
                              ++ [(lit "schemaVersion", JStr (lit "2"))]))))
              (lit "/repo") initialState) as (_ & _ & H).
  apply (H [(lit "updatedAt", JNum (ofZ 1699999000))]
           [(lit "schemaVersion", JStr (lit "2"))]
           (freshCache (ofZ 1699999000))).
  - repeat constructor.
  - reflexivity.
  - reflexivity.
Defined.

(** A file that is not JSON, and a record the schema refuses. *)
Example loadCache_starts_fresh :
  snd (loadCache (envWithCacheFile envPlaying NotJson) (lit "/repo")
         initialState)
  = Ok (freshCache (ofZ 1700000000))
  /\ snd (loadCache
            (envWithCacheFile envPlaying
               (Json (JObj [(lit "updatedAt", JStr (lit "yesterday"))])))
            (lit "/repo") initialState)
     = Ok (freshCache (ofZ 1700000000)).
Proof. split; reflexivity. Qed.

(** ** Reasoning about computations *)

Lemma wp_elim {A} (c : M A) (s : State)
  (P : list event * State * result A -> Prop) :
  wp c s (fun t s' r => P (t, s', r)) -> P (c s).
Proof. unfold wp. now destruct (c s) as [[t s'] r]. Qed.

Lemma wp_ret {A} (a : A) s Q : Q [] s (Ok a) -> wp (ret a) s Q.
Proof. auto. Qed.

Lemma wp_throw {A} (e : exn) s (Q : _ -> _ -> result A -> Prop) :
  Q [] s (Throw e) -> wp (throw e) s Q.
Proof. auto. Qed.

Lemma wp_emit (e : event) s Q : Q [e] s (Ok tt) -> wp (emit e) s Q.
Proof. auto. Qed.

Lemma wp_log (level : LogLevel) (message : string) s Q :
  Q [ConsoleLog level message] s (Ok tt) -> wp (log level message) s Q.
Proof. auto. Qed.

Lemma wp_bind {A B} (c : M A) (k : A -> M B) s Q :
  wp c s (fun t1 s1 r1 =>
            match r1 with
            | Ok a => wp (k a) s1 (fun t2 s2 r => Q (t1 ++ t2) s2 r)
            | Throw e => Q t1 s1 (Throw e)
            end) ->
  wp (bind c k) s Q.
Proof.
  unfold wp, bind. destruct (c s) as [[t1 s1] [a | e]]; simpl; auto.
  now destruct (k a s1) as [[t2 s2] r].
Qed.

Lemma wp_tryCatch {A} (c : M A) (h : exn -> M A) s Q :
  wp c s (fun t1 s1 r1 =>
            match r1 with
            | Ok a => Q t1 s1 (Ok a)
            | Throw e => wp (h e) s1 (fun t2 s2 r => Q (t1 ++ t2) s2 r)
            end) ->
  wp (tryCatch c h) s Q.
Proof.
  unfold wp, tryCatch. destruct (c s) as [[t1 s1] [a | e]]; simpl; auto.
  now destruct (h e s1) as [[t2 s2] r].
Qed.

Lemma wp_now (env : Env) s Q :
  Q [] (tick s) (Ok (ofZ (clock env (ticks s)))) ->
  wp (currentTimestampSeconds env) s Q.
Proof. auto. Qed.

Lemma wp_setExitCode (code : Z) s Q :
  Q [] {| ticks := ticks s; writes := writes s; exitCode := code |} (Ok tt) ->
  wp (setExitCode code) s Q.
Proof. auto. Qed.

Lemma wp_writeFile (env : Env) (p : jsstring) (c : Cache) s Q :
  (writeFileOutcome env (writes s) = None ->
   Q [WriteFile p c] (wrote s) (Ok tt)) ->
  (forall e, writeFileOutcome env (writes s) = Some e ->
             Q [WriteFile p c] (wrote s) (Throw e)) ->
  wp (writeFile env p c) s Q.
Proof.
  unfold wp, writeFile. simpl.
  destruct (writeFileOutcome env (writes s)); auto.
Qed.

(** ** What each step of [main] does *)

Lemma wp_loadConfiguration (env : Env) (dir : jsstring) s Q :
  (forall config path,
      configOutcome env = inr (config, path) -> Q [] s (Ok (config, path))) ->
  (forall e, configOutcome env = inl e -> Q [] s (Throw e)) ->
  wp (loadConfiguration env dir) s Q.
Proof.
  intros H1 H2. unfold wp, loadConfiguration.
  destruct (configOutcome env) as [e | [config path]]; simpl; auto.
Qed.

Lemma wp_trimLogFile (env : Env) (p : jsstring) (a b : number) s Q :
  (forall t, localOnly t -> Q t s (Ok tt)) ->
  wp (trimLogFile env p a b) s Q.
Proof.
  intros H. unfold wp, trimLogFile, tryCatch, bind, emit, log.
  destruct (logTrimOutcome env p); simpl; apply H; reflexivity.
Qed.

Lemma wp_loadCache (env : Env) (dir : jsstring) s Q :
  (forall c, usableCache env = Some c -> Q [] s (Ok c)) ->
  (forall t, usableCache env = None -> localOnly t ->
             Q t (tick s) (Ok (freshCache (ofZ (clock env (ticks s)))))) ->
  wp (loadCache env dir) s Q.
Proof.
  intros H1 H2. unfold usableCache in *.
  unfold wp, loadCache, tryCatch, parseCache.
  destruct (cacheFile env) as [| e | | j]; simpl;
    try (apply H2; reflexivity).
  destruct (cacheSchema j) as [c |]; simpl; auto.
  apply H2; reflexivity.
Qed.

Lemma wp_saveCache (env : Env) (dir : jsstring) (c : Cache) s Q :
  (writeFileOutcome env (writes s) = None ->
   Q [WriteFile (getCacheFilePath dir)
        (withUpdatedAt c (ofZ (clock env (ticks s))))]
     (wrote (tick s))
     (Ok (withUpdatedAt c (ofZ (clock env (ticks s)))))) ->
  (forall e, writeFileOutcome env (writes s) = Some e ->
     Q [WriteFile (getCacheFilePath dir)
          (withUpdatedAt c (ofZ (clock env (ticks s))))]
       (wrote (tick s)) (Throw e)) ->
  wp (saveCache env dir c) s Q.
Proof.
  intros H1 H2. unfold wp, saveCache, bind, currentTimestampSeconds, writeFile.
  simpl. destruct (writeFileOutcome env (writes s)) eqn:E; simpl; auto.
Qed.

Lemma wp_isSpotifyRunning (env : Env) s Q :
  (SpotifyRunning env ->
   Q [ExecFile "/usr/bin/pgrep" ["Spotify"]] s (Ok true)) ->
  (~ SpotifyRunning env ->
   Q [ExecFile "/usr/bin/pgrep" ["Spotify"]] s (Ok false)) ->
  wp (isSpotifyRunning env) s Q.
Proof.
  intros H1 H2. unfold SpotifyRunning in *.
  unfold wp, isSpotifyRunning, tryCatch, bind, executeFileAsync, emit.
  simpl. destruct (execFile env "/usr/bin/pgrep" ["Spotify"]) eqn:E; simpl.
  - apply H2. intros [out Ho]. discriminate.
  - apply H1. eauto.
Qed.

Lemma wp_getSpotifyState (env : Env) s Q :
  (forall p,
      (p = playing <-> StatePlaying env) ->
      (StateQueryFails env -> p = unknown) ->
      Q [ExecFile "/usr/bin/osascript" ["-e"; stateScript]] s (Ok p)) ->
  wp (getSpotifyState env) s Q.
Proof.
  intros H.
  unfold wp, getSpotifyState, tryCatch, bind, osascript, executeFileAsync,
    emit.
  simpl.
  destruct (execFile env "/usr/bin/osascript" ["-e"; stateScript]) as [e | out]
    eqn:E; simpl.
  - apply H; [|reflexivity]. split; [discriminate|].
    intros [o [Ho _]]. congruence.
  - assert (F : StateQueryFails env -> False)
      by (intros [e He]; congruence).
    destruct (streq (trim out) (lit "playing")) eqn:E1; simpl.
    + apply H; [|intros X; now destruct F].
      split; [|reflexivity]. intros _. exists out. split; auto.
      now apply streq_true.
    + assert (N : ~ StatePlaying env).
      { intros [o [Ho Hp]]. rewrite E in Ho. injection Ho as <-.
        apply streq_false in E1. contradiction. }
      destruct (streq (trim out) (lit "paused")); simpl;
        [|destruct (streq (trim out) (lit "stopped")); simpl];
        (apply H; [split; [discriminate | intros X; now destruct N]
                  | intros X; now destruct F]).
Qed.

Lemma wp_getSpotifyTrack (env : Env) s Q :
  (forall stdout,
      execFile env "/usr/bin/osascript" ["-e"; trackScript] = inr stdout ->
      Q [ExecFile "/usr/bin/osascript" ["-e"; trackScript]] s
        (Ok (trim stdout))) ->
  (forall e,
      execFile env "/usr/bin/osascript" ["-e"; trackScript] = inl e ->
      Q [ExecFile "/usr/bin/osascript" ["-e"; trackScript]] s (Throw e)) ->
  wp (getSpotifyTrack env) s Q.
Proof.
  intros H1 H2.
  unfold wp, getSpotifyTrack, bind, osascript, executeFileAsync, emit.
  simpl.
  destruct (execFile env "/usr/bin/osascript" ["-e"; trackScript]) eqn:E;
    simpl; auto.
Qed.

Lemma wp_callSlackApi {T} (outcome : fetchOutcome T) (token : jsstring)
  (method : string) (body : option StatusBody) s Q :
  (forall r, outcome = JsonBody r -> Q [Fetch token method body] s (Ok r)) ->
  (forall e, isFailure outcome -> Q [Fetch token method body] s (Throw e)) ->
  wp (callSlackApi outcome token method body) s Q.
Proof.
  intros H1 H2. unfold wp, callSlackApi, bind, emit. simpl.
  destruct outcome; simpl; auto; apply H2; exact I.
Qed.

Lemma wp_retryFrom (env : Env) (token : jsstring) :
  forall remaining attempt lastError s Q,
    (forall n r,
        n < remaining ->
        (forall j, attempt <= j < attempt + n -> readFails env j) ->
        profileGetOutcome env (attempt + n) = JsonBody r ->
        Q (failedAttempts token attempt n ++ [readEvent token]) s (Ok r)) ->
    (forall e,
        (forall j, attempt <= j < attempt + remaining -> readFails env j) ->
        Q (failedAttempts token attempt remaining) s (Throw e)) ->
    wp (retryFrom env token remaining attempt lastError) s Q.
Proof.
  induction remaining as [|remaining IH]; intros attempt lastError s Q Hok Hex.
  - simpl. apply wp_throw. apply Hex. intros j Hj. lia.
  - simpl. apply wp_bind, wp_tryCatch, wp_bind, wp_callSlackApi.
    + intros r Hr. apply wp_ret. apply wp_ret. simpl.
      apply (Hok 0 r); [lia | intros j Hj; lia | now rewrite Nat.add_0_r].
    + intros e Hf. apply wp_bind, wp_log, wp_bind, wp_emit, wp_ret.
      simpl. apply IH.
      * intros n r Hn Hfail Hr.
        replace (attempt + 1 + n) with (attempt + S n) in Hr by lia.
        apply (Hok (S n) r); [lia | | exact Hr].
        intros j Hj. destruct (Nat.eq_dec j attempt) as [-> | Hne].
        -- intros r' Hr'. rewrite Hr' in Hf. exact Hf.
        -- apply Hfail. lia.
      * intros e' Hfail. apply Hex.
        intros j Hj. destruct (Nat.eq_dec j attempt) as [-> | Hne].
        -- intros r' Hr'. rewrite Hr' in Hf. exact Hf.
        -- apply Hfail. lia.
Qed.

Lemma wp_getSlackProfileWithRetry (env : Env) (token : jsstring) s Q :
  (forall k r,
      ReadYieldsAt env k r ->
      Q (failedAttempts token 1 (k - 1) ++ [readEvent token]) s (Ok r)) ->
  (forall e,
      ReadExhausted env -> Q (failedAttempts token 1 maxAttempts) s (Throw e)) ->
  wp (getSlackProfileWithRetry env token) s Q.
Proof.
  intros Hok Hex. unfold getSlackProfileWithRetry. apply wp_retryFrom.
  - intros n r Hn Hfail Hr.
    replace n with (1 + n - 1) at 1 by lia. apply Hok.
    split; [lia|]. split; [exact Hr|].
    intros j Hj. apply Hfail. lia.
  - intros e Hfail. apply Hex. intros j Hj. apply Hfail. lia.
Qed.

(** ** Traces *)

Lemma setCalls_app (a b : list event) :
  setCalls (a ++ b) = setCalls a ++ setCalls b.
Proof. apply filter_app. Qed.

Lemma readCalls_app (a b : list event) :
  readCalls (a ++ b) = readCalls a ++ readCalls b.
Proof. apply filter_app. Qed.

Lemma readSteps_app (a b : list event) :
  readSteps (a ++ b) = readSteps a ++ readSteps b.
Proof. apply filter_app. Qed.

Lemma cacheWrites_app (a b : list event) :
  cacheWrites (a ++ b) = cacheWrites a ++ cacheWrites b.
Proof. apply flat_map_app. Qed.

Lemma localOnly_filter (f : event -> bool) (t : list event) :
  (forall e, isLocal e = true -> f e = false) ->
  localOnly t -> filter f t = [].
Proof.
  intros Hf. unfold localOnly. induction t as [|e t IH]; simpl; auto.
  rewrite andb_true_iff. intros [He Ht]. now rewrite (Hf e He), IH.
Qed.

Lemma localOnly_setCalls (t : list event) : localOnly t -> setCalls t = [].
Proof. apply localOnly_filter. now intros []. Qed.

Lemma localOnly_readCalls (t : list event) : localOnly t -> readCalls t = [].
Proof. apply localOnly_filter. now intros []. Qed.

Lemma localOnly_readSteps (t : list event) : localOnly t -> readSteps t = [].
Proof. apply localOnly_filter. now intros []. Qed.

Lemma localOnly_cacheWrites (t : list event) :
  localOnly t -> cacheWrites t = [].
Proof.
  unfold localOnly. induction t as [|e t IH]; simpl; auto.
  rewrite andb_true_iff. intros [He Ht]. rewrite IH by auto.
  now destruct e.
Qed.

Lemma failedAttempts_setCalls (token : jsstring) (n attempt : nat) :
  setCalls (failedAttempts token attempt n) = [].
Proof. revert attempt. induction n as [|n IH]; intros a; simpl; auto. Qed.

Lemma failedAttempts_cacheWrites (token : jsstring) (n attempt : nat) :
  cacheWrites (failedAttempts token attempt n) = [].
Proof. revert attempt. induction n as [|n IH]; intros a; simpl; auto. Qed.

(** ** What the environment answers, uniquely *)

Lemma ConfigLoaded_unique (env : Env) (c1 c2 : Config.t) :
  ConfigLoaded env c1 -> ConfigLoaded env c2 -> c1 = c2.
Proof. intros [p1 H1] [p2 H2]. congruence. Qed.

Lemma ReadYieldsAt_unique (env : Env) (k1 k2 : nat)
  (r1 r2 : SlackProfileGetResponse) :
  ReadYieldsAt env k1 r1 -> ReadYieldsAt env k2 r2 -> k1 = k2 /\ r1 = r2.
Proof.
  intros (B1 & E1 & F1) (B2 & E2 & F2).
  assert (k1 = k2).
  { destruct (Nat.lt_trichotomy k1 k2) as [L | [E | L]]; auto.
    - exfalso. apply (F2 k1 ltac:(lia) r1 E1).
    - exfalso. apply (F1 k2 ltac:(lia) r2 E2). }
  subst. split; congruence.
Qed.

Lemma ReadYields_unique (env : Env) (r1 r2 : SlackProfileGetResponse) :
  ReadYields env r1 -> ReadYields env r2 -> r1 = r2.
Proof.
  intros [k1 H1] [k2 H2]. now destruct (ReadYieldsAt_unique _ _ _ _ _ H1 H2).
Qed.

Lemma ReadYields_first (env : Env) (r : SlackProfileGetResponse) :
  profileGetOutcome env 1 = JsonBody r -> ReadYields env r.
Proof.
  intros H. exists 1. split; [unfold maxAttempts; lia|].
  split; [exact H|]. intros j Hj. lia.
Qed.

Lemma ReadExhausted_yields (env : Env) (r : SlackProfileGetResponse) :
  ReadExhausted env -> ReadYields env r -> False.
Proof. intros H (k & B & E & _). exact (H k B r E). Qed.

Lemma isPlaying_true (p : PlayerState) : isPlaying p = true <-> p = playing.
Proof. destruct p; simpl; split; congruence. Qed.

(** ** Walking through [main] *)

Ltac wp_step :=
  lazymatch goal with
  | |- wp (bind _ _) _ _ => apply wp_bind
  | |- wp (tryCatch _ _) _ _ => apply wp_tryCatch
  | |- wp (ret _) _ _ => apply wp_ret
  | |- wp (throw _) _ _ => apply wp_throw
  | |- wp (log _ _) _ _ => apply wp_log
  | |- wp (emit _) _ _ => apply wp_emit
  | |- wp (setExitCode _) _ _ => apply wp_setExitCode
  | |- wp (currentTimestampSeconds _) _ _ => apply wp_now
  | |- wp (loadConfiguration _ _) _ _ =>
      apply wp_loadConfiguration;
      [intros ?config ?path ?Hconfig | intros ?e ?Hconfig]
  | |- wp (trimLogFile _ _ _ _) _ _ =>
      apply wp_trimLogFile; intros ?t ?Hlocal
  | |- wp (loadCache _ _) _ _ =>
      apply wp_loadCache;
      [intros ?cache ?Hcache | intros ?t ?Hcache ?Hlocal]
  | |- wp (isSpotifyRunning _) _ _ =>
      apply wp_isSpotifyRunning; intros ?Hrunning
  | |- wp (getSpotifyState _) _ _ =>
      apply wp_getSpotifyState; intros ?p ?Hplaying ?Hunknown
  | |- wp (getSlackProfileWithRetry _ _) _ _ =>
      apply wp_getSlackProfileWithRetry;
      [intros ?k ?r ?Hread | intros ?e ?Hexhausted]
  | |- wp (saveCache _ _ _) _ _ =>
      apply wp_saveCache; [intros ?Hwrite | intros ?e ?Hwrite]
  | |- wp (getSpotifyTrack _) _ _ =>
      apply wp_getSpotifyTrack;
      [intros ?stdout ?Htrack | intros ?e ?Htrack]
  | |- wp (callSlackApi _ _ _ _) _ _ =>
      apply wp_callSlackApi; [intros ?response ?Hset | intros ?e ?Hset]
  | |- wp (if ?b then _ else _) _ _ => destruct b eqn:?
  end;
  cbn [fst snd negb].

(** Compute the counters recorded in the hypotheses of a leaf. *)
Ltac norm_state :=
  cbn [ticks writes exitCode tick wrote initialState] in *.

(** Reduce a property of [run env] to the leaves of [main]: one goal for
    each way the run can end, with what the environment answered on the
    way as hypotheses and the trace, state and result of that run in the
    goal.  The property stays folded as [P]. *)
Ltac walk_raw env :=
  unfold run;
  pattern (program env initialState);
  let P := fresh "P" in
  match goal with |- ?p _ => set (P := p) end;
  apply (wp_elim (program env) initialState P);
  unfold program, main; cbv zeta;
  repeat wp_step;
  norm_state.

Ltac open_leaf :=
  match goal with |- ?P _ => is_var P; subst P end; cbv beta.

Ltac walk env := walk_raw env; open_leaf.

(** Name the snapshot of [r] the way the properties do. *)
Ltac fold_snapshot r :=
  change (normalizeText (optChain (profile r) status_text))
    with (statusTextOf r) in *;
  change (normalizeEmoji (optChain (profile r) status_emoji))
    with (statusEmojiOf r) in *;
  change (optChain (profile r) status_expiration ?? ofZ 0)
    with (statusExpirationOf r) in *;
  repeat match goal with
    | H : context [isStatusOwnedByScript (statusTextOf r) (statusEmojiOf r)
                     (Runtime.emojiConfig ?rc)] |- _ =>
        change (isStatusOwnedByScript (statusTextOf r) (statusEmojiOf r)
                  (Runtime.emojiConfig rc))
          with (ownedOf rc r) in *
    | |- context [isStatusOwnedByScript (statusTextOf r) (statusEmojiOf r)
                    (Runtime.emojiConfig ?rc)] =>
        change (isStatusOwnedByScript (statusTextOf r) (statusEmojiOf r)
                  (Runtime.emojiConfig rc))
          with (ownedOf rc r) in *
    end;
  change (isSafeToOverrideWhenPlayingTrack (statusTextOf r) (statusEmojiOf r))
    with (safeOf r) in *;
  repeat match goal with
    | H : context [negb (ownedOf ?rc r) && negb (streq (statusTextOf r) [])
                   && negb (streq (statusEmojiOf r) [])] |- _ =>
        change (negb (ownedOf rc r) && negb (streq (statusTextOf r) [])
                && negb (streq (statusEmojiOf r) []))
          with (protectedOf rc r) in *
    end.

(** Turn the recorded tests into plain equations. *)
Ltac bools :=
  repeat match goal with
    | H : negb _ = true |- _ => apply negb_true_iff in H
    | H : negb _ = false |- _ => apply negb_false_iff in H
    | H : _ && _ = true |- _ => apply andb_true_iff in H; destruct H
    | H : _ || _ = false |- _ => apply orb_false_iff in H; destruct H
    end.

Lemma setCalls_app_eq (a b x y : list event) :
  setCalls a = x -> setCalls b = y -> setCalls (a ++ b) = x ++ y.
Proof. intros <- <-. apply setCalls_app. Qed.

Lemma readCalls_app_eq (a b x y : list event) :
  readCalls a = x -> readCalls b = y -> readCalls (a ++ b) = x ++ y.
Proof. intros <- <-. apply readCalls_app. Qed.

Lemma readSteps_app_eq (a b x y : list event) :
  readSteps a = x -> readSteps b = y -> readSteps (a ++ b) = x ++ y.
Proof. intros <- <-. apply readSteps_app. Qed.

Lemma cacheWrites_app_eq (a b : list event) (x y : list Cache) :
  cacheWrites a = x -> cacheWrites b = y -> cacheWrites (a ++ b) = x ++ y.
Proof. intros <- <-. apply cacheWrites_app. Qed.

(** Solve [projection trace = ?x], segment by segment. *)
Ltac project :=
  first
    [ eapply setCalls_app_eq; [project | project]
    | eapply readCalls_app_eq; [project | project]
    | eapply readSteps_app_eq; [project | project]
    | eapply cacheWrites_app_eq; [project | project]
    | apply failedAttempts_setCalls
    | apply failedAttempts_cacheWrites
    | apply localOnly_setCalls; assumption
    | apply localOnly_readCalls; assumption
    | apply localOnly_readSteps; assumption
    | apply localOnly_cacheWrites; assumption
    | reflexivity ].

(** Compute the projections of the trace at a leaf. *)
Ltac trace_simpl :=
  unfold traceOf, stateOf; cbn [fst snd];
  repeat match goal with
    | |- context [setCalls (?a ++ ?b)] =>
        let E := fresh in
        eassert (E : setCalls (a ++ b) = _) by project; rewrite E; clear E
    | |- context [readCalls (?a ++ ?b)] =>
        let E := fresh in
        eassert (E : readCalls (a ++ b) = _) by project; rewrite E; clear E
    | |- context [readSteps (?a ++ ?b)] =>
        let E := fresh in
        eassert (E : readSteps (a ++ b) = _) by project; rewrite E; clear E
    | |- context [cacheWrites (?a ++ ?b)] =>
        let E := fresh in
        eassert (E : cacheWrites (a ++ b) = _) by project; rewrite E; clear E
    end;
  cbn [setCalls readCalls readSteps cacheWrites filter flat_map isSetCall
         isReadCall isBackoff orb andb app String.eqb Ascii.eqb Bool.eqb
         readEvent List.length ticks writes exitCode tick wrote
         initialState].

(** Compute the right-hand side of a projection equation. *)
Ltac proj_norm H :=
  match type of H with
  | ?lhs = ?rhs =>
      let rhs' :=
        eval cbn [setCalls readCalls readSteps cacheWrites filter flat_map
                    isSetCall isReadCall isBackoff orb andb app String.eqb
                    Ascii.eqb Bool.eqb readEvent] in rhs in
      change (lhs = rhs') in H
  end.

(** At a folded leaf, record what the trace shows (its projections, and
    whatever [extra] adds), then forget the trace and unfold the
    property. *)
Ltac summarise extra :=
  match goal with
  | |- ?P (?T, _, _) =>
      let Es := fresh "Esets" in
      let Er := fresh "Ereads" in
      let Ep := fresh "Esteps" in
      let Ew := fresh "Ewrites" in
      eassert (Es : setCalls T = _) by project; proj_norm Es;
      eassert (Er : readCalls T = _) by project; proj_norm Er;
      eassert (Ep : readSteps T = _) by project; proj_norm Ep;
      eassert (Ew : cacheWrites T = _) by project; proj_norm Ew;
      extra T;
      let tr := fresh "tr" in
      set (tr := T) in *; clearbody tr
  end;
  open_leaf;
  unfold traceOf, stateOf; cbn [fst snd];
  cbn [ticks writes exitCode tick wrote initialState].


(** ** Settling the leaves *)

Lemma ends_here (s : list event) : EndsWith s s.
Proof. now exists []. Qed.

Lemma ends_app (s x t : list event) : EndsWith s t -> EndsWith s (x ++ t).
Proof. intros [pre ->]. exists (x ++ pre). now rewrite app_assoc. Qed.

Lemma ends_cons (s : list event) (e : event) (t : list event) :
  EndsWith s t -> EndsWith s (e :: t).
Proof. apply (ends_app s [e] t). Qed.

Lemma ends_assoc (s a b c : list event) :
  EndsWith s (a ++ b ++ c) -> EndsWith s ((a ++ b) ++ c).
Proof. now rewrite app_assoc. Qed.

Ltac find_end :=
  solve
    [ unfold traceOf; cbn [fst failedAttempts maxAttempts];
      repeat first
        [ apply ends_here | apply ends_assoc | apply ends_cons
        | apply ends_app ] ].

(** At a leaf, identify the configuration and the response of the run with
    the ones the statement names, or find the leaf impossible. *)
Ltac same_run env :=
  repeat match goal with
    | H : ConfigLoaded env _ |- _ => destruct H as [? H]
    end;
  try congruence;
  try contradiction;
  try (exfalso; eapply ReadExhausted_yields; eassumption);
  repeat match goal with
    | Hc : configOutcome env = inr (?c1, _),
      Hc' : configOutcome env = inr (?c2, _) |- _ =>
        assert (c2 = c1) by congruence; subst c2; clear Hc'
    end;
  repeat match goal with
    | Hr : ReadYieldsAt env _ ?r1, Hr' : ReadYields env ?r2 |- _ =>
        assert (r2 = r1)
          by (eapply ReadYields_unique; [eassumption | eexists; eassumption]);
        subst r2; clear Hr'
    end;
  try congruence.

(** Settle which attempt was answered, or find the leaf impossible. *)
Ltac same_read env :=
  repeat match goal with
    | H : ReadYields env _ |- _ => destruct H as [? H]
    end;
  try (exfalso;
       match goal with
       | Hex : ReadExhausted env, Hr : ReadYieldsAt env _ _ |- _ =>
           eapply ReadExhausted_yields; [exact Hex | eexists; exact Hr]
       end);
  repeat match goal with
    | Hr : ReadYieldsAt env ?k1 ?r1, Hr' : ReadYieldsAt env ?k2 ?r2 |- _ =>
        destruct (ReadYieldsAt_unique env k1 k2 r1 r2 Hr Hr');
        clear Hr'; subst
    end.

(** At a leaf where no set call was issued: a gate was shut or a step
    failed. *)
Ltac refute_open env :=
  unfold ConfigLoaded, FirstWriteSucceeds, StepsSucceed, TrackYields;
  intros [(config' & r' & [path' Hc'] & Hrun' & Hrd' & Hok' & Hpl' & Hg')
            [Hw' (track' & stdout' & Ht' & _)]];
  try congruence;
  try contradiction;
  try (exfalso; eapply ReadExhausted_yields; eassumption);
  match goal with
  | Hc : configOutcome env = inr (?config, _) |- _ =>
      assert (config' = config) by congruence; subst config'
  end;
  match goal with
  | Hr : ReadYieldsAt env ?k ?r |- _ =>
      assert (r' = r)
        by (eapply ReadYields_unique; [eassumption | eexists; eassumption]);
      subst r'
  end;
  first
    [ congruence
    | match goal with
      | Hp : ?p = playing <-> _, Hi : isPlaying ?p = false |- _ =>
          apply Hp in Hpl'; subst p; discriminate
      end
    | destruct Hg' as [? | [? | ?]]; congruence ].


(** Find what makes a leaf impossible under the hypotheses of a
    statement. *)
Ltac absurd_leaf env :=
  exfalso;
  unfold StepsSucceed, FirstWriteSucceeds, TrackYields, GatesOpen in *;
  repeat match goal with
    | H : _ /\ _ |- _ => destruct H
    | H : exists _, _ |- _ => destruct H
    end;
  same_run env; same_read env;
  bools;
  first
    [ congruence
    | contradiction
    | match goal with
      | Hu : ?Q -> ?p = unknown, Hq : ?Q, Hi : isPlaying ?p = true |- _ =>
          rewrite (Hu Hq) in Hi; discriminate
      end
    | match goal with
      | Hp : ?p = playing <-> ?S, Hs : ?S, Hi : isPlaying ?p = false |- _ =>
          apply Hp in Hs; subst p; discriminate
      end
    | match goal with
      | Hp : ?p = playing <-> ?S, Hs : ~ ?S, Hi : isPlaying ?p = true |- _ =>
          apply Hs, Hp; now apply isPlaying_true
      end
    | match goal with
      | Hg : _ = true \/ _ = true \/ _ = true |- _ =>
          destruct Hg as [? | [? | ?]]; congruence
      end
    | match goal with
      | Hf : isFailure ?o, He : ?o = JsonBody _ |- _ =>
          rewrite He in Hf; exact Hf
      end
    | match goal with
      | Hg : negb (?a || ?b) && negb ?c = false,
        Ha : ?a = false, Hb : ?b = false, Hc : ?c = false |- _ =>
          rewrite Ha, Hb, Hc in Hg; discriminate
      end ].

(** Find an event in a leaf trace. *)
Ltac find_in :=
  unfold traceOf; cbn [fst];
  rewrite <- ?app_assoc; cbn [app];
  repeat first [ left; reflexivity | right | apply in_or_app; right ].

(** ** The set call (C1) *)

(** At a leaf where the set call was issued: the gates were open and the
    steps before the call succeeded. *)
Ltac prove_open config r stdout :=
  split;
  [ exists config, r;
    repeat match goal with |- _ /\ _ => split end;
    [ eexists; eassumption
    | assumption
    | eexists; eassumption
    | assumption
    | match goal with
      | Hp : ?p = playing <-> _, Hi : isPlaying ?p = true |- _ =>
          apply Hp; now apply isPlaying_true
      end
    | match goal with
      | Hg : negb (?a || ?b) && negb ?c = false |- _ =>
          destruct a; [now left|];
          destruct b; [now right; left|];
          destruct c; [now right; right | discriminate Hg]
      end ]
  | split; [assumption | exists (trim stdout), stdout; auto] ].

(** C1, as the code has it: a run issues exactly one status-set call if
    and only if the configuration loads, Spotify is running, the profile
    read is answered with [ok: true], the player state is exactly
    [playing], the snapshot is safe to override or owned by the script or
    [alwaysOverride] is on, and the two steps between the gates and the
    call succeed: the cache write and the track query.  In every other run
    no set call is issued. *)
Theorem C1_set_call_iff_gates_and_steps :
  forall env : Env,
    (List.length (setCalls (traceOf (run env))) = 1 <->
     GatesOpen env /\ StepsSucceed env)
    /\ (~ (GatesOpen env /\ StepsSucceed env) ->
        setCalls (traceOf (run env)) = []).
Proof.
  intros env. walk env.
  all: try fold_snapshot r; trace_simpl.
  all:
    match goal with
    | |- (0 = 1 <-> ?C) /\ _ =>
        assert (N : ~ C) by (bools; refute_open env);
        split; [split; [discriminate | intros X; now destruct N]
               | reflexivity]
    | |- (1 = 1 <-> ?C) /\ _ =>
        assert (Y : C) by (bools; prove_open config r stdout);
        split; [split; auto | intros X; now destruct X]
    end.
Qed.

Lemma envPlaying_gates : GatesOpen envPlaying /\ StepsSucceed envPlaying.
Proof.
  split.
  - exists sampleConfig, (statusOf [] []).
    repeat match goal with |- _ /\ _ => split end.
    + now eexists.
    + now eexists.
    + now apply ReadYields_first.
    + reflexivity.
    + exists (lit "playing"). split; reflexivity.
    + left. reflexivity.
  - split; [reflexivity|].
    exists (lit "Artist - Song"), (lit "Artist - Song"). split; reflexivity.
Qed.

Lemma C1_witness :
  List.length (setCalls (traceOf (run envPlaying))) = 1.
Proof.
  apply (proj1 (C1_set_call_iff_gates_and_steps envPlaying)).
  exact envPlaying_gates.
Defined.

Lemma envTrackFails_gates : GatesOpen envTrackFails.
Proof.
  exists sampleConfig, (statusOf [] []).
  repeat match goal with |- _ /\ _ => split end.
  - now eexists.
  - now eexists.
  - now apply ReadYields_first.
  - reflexivity.
  - exists (lit "playing"). split; reflexivity.
  - left. reflexivity.
Qed.

(** With every gate open, a failing track query leaves the run without a
    set call. *)
Lemma C1_counterexample : ~ SetCallIffGates envTrackFails.
Proof.
  intros [H _]. pose proof (proj2 H envTrackFails_gates) as E.
  vm_compute in E. discriminate.
Qed.

(** Scenario A of the specification: Spotify is not running; nothing is
    asked of Slack and the cache is not written. *)
Example scenario_A :
  traceOf (run envSpotifyClosed)
  = [TrimLog (lit "/repo/spotify-status.log") (ofZ 5000) (ofZ 3000);
     TrimLog (lit "/repo/spotify-status.error.log") (ofZ 5000) (ofZ 3000);
     ConsoleLog INFO "spotify-status-on-slack";
     ExecFile "/usr/bin/pgrep" ["Spotify"];
     ConsoleLog DEBUG "Spotify running check";
     ConsoleLog INFO "Spotify is not running; exiting (no status change)."]
  /\ exitCode (stateOf (run envSpotifyClosed)) = 0%Z.
Proof. split; reflexivity. Qed.

(** Scenario B of the specification: paused with an empty status; the cache
    is saved with no foreign status, and the run stops at the playing
    gate. *)
Example scenario_B :
  setCalls (traceOf (run envPaused)) = []
  /\ List.map lastNonEmptyNonOwned (cacheWrites (traceOf (run envPaused)))
     = [None]
  /\ EndsWith
       [ConsoleLog INFO
          "Spotify not playing; exiting (status will expire if previously set)."]
       (traceOf (run envPaused)).
Proof.
  repeat split.
  unfold traceOf; cbn [fst failedAttempts maxAttempts];
    repeat first [ apply ends_here | apply ends_cons ].
Qed.

(** ** The cache update (C4) *)








(** Scenario C of the specification: a lunch status is left alone and
    remembered. *)
Example scenario_C :
  setCalls (traceOf (run envLunch)) = []
  /\ List.map lastNonEmptyNonOwned (cacheWrites (traceOf (run envLunch)))
     = [Some {| os_text := lit "Lunch";
                os_emoji := lit ":pizza:";
                os_expiration := ofZ 0;
                observedAt := ofZ 1700000001 |}].
Proof. split; reflexivity. Qed.

(** ** The profile read (C5) *)

Lemma failedAttempts_readCalls (token : jsstring) (n attempt : nat) :
  List.length (readCalls (failedAttempts token attempt n)) = n.
Proof.
  revert attempt. induction n as [|n IH]; intros a; simpl; auto.
Qed.

(** What C5 needs of a leaf's trace beyond its projections: how it
    ends. *)
Ltac read_end T :=
  try match goal with
    | Hc : configOutcome _ = inr (?config, _) |- _ =>
        assert (EndsWith
                  [readEvent (Config.slackToken config);
                   ConsoleLog WARN
                     "Slack users.profile.get returned ok=false; skipping to avoid overrides"]
                  T) by find_end
    end;
  try assert (EndsWith [SetTimeout 750; ConsoleLog ERROR "Fatal error"] T)
    by find_end.

(** C5: a run reads the profile at most three times; the reads stop at the
    first body that parses, each failed read being followed by a wait of
    250 ms times its number; an answer with [ok: false] ends the run right
    after the read that brought it, with a warning and neither a set call
    nor a cache write; three failed reads end the run after the third wait
    with the error logged and no set call. *)
Theorem C5_profile_read_retried_thrice :
  forall env : Env,
    List.length (readCalls (traceOf (run env))) <= maxAttempts
    /\ forall config : Config.t,
        ConfigLoaded env config ->
        SpotifyRunning env ->
        let read := readEvent (Config.slackToken config) in
        (forall r, ReadYieldsAt env 1 r ->
                   readSteps (traceOf (run env)) = [read])
        /\ (forall r, ReadYieldsAt env 2 r ->
                      readSteps (traceOf (run env))
                      = [read; SetTimeout 250; read])
        /\ (forall r, ReadYieldsAt env 3 r ->
                      readSteps (traceOf (run env))
                      = [read; SetTimeout 250; read; SetTimeout 500; read])
        /\ (forall r,
              ReadYields env r -> ok r = false ->
              setCalls (traceOf (run env)) = []
              /\ cacheWrites (traceOf (run env)) = []
              /\ exitCode (stateOf (run env)) = 0%Z
              /\ EndsWith
                   [read;
                    ConsoleLog WARN
                      "Slack users.profile.get returned ok=false; skipping to avoid overrides"]
                   (traceOf (run env)))
        /\ (ReadExhausted env ->
            readSteps (traceOf (run env))
            = [read; SetTimeout 250; read; SetTimeout 500; read;
               SetTimeout 750]
            /\ setCalls (traceOf (run env)) = []
            /\ cacheWrites (traceOf (run env)) = []
            /\ EndsWith [SetTimeout 750; ConsoleLog ERROR "Fatal error"]
                 (traceOf (run env))).
Proof.
  intros env. walk_raw env.
  all: summarise read_end.
  all: split;
    [ rewrite Ereads, ?length_app, ?failedAttempts_readCalls;
      try (destruct Hread as [Hk _]); unfold maxAttempts in *; simpl; lia
    | intros config0 Hc0 Hrun0; same_run env ].
  all: repeat match goal with |- _ /\ _ => split end; intros.
  all: same_read env; bools; try congruence.
  all: repeat match goal with |- _ /\ _ => split end.
  all: first
    [ assumption
    | reflexivity
    | rewrite Esteps; reflexivity ].
Qed.

Lemma C5_witness :
  readSteps (traceOf (run envReadsFail))
  = [readEvent (lit "xoxp-sample"); SetTimeout 250;
     readEvent (lit "xoxp-sample"); SetTimeout 500;
     readEvent (lit "xoxp-sample"); SetTimeout 750]
  /\ setCalls (traceOf (run envReadsFail)) = []
  /\ cacheWrites (traceOf (run envReadsFail)) = []
  /\ EndsWith [SetTimeout 750; ConsoleLog ERROR "Fatal error"]
       (traceOf (run envReadsFail)).
Proof.
  destruct (C5_profile_read_retried_thrice envReadsFail) as [_ H].
  destruct (H sampleConfig) as (_ & _ & _ & _ & E).
  - now eexists.
  - now eexists.
  - apply E. intros j Hj r Hr. discriminate Hr.
Defined.

(** An [ok: false] answer on the second attempt: one wait, no third read,
    no set call. *)
Example read_refused_on_second_attempt :
  readSteps (traceOf (run envReadRefused))
  = [readEvent (lit "xoxp-sample"); SetTimeout 250;
     readEvent (lit "xoxp-sample")]
  /\ setCalls (traceOf (run envReadRefused)) = []
  /\ exitCode (stateOf (run envReadRefused)) = 0%Z.
Proof. repeat split. Qed.

(** ** The set step (C6) *)



(** Scenario D of the specification, with an empty status: the set call
    carries the track, the configured emoji and the clock plus 120 s; the
    second cache write records exactly that. *)
Example scenario_D :
  setCalls (traceOf (run envPlaying))
  = [Fetch (lit "xoxp-sample") "users.profile.set"
       (Some {| body_text := lit "Artist - Song";
                body_emoji := lit ":headphones:";
                body_expiration := ofZ 1700000122 |})]
  /\ List.map lastSetByScript (cacheWrites (traceOf (run envPlaying)))
     = [None;
        Some {| ss_text := lit "Artist - Song";
                ss_emoji := lit ":headphones:";
                ss_expiration := ofZ 1700000122;
                setAt := ofZ 1700000003 |}].
Proof. split; reflexivity. Qed.

(** ** Failures (C7) *)

(** What C7 needs of a leaf's trace beyond its projections: whether it
    ends in the catch-all handler. *)
Ltac fatal_end T :=
  try assert (EndsWith [ConsoleLog ERROR "Fatal error"] T) by find_end;
  try assert (T = [ConsoleLog ERROR "Fatal error"]) by reflexivity.

Lemma isSpotifyRunning_recovers (env : Env) (s : State) (e : exn) :
  execFile env "/usr/bin/pgrep" ["Spotify"] = inl e ->
  isSpotifyRunning env s
  = ([ExecFile "/usr/bin/pgrep" ["Spotify"]], s, Ok false).
Proof.
  intros H. unfold isSpotifyRunning, tryCatch, bind, executeFileAsync, emit.
  now rewrite H.
Qed.

Lemma getSpotifyState_recovers (env : Env) (s : State) :
  StateQueryFails env ->
  getSpotifyState env s
  = ([ExecFile "/usr/bin/osascript" ["-e"; stateScript]], s, Ok unknown).
Proof.
  intros [e H].
  unfold getSpotifyState, tryCatch, bind, osascript, executeFileAsync, emit.
  now rewrite H.
Qed.

Lemma getSpotifyTrack_throws (env : Env) (s : State) (e : exn) :
  execFile env "/usr/bin/osascript" ["-e"; trackScript] = inl e ->
  getSpotifyTrack env s
  = ([ExecFile "/usr/bin/osascript" ["-e"; trackScript]], s, Throw e).
Proof.
  intros H. unfold getSpotifyTrack, bind, osascript, executeFileAsync, emit.
  now rewrite H.
Qed.

(** C7, as the code has it: a failed running check returns [false] and a
    failed state query [unknown], and the run then ends without a set call
    (without any Slack call or cache write when Spotify is not running); a
    failed track query is rethrown.  An answer with [ok: false], to the
    read or to the set call, ends the run with exit code 0.  Every failure
    [main] does not catch ends in the catch-all handler, which logs
    [Fatal error] and sets exit code 1: a configuration that does not
    load, three failed reads, a failed cache write, a failed track query, a
    set exchange that breaks; no set call is issued when the failure comes
    before the set call. *)
Theorem C7_failures_recovered_or_fatal :
  forall env : Env,
    (forall s e,
        execFile env "/usr/bin/pgrep" ["Spotify"] = inl e ->
        isSpotifyRunning env s
        = ([ExecFile "/usr/bin/pgrep" ["Spotify"]], s, Ok false))
    /\ (forall s,
          StateQueryFails env ->
          getSpotifyState env s
          = ([ExecFile "/usr/bin/osascript" ["-e"; stateScript]], s,
             Ok unknown))
    /\ (forall s e,
          execFile env "/usr/bin/osascript" ["-e"; trackScript] = inl e ->
          getSpotifyTrack env s
          = ([ExecFile "/usr/bin/osascript" ["-e"; trackScript]], s,
             Throw e))
    /\ (ConfigFails env ->
        Fatal env /\ traceOf (run env) = [ConsoleLog ERROR "Fatal error"])
    /\ (forall config : Config.t,
          ConfigLoaded env config ->
          (~ SpotifyRunning env ->
           EndsQuietly env
           /\ readCalls (traceOf (run env)) = []
           /\ cacheWrites (traceOf (run env)) = [])
          /\ (SpotifyRunning env -> StateQueryFails env ->
              setCalls (traceOf (run env)) = [])
          /\ (SpotifyRunning env -> ReadExhausted env ->
              Fatal env /\ setCalls (traceOf (run env)) = [])
          /\ (forall r,
                SpotifyRunning env -> ReadYields env r ->
                (ok r = false -> EndsQuietly env)
                /\ (ok r = true -> ~ FirstWriteSucceeds env ->
                    Fatal env /\ setCalls (traceOf (run env)) = [])
                /\ (ok r = true -> FirstWriteSucceeds env ->
                    ~ StatePlaying env -> EndsQuietly env)
                /\ (ok r = true -> FirstWriteSucceeds env ->
                    safeOf r = false ->
                    ownedOf (runtimeConfigOf (cwd env) config) r = false ->
                    Runtime.alwaysOverride (runtimeConfigOf (cwd env) config)
                    = false ->
                    EndsQuietly env)))
    /\ (GatesOpen env -> FirstWriteSucceeds env -> TrackFails env ->
        Fatal env /\ setCalls (traceOf (run env)) = [])
    /\ (GatesOpen env -> StepsSucceed env ->
        (isFailure (profileSetOutcome env) -> Fatal env)
        /\ (forall response,
              profileSetOutcome env = JsonBody response ->
              (set_ok response = false ->
               exitCode (stateOf (run env)) = 0%Z)
              /\ (set_ok response = true ->
                  writeFileOutcome env 1 = None ->
                  exitCode (stateOf (run env)) = 0%Z)
              /\ (set_ok response = true ->
                  writeFileOutcome env 1 <> None -> Fatal env))).
Proof.
  intros env.
  split; [intros s e; apply isSpotifyRunning_recovers|].
  split; [intros s; apply getSpotifyState_recovers|].
  split; [intros s e; apply getSpotifyTrack_throws|].
  unfold Fatal, EndsQuietly, ConfigFails, TrackFails. walk_raw env.
  all: try fold_snapshot r.
  all: summarise fatal_end.
  all: repeat (repeat match goal with |- _ /\ _ => split end; intros).
  all: first [ assumption | reflexivity | absurd_leaf env ].
Qed.

Lemma C7_witness :
  Fatal envReadsFail /\ setCalls (traceOf (run envReadsFail)) = [].
Proof.
  destruct (C7_failures_recovered_or_fatal envReadsFail)
    as (_ & _ & _ & _ & H & _).
  destruct (H sampleConfig) as (_ & _ & E & _).
  - now eexists.
  - apply E.
    + now eexists.
    + intros j Hj r Hr. discriminate Hr.
Defined.

(** Three failed reads end the run with exit code 1, though the
    configuration loaded. *)
Lemma C7_counterexample : ~ OnlyConfigFailureIsFatal envReadsFail.
Proof.
  intros H. destruct H as [e He].
  - vm_compute. discriminate.
  - discriminate He.
Qed.

(** A failed state query: the run reads Slack, saves the cache and stops
    at the playing gate. *)
Example state_query_fails :
  setCalls (traceOf (run envStateFails)) = []
  /\ exitCode (stateOf (run envStateFails)) = 0%Z
  /\ EndsWith
       [ConsoleLog INFO
          "Spotify not playing; exiting (status will expire if previously set)."]
       (traceOf (run envStateFails)).
Proof.
  repeat split.
  unfold traceOf; cbn [fst failedAttempts maxAttempts];
    repeat first [ apply ends_here | apply ends_cons ].
Qed.

(** A set exchange that breaks: the call was issued, the run is fatal. *)
Example set_exchange_breaks :
  List.length (setCalls (traceOf (run envSetBreaks))) = 1
  /\ exitCode (stateOf (run envSetBreaks)) = 1%Z.
Proof. split; reflexivity. Qed.

(** ** The unused guard (C8) *)


















(** ** Absent fields (C10) *)

Lemma absent_snapshot (r : SlackProfileGetResponse) :
  AbsentFields r ->
  statusTextOf r = [] /\ statusEmojiOf r = []
  /\ statusExpirationOf r = ofZ 0.
Proof.
  intros (Ht & He & Hx).
  unfold statusTextOf, statusEmojiOf, statusExpirationOf.
  rewrite Ht, He, Hx. repeat split.
Qed.

(** C10, as the code has it: an [ok: true] answer without the status
    fields is read as text [""], emoji [""], expiration [0]; that snapshot
    is empty and safe to override and is not recorded as a foreign status;
    with the player playing and the cache written, the run passes the
    override gate and asks for the track; when the track query answers
    too, it issues the set call. *)
Theorem C10_absent_fields_read_as_empty :
  forall (env : Env) (config : Config.t) (r : SlackProfileGetResponse),
    ConfigLoaded env config ->
    SpotifyRunning env ->
    ReadYields env r -> ok r = true ->
    AbsentFields r ->
    statusTextOf r = [] /\ statusEmojiOf r = []
    /\ statusExpirationOf r = ofZ 0
    /\ isEmptySlackStatus (statusTextOf r) (statusEmojiOf r) = true
    /\ safeOf r = true
    /\ protectedOf (runtimeConfigOf (cwd env) config) r = false
    /\ (StatePlaying env -> FirstWriteSucceeds env ->
        In (ExecFile "/usr/bin/osascript" ["-e"; trackScript])
          (traceOf (run env)))
    /\ (StatePlaying env -> StepsSucceed env ->
        exists body,
          setCalls (traceOf (run env))
          = [Fetch (Config.slackToken config) "users.profile.set"
               (Some body)]).
Proof.
  intros env config0 r0 Hc0 Hrun0 Hr0 Hok0 Habsent.
  destruct (absent_snapshot r0 Habsent) as (Ht & He & Hx).
  assert (Hsafe : safeOf r0 = true) by (unfold safeOf; now rewrite Ht).
  assert (Hprot : protectedOf (runtimeConfigOf (cwd env) config0) r0 = false).
  { unfold protectedOf. rewrite Ht. simpl. now rewrite andb_false_r. }
  do 3 (split; [assumption|]).
  split; [now rewrite Ht, He|].
  do 2 (split; [assumption|]).
  clear Ht He Hx Habsent.
  walk env.
  all: try fold_snapshot r.
  all: split; intros.
  all: first
    [ solve [ find_in ]
    | solve [ same_run env; eexists; trace_simpl; reflexivity ]
    | absurd_leaf env ].
Qed.

Lemma C10_witness :
  exists body,
    setCalls (traceOf (run envNoProfile))
    = [Fetch (lit "xoxp-sample") "users.profile.set" (Some body)].
Proof.
  destruct (C10_absent_fields_read_as_empty envNoProfile sampleConfig
              okWithoutProfile) as (_ & _ & _ & _ & _ & _ & _ & H).
  - now eexists.
  - now eexists.
  - now apply ReadYields_first.
  - reflexivity.
  - repeat split.
  - apply H.
    + exists (lit "playing"). split; reflexivity.
    + split; [reflexivity|].
      exists (lit "Artist - Song"), (lit "Artist - Song").
      split; reflexivity.
Defined.

(** With the status fields absent and the player playing, a cache write
    that fails leaves the run without a set call. *)
Lemma C10_counterexample : ~ AbsentFieldsGetSetCall envNoProfileDiskFull.
Proof.
  intros H.
  specialize (H sampleConfig okWithoutProfile).
  assert (E : List.length (setCalls (traceOf (run envNoProfileDiskFull))) = 1).
  { apply H.
    - now eexists.
    - now eexists.
    - now apply ReadYields_first.
    - reflexivity.
    - repeat split.
    - exists (lit "playing"). split; reflexivity. }
  vm_compute in E. discriminate.
Qed.


(** * The log files *)

(** ** [split] and [join] *)

Lemma split_not_nil (sep : N) (s : jsstring) : split sep s <> [].
Proof.
  destruct s as [|c r]; simpl; [discriminate|].
  destruct (c =? sep)%N; [discriminate|].
  destruct (split sep r); discriminate.
Qed.

Lemma join_cons (sep p : jsstring) (ps : list jsstring) :
  ps <> [] -> join sep (p :: ps) = p ++ sep ++ join sep ps.
Proof. destruct ps; [congruence | reflexivity]. Qed.

Lemma join_split (sep : N) (s : jsstring) : join [sep] (split sep s) = s.
Proof.
  induction s as [|c r IH]; simpl; auto.
  destruct (N.eqb_spec c sep) as [-> | Hne].
  - rewrite join_cons by apply split_not_nil. simpl. now rewrite IH.
  - pose proof (split_not_nil sep r) as Hn.
    destruct (split sep r) as [|p ps]; [congruence|].
    destruct ps as [|q ps]; simpl in *; now rewrite <- IH.
Qed.

Lemma split_pieces (sep : N) (s : jsstring) :
  Forall (fun p => ~ In sep p) (split sep s).
Proof.
  induction s as [|c r IH]; simpl.
  - constructor; auto.
  - destruct (N.eqb_spec c sep) as [-> | Hne].
    + constructor; auto.
    + destruct (split sep r) as [|p ps]; [constructor; auto; simpl; tauto|].
      inversion IH; subst. constructor; auto.
      simpl. intros [E | E]; auto.
Qed.

Lemma split_free (sep : N) (p : jsstring) :
  ~ In sep p -> split sep p = [p].
Proof.
  induction p as [|c r IH]; simpl; auto.
  intros H. destruct (N.eqb_spec c sep) as [-> | Hne]; [tauto|].
  rewrite IH by tauto. reflexivity.
Qed.

Lemma split_app_sep (sep : N) (p s : jsstring) :
  ~ In sep p -> split sep (p ++ sep :: s) = p :: split sep s.
Proof.
  induction p as [|c r IH]; simpl; intros H.
  - now rewrite N.eqb_refl.
  - destruct (N.eqb_spec c sep) as [-> | Hne]; [tauto|].
    rewrite IH by tauto. reflexivity.
Qed.

Lemma split_join (sep : N) (ps : list jsstring) :
  ps <> [] -> Forall (fun p => ~ In sep p) ps ->
  split sep (join [sep] ps) = ps.
Proof.
  induction ps as [|p ps IH]; [congruence|].
  intros _ H. inversion H as [|? ? Hp Hps]; subst.
  destruct ps as [|q ps].
  - simpl. now apply split_free.
  - rewrite join_cons by discriminate.
    change (p ++ [sep] ++ join [sep] (q :: ps))
      with (p ++ sep :: join [sep] (q :: ps)).
    rewrite split_app_sep by assumption.
    f_equal. apply IH; [discriminate | assumption].
Qed.

(** ** Line counts *)

Lemma Forall_firstn_of {A} (P : A -> Prop) (n : nat) (l : list A) :
  Forall P l -> Forall P (firstn n l).
Proof.
  revert l. induction n as [|n IH]; intros l H; simpl; [constructor|].
  destruct H; constructor; auto.
Qed.

Lemma Forall_skipn_of {A} (P : A -> Prop) (n : nat) (l : list A) :
  Forall P l -> Forall P (skipn n l).
Proof.
  revert l. induction n as [|n IH]; intros l H; simpl; auto.
  destruct H; auto.
Qed.

Lemma lastIsEmpty_split (sep : N) (s : jsstring) :
  lastIsEmpty (split sep s) = streq (last (split sep s) []) [].
Proof.
  pose proof (split_not_nil sep s). now destruct (split sep s).
Qed.

Lemma logLines_firstn (contents : jsstring) :
  logLines contents
  = firstn (List.length (logLines contents)) (split LF contents).
Proof.
  unfold logLines. cbv zeta.
  destruct (lastIsEmpty (split LF contents)).
  - rewrite removelast_firstn_len at 1.
    f_equal. rewrite removelast_firstn_len, length_firstn. lia.
  - now rewrite firstn_all.
Qed.

Lemma logLines_length_le (contents : jsstring) :
  List.length (logLines contents) <= List.length (split LF contents).
Proof.
  rewrite logLines_firstn at 1. rewrite length_firstn. lia.
Qed.

Lemma logLines_count (contents : jsstring) :
  (if lastIsEmpty (split LF contents)
   then List.length (split LF contents) - 1
   else List.length (split LF contents))
  = List.length (logLines contents).
Proof.
  unfold logLines. cbv zeta.
  destruct (lastIsEmpty (split LF contents)); auto.
  rewrite removelast_firstn_len, length_firstn. lia.
Qed.

Lemma logLines_pieces (contents : jsstring) :
  Forall (fun p => ~ In LF p) (logLines contents).
Proof.
  rewrite logLines_firstn. apply Forall_firstn_of, split_pieces.
Qed.

(** ** Numbers as indices *)

Lemma truncate_inject_Z (z : Z) : truncate (inject_Z z) = z.
Proof. unfold truncate. simpl. apply Z.quot_1_r. Qed.

Lemma toIntegerOrInfinity_ofNat (n : nat) :
  toIntegerOrInfinity (ofNat n) = Integer (Z.of_nat n).
Proof. unfold ofNat, ofZ. simpl. now rewrite truncate_inject_Z. Qed.

Lemma sliceIndex_within (len n : nat) :
  n <= len -> sliceIndex len (Integer (Z.of_nat n)) = n.
Proof.
  intros H. unfold sliceIndex.
  destruct (Z.ltb_spec (Z.of_nat n) 0); [lia|].
  rewrite Nat2Z.id. lia.
Qed.

Lemma slice_to_count (lines : list jsstring) (start : number) (n : nat) :
  n <= List.length lines ->
  slice lines start (ofNat n)
  = skipn (sliceIndex (List.length lines) (toIntegerOrInfinity start))
      (firstn n lines).
Proof.
  intros H. unfold slice. cbv zeta.
  rewrite toIntegerOrInfinity_ofNat, sliceIndex_within by assumption.
  now rewrite skipn_firstn_comm.
Qed.

(** [trimLogFile] in terms of the lines of the file. *)
Lemma trimmedLog_lines (contents : jsstring) (maxLines keepLines : number) :
  trimmedLog contents maxLines keepLines
  = if number_le (ofNat (List.length (logLines contents))) maxLines
    then None
    else
      Some
        (join [LF]
           (skipn
              (dropped (List.length (logLines contents))
                 (List.length (split LF contents)) keepLines)
              (logLines contents))
         ++ [LF]).
Proof.
  unfold trimmedLog. cbv zeta. rewrite logLines_count.
  destruct (number_le _ maxLines); auto.
  rewrite slice_to_count by apply logLines_length_le.
  now rewrite <- logLines_firstn.
Qed.

(** ** The text [trimLogFile] writes, read again *)

Lemma join_unlines (kept : list jsstring) :
  kept <> [] -> join [LF] kept ++ [LF] = unlines kept.
Proof.
  unfold unlines. induction kept as [|p ps IH]; [congruence|]. intros _.
  destruct ps as [|q ps].
  - simpl. now rewrite app_nil_r.
  - rewrite join_cons by discriminate.
    change (List.concat (List.map (fun l => l ++ [LF]) (p :: q :: ps)))
      with ((p ++ [LF])
            ++ List.concat (List.map (fun l => l ++ [LF]) (q :: ps))).
    rewrite <- IH by discriminate. now rewrite <- !app_assoc.
Qed.

Lemma join_snoc_empty (kept : list jsstring) :
  kept <> [] -> join [LF] kept ++ [LF] = join [LF] (kept ++ [[]]).
Proof.
  induction kept as [|p ps IH]; [congruence|]. intros _.
  destruct ps as [|q ps].
  - reflexivity.
  - change ((p :: q :: ps) ++ [[]]) with (p :: (q :: ps) ++ [[]]).
    rewrite (join_cons [LF] p (q :: ps)) by discriminate.
    rewrite (join_cons [LF] p ((q :: ps) ++ [[]])) by discriminate.
    rewrite <- IH by discriminate. now rewrite <- !app_assoc.
Qed.

Lemma split_written (kept : list jsstring) :
  kept <> [] -> Forall (fun p => ~ In LF p) kept ->
  split LF (join [LF] kept ++ [LF]) = kept ++ [[]].
Proof.
  intros Hne Hp. rewrite join_snoc_empty by assumption.
  apply split_join.
  - now destruct kept.
  - apply Forall_app. split; auto.
Qed.

Lemma lastIsEmpty_snoc (kept : list jsstring) :
  lastIsEmpty (kept ++ [[]]) = true.
Proof.
  unfold lastIsEmpty. rewrite last_last.
  now destruct kept.
Qed.

Lemma logLines_written (kept : list jsstring) :
  kept <> [] -> Forall (fun p => ~ In LF p) kept ->
  logLines (join [LF] kept ++ [LF]) = kept.
Proof.
  intros Hne Hp. unfold logLines. cbv zeta.
  rewrite split_written by assumption.
  now rewrite lastIsEmpty_snoc, removelast_last.
Qed.

Lemma length_split_written (kept : list jsstring) :
  kept <> [] -> Forall (fun p => ~ In LF p) kept ->
  List.length (split LF (join [LF] kept ++ [LF])) = S (List.length kept).
Proof.
  intros Hne Hp. rewrite split_written by assumption.
  rewrite length_app. simpl. lia.
Qed.

(** ** How many lines are dropped *)

Lemma Qred_inject_Z (z : Z) : Qred (inject_Z z) = inject_Z z.
Proof.
  unfold Qred, inject_Z.
  pose proof (Z.ggcd_gcd z 1) as Hg.
  pose proof (Z.ggcd_correct_divisors z 1) as Hd.
  destruct (Z.ggcd z 1) as [g [n d]]. simpl in *.
  rewrite Z.gcd_1_r in Hg. subst g. destruct Hd as [Hn Hd].
  assert (En : n = z) by lia. assert (Ed : d = 1%Z) by lia.
  now rewrite En, Ed.
Qed.

Lemma number_sub_ofZ (a b : Z) :
  number_sub (ofZ a) (ofZ b) = ofZ (a - b).
Proof.
  unfold ofZ, number_sub. f_equal.
  rewrite <- (Qred_inject_Z (a - b)). apply Qred_complete.
  unfold inject_Z, Qminus, Qplus, Qopp, Qeq. simpl. lia.
Qed.

Lemma Math_max_ofZ (a b : Z) :
  Math_max (ofZ a) (ofZ b) = ofZ (Z.max a b).
Proof.
  unfold ofZ, Math_max.
  destruct (Qle_bool (inject_Z a) (inject_Z b)) eqn:E.
  - apply Qle_bool_iff in E. rewrite <- Zle_Qle in E.
    now rewrite Z.max_r.
  - assert (~ (a <= b)%Z).
    { intros H. rewrite Zle_Qle in H. apply Qle_bool_iff in H. congruence. }
    now rewrite Z.max_l by lia.
Qed.

Lemma dropped_ofNat (n len keep : nat) :
  n <= len -> dropped n len (ofNat keep) = n - keep.
Proof.
  intros H. unfold dropped, ofNat.
  rewrite number_sub_ofZ, Math_max_ofZ.
  unfold ofZ, toIntegerOrInfinity. rewrite truncate_inject_Z.
  unfold sliceIndex.
  destruct (Z.ltb_spec (Z.max 0 (Z.of_nat n - Z.of_nat keep)) 0); lia.
Qed.

Lemma ofNat_zero : ofNat 0 = ofZ 0.
Proof. reflexivity. Qed.

Lemma over_limit_not_empty (n : nat) (maxLines : number) :
  nonNegative maxLines -> number_le (ofNat n) maxLines = false -> 1 <= n.
Proof.
  unfold nonNegative. intros H0 Hn. destruct n; [|lia].
  rewrite ofNat_zero in Hn. congruence.
Qed.

Lemma skipn_not_nil {A} (k : nat) (l : list A) :
  k < List.length l -> skipn k l <> [].
Proof.
  intros H E. apply (f_equal (@List.length A)) in E.
  rewrite length_skipn in E. simpl in E. lia.
Qed.

(** What a whole [keepLines] leaves of a log over the limit. *)
Lemma trimmedLog_ofNat (contents : jsstring) (maxLines : number)
  (keep : nat) (tail : jsstring) :
  trimmedLog contents maxLines (ofNat keep) = Some tail ->
  number_le (ofNat (List.length (logLines contents))) maxLines = false
  /\ tail
     = join [LF]
         (skipn (List.length (logLines contents) - keep) (logLines contents))
       ++ [LF].
Proof.
  intros H. rewrite trimmedLog_lines in H.
  destruct (number_le _ maxLines) eqn:Hover; [discriminate|].
  rewrite dropped_ofNat in H by apply logLines_length_le.
  injection H as <-. split; reflexivity.
Qed.

(** X1: when [trimLogFile] rewrites a log, with a positive whole
    [keepLines] and a [maxLines] that is not negative, the file it writes
    holds the newest [keepLines] lines of the old one (all of them if
    there were fewer), unchanged and in order, each ended by a line
    feed. *)
Theorem trimLogFile_keeps_newest_lines
  (contents : jsstring) (maxLines : number) (keep : nat) (tail : jsstring) :
  nonNegative maxLines ->
  1 <= keep ->
  trimmedLog contents maxLines (ofNat keep) = Some tail ->
  let kept :=
    skipn (List.length (logLines contents) - keep) (logLines contents) in
  tail = unlines kept
  /\ logLines tail = kept
  /\ List.length kept = Nat.min keep (List.length (logLines contents)).
Proof.
  intros Hmax Hkeep H kept.
  apply trimmedLog_ofNat in H. destruct H as [Hover ->]. fold kept.
  apply over_limit_not_empty in Hover; [|assumption].
  assert (Hne : kept <> []) by (apply skipn_not_nil; lia).
  assert (Hp : Forall (fun p => ~ In LF p) kept)
    by apply Forall_skipn_of, logLines_pieces.
  split; [now apply join_unlines|].
  split; [now apply logLines_written|].
  unfold kept. rewrite length_skipn. lia.
Qed.

Lemma trimLogFile_keeps_newest_lines_witness :
  let kept := skipn (3 - 2) (logLines [97; 10; 98; 10; 99; 10]%N) in
  [98; 10; 99; 10]%N = unlines kept
  /\ logLines [98; 10; 99; 10]%N = kept
  /\ List.length kept = Nat.min 2 3.
Proof.
  apply (trimLogFile_keeps_newest_lines
           [97; 10; 98; 10; 99; 10]%N (ofNat 2) 2 [98; 10; 99; 10]%N).
  - reflexivity.
  - lia.
  - reflexivity.
Defined.

Lemma skipn_beyond {A} (k : nat) (l : list A) :
  List.length l <= k -> skipn k l = [].
Proof. apply skipn_all2. Qed.

Lemma truncate_nonneg (q : Q) : (0 <= q)%Q -> truncate q = Qfloor q.
Proof.
  intros H. unfold truncate. destruct q as [a b]. simpl.
  apply Z.quot_div_nonneg; [|lia].
  unfold Qle in H. simpl in H. lia.
Qed.

(** With nothing to keep, every line is dropped. *)
Lemma dropped_all (n len : nat) (keepLines : number) :
  n <= len -> number_le keepLines (ofZ 0) = true ->
  n <= dropped n len keepLines.
Proof.
  intros Hn Hk. unfold dropped.
  destruct keepLines as [q | | |]; try discriminate.
  - unfold ofNat, ofZ, number_sub, Math_max.
    simpl in Hk. apply Qle_bool_iff in Hk.
    set (x := Qred (inject_Z (Z.of_nat n) - q)).
    assert (Hx : (inject_Z (Z.of_nat n) <= x)%Q).
    { unfold x. rewrite Qred_correct.
      setoid_replace (inject_Z (Z.of_nat n))
        with (inject_Z (Z.of_nat n) - 0)%Q at 1 by ring.
      apply Qplus_le_compat; [apply Qle_refl|].
      apply Qopp_le_compat. exact Hk. }
    assert (H0 : (0 <= x)%Q).
    { eapply Qle_trans; [|exact Hx].
      change 0%Q with (inject_Z 0). rewrite <- Zle_Qle. lia. }
    apply Qle_bool_iff in H0 as Hb.
    change (inject_Z 0) with 0%Q. rewrite Hb.
    unfold toIntegerOrInfinity. rewrite truncate_nonneg by assumption.
    apply Qfloor_resp_le in Hx. rewrite Qfloor_Z in Hx.
    unfold sliceIndex. destruct (Z.ltb_spec (Qfloor x) 0); lia.
  - simpl. lia.
Qed.


(** X2: with [keepLines] at zero or below, a log that is over
    the limit is not emptied: it is left holding one line feed, which
    counts as one empty line. *)
Theorem trimLogFile_zero_keeps_one_empty_line
  (contents : jsstring) (maxLines keepLines : number) (tail : jsstring) :
  number_le keepLines (ofZ 0) = true ->
  trimmedLog contents maxLines keepLines = Some tail ->
  tail = [LF] /\ logLines tail = [[]].
Proof.
  intros Hk H. rewrite trimmedLog_lines in H.
  destruct (number_le _ maxLines); [discriminate|].
  rewrite skipn_beyond in H
    by (apply dropped_all; [apply logLines_length_le | assumption]).
  injection H as <-. split; reflexivity.
Qed.

Lemma trimLogFile_zero_keeps_one_empty_line_witness :
  [LF] = [LF] /\ logLines [LF] = [[]].
Proof.
  apply (trimLogFile_zero_keeps_one_empty_line
           [97; 10; 98; 10]%N (ofZ 1) (ofZ 0) [LF]); reflexivity.
Defined.

(** ** Trimming again *)





Lemma number_le_ofNat (a b : nat) :
  number_le (ofNat a) (ofNat b) = true <-> a <= b.
Proof.
  unfold ofNat, ofZ, number_le. rewrite Qle_bool_iff, <- Zle_Qle. lia.
Qed.

(** X4: with whole numbers [keepLines <= maxLines] and
    [maxLines] at least 1 (the defaults are 3000 and 5000), the log that
    [trimLogFile] has rewritten is within the limit: the next call leaves
    the file alone. *)
Theorem trimLogFile_settles
  (contents : jsstring) (max keep : nat) (tail : jsstring) :
  keep <= max ->
  1 <= max ->
  trimmedLog contents (ofNat max) (ofNat keep) = Some tail ->
  trimmedLog tail (ofNat max) (ofNat keep) = None.
Proof.
  intros Hkm Hmax H. apply trimmedLog_ofNat in H. destruct H as [Hover ->].
  set (n := List.length (logLines contents)) in *.
  set (kept := skipn (n - keep) (logLines contents)).
  assert (Hn : max < n).
  { destruct (Nat.lt_ge_cases max n) as [L | L]; auto.
    apply number_le_ofNat in L. congruence. }
  rewrite trimmedLog_lines.
  assert (Hlen : List.length (logLines (join [LF] kept ++ [LF])) <= max).
  { destruct keep as [|keep].
    - unfold kept. rewrite Nat.sub_0_r, skipn_beyond by (unfold n; lia).
      simpl. lia.
    - rewrite logLines_written.
      + unfold kept. rewrite length_skipn. fold n. lia.
      + apply skipn_not_nil. fold n. lia.
      + apply Forall_skipn_of, logLines_pieces. }
  apply number_le_ofNat in Hlen. now rewrite Hlen.
Qed.

Lemma trimLogFile_settles_witness :
  trimmedLog [98; 10; 99; 10]%N (ofNat 2) (ofNat 2) = None.
Proof.
  apply (trimLogFile_settles [97; 10; 98; 10; 99; 10]%N 2 2).
  - lia.
  - lia.
  - reflexivity.
Defined.

(** ** The tail the configuration page shows *)

Lemma number_gt_ofNat (a b : nat) :
  number_gt (ofNat a) (ofNat b) = (b <? a)%nat.
Proof.
  unfold ofNat, ofZ, number_gt.
  destruct (Nat.ltb_spec b a) as [L | L].
  - apply negb_true_iff. destruct (Qle_bool _ _) eqn:E; auto.
    apply Qle_bool_iff in E. rewrite <- Zle_Qle in E. lia.
  - apply negb_false_iff. apply Qle_bool_iff. rewrite <- Zle_Qle. lia.
Qed.

Lemma sliceFrom_ofNat {A} (items : list A) (limit : nat) :
  limit <= List.length items ->
  sliceFrom items (number_sub (ofNat (List.length items)) (ofNat limit))
  = skipn (List.length items - limit) items.
Proof.
  intros H. unfold sliceFrom, ofNat. cbv zeta.
  rewrite number_sub_ofZ. unfold ofZ, toIntegerOrInfinity.
  rewrite truncate_inject_Z. unfold sliceIndex.
  set (len := List.length items) in *.
  destruct (Z.ltb_spec (Z.of_nat len - Z.of_nat limit) 0) as [L | L];
    [lia|].
  f_equal. lia.
Qed.

Lemma popped_is_logLines (s : jsstring) :
  (if (0 <? List.length (split LF s))%nat && lastIsEmpty (split LF s)
   then removelast (split LF s) else split LF s)
  = logLines s.
Proof.
  unfold logLines. cbv zeta.
  pose proof (split_not_nil LF s) as H.
  destruct (split LF s) as [|p ps]; [congruence|]. reflexivity.
Qed.

(** X22: for a whole [lineLimit], [readLogTail] returns the newest
    [lineLimit] lines of the log in file order (all of them if there are
    fewer), reports how many lines the log has, and sets [truncated]
    exactly when the log has more lines than the limit. *)
Theorem readLogTail_returns_newest_lines (rawContent : jsstring) (limit : nat) :
  let allLines := logLines (replaceCRLF rawContent) in
  let total := List.length allLines in
  readLogTail (Some rawContent) (ofNat limit)
  = {| tail_lines := skipn (total - limit) allLines;
       totalLines := total;
       truncated := (limit <? total)%nat;
       missing := false |}.
Proof.
  intros allLines total. unfold readLogTail. cbv zeta.
  rewrite popped_is_logLines. fold allLines. fold total.
  rewrite number_gt_ofNat.
  destruct (Nat.ltb_spec limit total) as [L | L].
  - unfold total. rewrite sliceFrom_ofNat by (fold total; lia).
    fold total. f_equal. rewrite length_skipn. fold total.
    apply Nat.ltb_lt. lia.
  - replace (total - limit) with 0 by lia. simpl skipn.
    f_equal. fold total. apply Nat.ltb_irrefl.
Qed.

(** *** After a trim *)

Lemma In_split (sep c : N) (s p : jsstring) :
  In p (split sep s) -> In c p -> In c s.
Proof.
  revert p. induction s as [|a r IH]; simpl; intros p Hp Hc.
  - destruct Hp as [<- | []]. exact Hc.
  - destruct (a =? sep)%N.
    + destruct Hp as [<- | Hp]; [destruct Hc|]. right. eauto.
    + pose proof (split_not_nil sep r) as Hn.
      destruct (split sep r) as [|q qs]; [congruence|].
      destruct Hp as [<- | Hp].
      * destruct Hc as [<- | Hc]; [now left | right].
        apply (IH q); simpl; auto.
      * right. apply (IH p); simpl; auto.
Qed.

Lemma In_skipn_of {A} (x : A) (k : nat) (l : list A) :
  In x (skipn k l) -> In x l.
Proof.
  intros H. rewrite <- (firstn_skipn k l). apply in_or_app. now right.
Qed.

Lemma In_firstn_of {A} (x : A) (k : nat) (l : list A) :
  In x (firstn k l) -> In x l.
Proof.
  intros H. rewrite <- (firstn_skipn k l). apply in_or_app. now left.
Qed.

Lemma In_logLines (c : N) (contents p : jsstring) :
  In p (logLines contents) -> In c p -> In c contents.
Proof.
  rewrite logLines_firstn. intros Hp. apply In_firstn_of in Hp.
  now apply In_split with (sep := LF) (p := p).
Qed.

Lemma In_unlines (c : N) (lines : list jsstring) :
  In c (unlines lines) -> c = LF \/ exists l, In l lines /\ In c l.
Proof.
  unfold unlines. induction lines as [|l ls IH]; simpl; [tauto|].
  intros H. apply in_app_or in H. destruct H as [H | H].
  - apply in_app_or in H. destruct H as [H | [<- | []]]; eauto.
  - destruct (IH H) as [-> | (l' & Hl & Hc)]; eauto.
Qed.

Lemma replaceCRLF_without_CR (s : jsstring) :
  ~ In CR s -> replaceCRLF s = s.
Proof.
  induction s as [|c r IH]; auto. intros H.
  assert (Hc : (c =? CR)%N = false)
    by (apply N.eqb_neq; intros ->; apply H; now left).
  assert (Hr : replaceCRLF r = r) by (apply IH; intros X; apply H; now right).
  simpl. destruct r as [|d r']; auto.
  rewrite Hc. simpl andb. cbv iota. now rewrite Hr.
Qed.

(** X23: the two sides of the log agree on what a line is.
    Once [trimLogFile] has rewritten a log that holds no carriage return
    (with a positive whole [keepLines] and a [maxLines] that is not
    negative), [readLogTail] counts exactly the lines that were kept, and
    shows the newest [lineLimit] of them. *)
Theorem readLogTail_after_trimLogFile
  (contents : jsstring) (maxLines : number) (keep limit : nat)
  (tail : jsstring) :
  nonNegative maxLines ->
  1 <= keep ->
  ~ In CR contents ->
  trimmedLog contents maxLines (ofNat keep) = Some tail ->
  let kept :=
    skipn (List.length (logLines contents) - keep) (logLines contents) in
  let shown := readLogTail (Some tail) (ofNat limit) in
  totalLines shown = Nat.min keep (List.length (logLines contents))
  /\ tail_lines shown = skipn (List.length kept - limit) kept
  /\ missing shown = false.
Proof.
  intros Hmax Hkeep Hcr H kept shown.
  apply trimmedLog_ofNat in H. destruct H as [Hover ->]. fold kept in shown.
  apply over_limit_not_empty in Hover; [|assumption].
  assert (Hne : kept <> []) by (apply skipn_not_nil; lia).
  assert (Hp : Forall (fun p => ~ In LF p) kept)
    by apply Forall_skipn_of, logLines_pieces.
  assert (Hclean : replaceCRLF (join [LF] kept ++ [LF])
                   = join [LF] kept ++ [LF]).
  { apply replaceCRLF_without_CR. rewrite join_unlines by assumption.
    intros Hin. apply In_unlines in Hin.
    destruct Hin as [E | (l & Hl & Hc)]; [discriminate|].
    apply Hcr. apply In_logLines with (p := l); auto.
    now apply In_skipn_of in Hl. }
  unfold shown, readLogTail. cbv zeta.
  rewrite popped_is_logLines, Hclean, logLines_written by assumption.
  cbn [totalLines tail_lines missing].
  split; [|split; [|reflexivity]].
  - unfold kept. rewrite length_skipn. lia.
  - rewrite number_gt_ofNat.
    destruct (Nat.ltb_spec limit (List.length kept)).
    + apply sliceFrom_ofNat. lia.
    + now replace (List.length kept - limit) with 0 by lia.
Qed.

Lemma readLogTail_after_trimLogFile_witness :
  let kept := skipn (3 - 2) (logLines [97; 10; 98; 10; 99; 10]%N) in
  let shown := readLogTail (Some [98; 10; 99; 10]%N) (ofNat 1) in
  totalLines shown = Nat.min 2 3
  /\ tail_lines shown = skipn (List.length kept - 1) kept
  /\ missing shown = false.
Proof.
  apply (readLogTail_after_trimLogFile
           [97; 10; 98; 10; 99; 10]%N (ofNat 2) 2 1 [98; 10; 99; 10]%N).
  - reflexivity.
  - lia.
  - intros H. vm_compute in H. intuition discriminate.
  - reflexivity.
Defined.

(** * Redacting tokens *)

Lemma matchToken_Some (s : jsstring) (n : nat) :
  matchToken s = Some n ->
  exists kind t rest,
    s = 120%N :: 111%N :: 120%N :: kind :: 45%N :: t :: rest
    /\ isTokenKind kind = true /\ isTokenChar t = true.
Proof.
  destruct s as [|x [|o [|x' [|kind [|dash r]]]]]; try discriminate.
  unfold matchToken.
  destruct (N.eqb_spec x 120); [|discriminate].
  destruct (N.eqb_spec o 111); [|discriminate].
  destruct (N.eqb_spec x' 120); [|discriminate].
  destruct (isTokenKind kind) eqn:Hk; [|discriminate].
  destruct (N.eqb_spec dash 45); [|discriminate].
  simpl. destruct r as [|t rest]; [discriminate|]. simpl.
  destruct (isTokenChar t) eqn:Ht; [|discriminate].
  intros _. subst. eauto 7.
Qed.

Lemma matchToken_shape (kind t : N) (rest : jsstring) :
  isTokenKind kind = true -> isTokenChar t = true ->
  matchToken (120%N :: 111%N :: 120%N :: kind :: 45%N :: t :: rest) <> None.
Proof.
  intros Hk Ht. unfold matchToken. simpl. rewrite Hk, Ht. discriminate.
Qed.

Lemma replaceTokens_skip (k : nat) (s : jsstring) :
  replaceTokens k s = replaceTokens 0 (skipn k s).
Proof.
  revert k. induction s as [|c r IH]; intros [|k]; auto.
  simpl replaceTokens at 1. now rewrite IH.
Qed.

Lemma replaceTokens_cons (c : N) (r : jsstring) :
  replaceTokens 0 (c :: r)
  = match matchToken (c :: r) with
    | Some n => REDACTED ++ replaceTokens 0 (skipn (n - 1) r)
    | None => c :: replaceTokens 0 r
    end.
Proof.
  change (replaceTokens 0 (c :: r))
    with (match matchToken (c :: r) with
          | Some n => REDACTED ++ replaceTokens (n - 1) r
          | None => c :: replaceTokens 0 r
          end).
  destruct (matchToken (c :: r)); auto.
  now rewrite replaceTokens_skip.
Qed.

(** How the output of the replacement can start. *)
Lemma replaceTokens_head (r : jsstring) (a : N) (out : jsstring) :
  replaceTokens 0 r = a :: out ->
  (a = 120%N /\ (exists out', out = 111%N :: 120%N :: 42%N :: out')
   /\ matchToken r <> None)
  \/ (exists r', r = a :: r' /\ matchToken r = None
                 /\ replaceTokens 0 r' = out).
Proof.
  destruct r as [|c r]; [discriminate|].
  rewrite replaceTokens_cons.
  destruct (matchToken (c :: r)) as [n|] eqn:E.
  - intros H. left. injection H as <- <-.
    split; [reflexivity|]. split; [eexists; reflexivity | discriminate].
  - intros H. right. injection H as <- <-. eauto.
Qed.

(** A code unit copied in front of the output does not complete a
    match. *)
Lemma matchToken_copied (c : N) (r : jsstring) :
  matchToken (c :: r) = None ->
  matchToken (c :: replaceTokens 0 r) = None.
Proof.
  intros Hnone.
  destruct (matchToken (c :: replaceTokens 0 r)) as [n|] eqn:E; auto.
  exfalso. apply matchToken_Some in E.
  destruct E as (kind & t & rest & E & Hk & Ht).
  injection E as -> E.
  apply replaceTokens_head in E.
  destruct E as [(E & _) | (r1 & -> & _ & E)]; [discriminate|].
  apply replaceTokens_head in E.
  destruct E as [(_ & (o & E) & _) | (r2 & -> & _ & E)].
  { injection E as -> _. discriminate. }
  apply replaceTokens_head in E.
  destruct E as [(-> & _) | (r3 & -> & _ & E)]; [discriminate|].
  apply replaceTokens_head in E.
  destruct E as [(E & _) | (r4 & -> & _ & E)]; [discriminate|].
  apply replaceTokens_head in E.
  destruct E as [(-> & _ & Hm) | (r5 & -> & _ & _)].
  - destruct (matchToken r4) as [m|] eqn:E4; [|congruence].
    apply matchToken_Some in E4. destruct E4 as (? & ? & ? & -> & _).
    now apply (matchToken_shape kind 120%N) in Hnone.
  - now apply (matchToken_shape kind t) in Hnone.
Qed.

Lemma NoToken_nil : NoToken [].
Proof. intros [|k]; reflexivity. Qed.

Lemma NoToken_cons (c : N) (out : jsstring) :
  matchToken (c :: out) = None -> NoToken out -> NoToken (c :: out).
Proof. intros H0 H [|k]; [exact H0 | apply H]. Qed.

Lemma NoToken_tail (c : N) (s : jsstring) : NoToken (c :: s) -> NoToken s.
Proof. intros H k. apply (H (S k)). Qed.

Lemma NoToken_REDACTED (out : jsstring) :
  NoToken out -> NoToken (REDACTED ++ out).
Proof.
  intros H k.
  destruct (matchToken (skipn k (REDACTED ++ out))) as [n|] eqn:E; auto.
  exfalso. apply matchToken_Some in E.
  destruct E as (kind & t & rest & E & Hk & Ht).
  do 13 (destruct k as [|k];
         [ cbn in E; try discriminate E;
           injection E as <- _; discriminate Hk |]).
  change (skipn (S (S (S (S (S (S (S (S (S (S (S (S (S k)))))))))))))
            (REDACTED ++ out))
    with (skipn k out) in E.
  pose proof (H k) as Hnone. rewrite E in Hnone.
  now apply (matchToken_shape kind t) in Hnone.
Qed.

Lemma replaceTokens_clean (n : nat) :
  forall s, List.length s <= n -> NoToken (replaceTokens 0 s).
Proof.
  induction n as [|n IH]; intros [|c r] Hlen; try apply NoToken_nil.
  - simpl in Hlen. lia.
  - simpl in Hlen. rewrite replaceTokens_cons.
    destruct (matchToken (c :: r)) as [m|] eqn:E.
    + apply NoToken_REDACTED, IH. rewrite length_skipn. lia.
    + apply NoToken_cons.
      * now apply matchToken_copied.
      * apply IH. lia.
Qed.

(** X6: what [redactSlackToken] returns holds no token: the pattern
    matches nowhere in it, for any input. *)
Theorem redactSlackToken_leaves_no_token (value : jsstring) :
  ~ ContainsToken (redactSlackToken value).
Proof.
  intros (pre & post & n & E & Hm).
  pose proof (replaceTokens_clean (List.length value) value (le_n _)
                (List.length pre)) as H.
  unfold redactSlackToken in E. rewrite E in H.
  rewrite skipn_app, skipn_all, Nat.sub_diag in H. simpl in H.
  congruence.
Qed.

Lemma replaceTokens_NoToken (s : jsstring) :
  NoToken s -> replaceTokens 0 s = s.
Proof.
  induction s as [|c r IH]; auto. intros H.
  pose proof (H 0) as H0. change (skipn 0 (c :: r)) with (c :: r) in H0.
  rewrite replaceTokens_cons, H0.
  f_equal. apply IH. now apply NoToken_tail in H.
Qed.

Lemma NoToken_iff (s : jsstring) : NoToken s <-> ~ ContainsToken s.
Proof.
  split.
  - intros H (pre & post & n & -> & Hm).
    specialize (H (List.length pre)).
    rewrite skipn_app, skipn_all, Nat.sub_diag in H. simpl in H. congruence.
  - intros H k. destruct (matchToken (skipn k s)) as [n|] eqn:E; auto.
    exfalso. apply H. exists (firstn k s), (skipn k s), n.
    split; [now rewrite firstn_skipn | exact E].
Qed.

(** X7: a text in which the pattern matches nowhere is
    returned as it is, and redacting twice is the same as redacting
    once. *)
Theorem redactSlackToken_idempotent (value : jsstring) :
  (~ ContainsToken value -> redactSlackToken value = value)
  /\ redactSlackToken (redactSlackToken value) = redactSlackToken value.
Proof.
  split.
  - intros H. apply replaceTokens_NoToken, NoToken_iff, H.
  - apply replaceTokens_NoToken. unfold redactSlackToken.
    apply (replaceTokens_clean (List.length value)). lia.
Qed.

(** * The configuration file *)

(** ** What the schema lets through *)

Lemma nonEmptyString_valid (v : option json) (s : jsstring) :
  required nonEmptyString v = Some s -> trimmedNonEmpty s.
Proof.
  destruct v as [[| | | x | |]|]; try discriminate.
  unfold required, nonEmptyString, trimmedString.
  destruct (trim x) as [|c r] eqn:E; [discriminate|].
  simpl. intros H. injection H as <-.
  split; [|discriminate]. rewrite <- E. apply trim_idem.
Qed.

Lemma zFiniteMin0_valid (j : json) (n : number) :
  zFiniteMin0 j = Some n -> finiteNonNegative n.
Proof.
  destruct j as [| | x | | |]; try discriminate.
  unfold zFiniteMin0. destruct x; try discriminate.
  simpl. destruct (Qle_bool 0 q) eqn:E; [|discriminate].
  intros H. injection H as <-. split; auto.
Qed.

Lemma nonNegativeNumber_valid (v : option json) (n : option number) :
  optional nonNegativeNumber v = Some n -> whenSet finiteNonNegative n.
Proof.
  destruct v as [j|]; simpl.
  - unfold nonNegativeNumber. destruct (zFiniteMin0 j) eqn:E; [|discriminate].
    intros H. injection H as <-. simpl. now apply zFiniteMin0_valid in E.
  - intros H. now injection H as <-.
Qed.

Lemma optionalTrimmedString_valid (v : option json) (s : option jsstring) :
  optionalTrimmedString v = Some s -> whenSet trimmedNonEmpty s.
Proof.
  unfold optionalTrimmedString, trimOrUndefined.
  destruct v as [[| | | x | |]|]; try discriminate;
    try (intros H; injection H as <-; exact I).
  cbv zeta. destruct (streq (trim x) []) eqn:E.
  - intros H. now injection H as <-.
  - simpl. intros H. injection H as <-. simpl.
    split; [apply trim_idem | now apply streq_false].
Qed.

(** Take the parse of [configSchema] apart, key by key. *)
Ltac parse_steps H :=
  repeat match type of H with
    | andThen ?x _ = Some _ =>
        let E := fresh "E" in
        destruct x eqn:E; [cbn [andThen] in H | discriminate H]
    end.

Lemma configSchema_valid (payload : json) (config : Config.t) :
  configSchema payload = Some config -> ValidConfig config.
Proof.
  unfold configSchema. destruct payload as [| | | | |fs]; try discriminate.
  destruct (strict configShapeKeys fs); [|discriminate].
  intros H. parse_steps H. injection H as <-.
  unfold ValidConfig. cbn [Config.slackToken Config.pollIntervalSeconds
    Config.statusEmoji Config.statusEmojiUnicode Config.statusTtlSeconds
    Config.emptyReadConfirmWindowSeconds Config.cacheMaxAgeSeconds
    Config.logMaxLines Config.logKeepLines Config.stdoutLogPath
    Config.stderrLogPath].
  repeat split;
    first [ eapply nonEmptyString_valid; eassumption
          | eapply nonNegativeNumber_valid; eassumption
          | eapply optionalTrimmedString_valid; eassumption ].
Qed.

(** X14: every configuration [parseConfig] returns, and so
    every configuration [readConfigFile] returns, has a Slack token that
    is trimmed and not empty; each emoji and log path that is set is
    trimmed and not empty; each number that is set is finite and not
    negative. *)
Theorem parseConfig_returns_valid_config (payload : json) (config : Config.t) :
  parseConfig payload = Some config ->
  ValidConfig config
  /\ forall fs filePath config',
       readConfigFile fs filePath = inr config' -> ValidConfig config'.
Proof.
  intros H. split; [now apply configSchema_valid in H|].
  intros fs filePath config'. unfold readConfigFile.
  destruct (fileAt fs filePath) as [| e | | j]; try discriminate.
  destruct (parseConfig j) as [c|] eqn:E; [|discriminate].
  intros H'. injection H' as <-. now apply configSchema_valid in E.
Qed.

Lemma parseConfig_returns_valid_config_witness :
  ValidConfig sampleParsed
  /\ forall fs filePath config',
       readConfigFile fs filePath = inr config' -> ValidConfig config'.
Proof.
  apply (parseConfig_returns_valid_config samplePayload). reflexivity.
Defined.

(** ** Keys *)

Lemma getField_In (key : jsstring) (fs : list (jsstring * json)) (v : json) :
  getField key fs = Some v -> In (key, v) fs.
Proof.
  induction fs as [|[k w] fs IH]; simpl; [discriminate|].
  destruct (streq k key) eqn:E.
  - apply streq_true in E. intros H. injection H as <-. left. congruence.
  - auto.
Qed.

Lemma strict_In (shapeKeys : list jsstring) (fs : list (jsstring * json))
  (k : jsstring) (v : json) :
  strict shapeKeys fs = true -> In (k, v) fs -> In k shapeKeys.
Proof.
  unfold strict. rewrite forallb_forall. intros H Hin.
  specialize (H _ Hin). simpl in H.
  apply existsb_exists in H. destruct H as (k' & Hk' & E).
  apply streq_true in E. now subst.
Qed.

(** X15: [parseConfig] accepts only an object, every key of
    which the schema names, and in which [slackToken] is a string that is
    not blank; the token it returns is that string, trimmed. *)
Theorem parseConfig_accepts_only_known_keys
  (payload : json) (config : Config.t) :
  parseConfig payload = Some config ->
  exists fs token,
    payload = JObj fs
    /\ (forall k v, In (k, v) fs -> In k configShapeKeys)
    /\ getField (lit "slackToken") fs = Some (JStr token)
    /\ Config.slackToken config = trim token
    /\ trim token <> [].
Proof.
  unfold parseConfig, configSchema.
  destruct payload as [| | | | |fs]; try discriminate.
  destruct (strict configShapeKeys fs) eqn:Hs; [|discriminate].
  intros H. parse_steps H. injection H as <-.
  destruct (getField (lit "slackToken") fs) as [[| | | token | |]|] eqn:Et;
    try discriminate.
  exists fs, token. split; [reflexivity|].
  split; [intros k v; now apply strict_In|].
  split; [exact Et|].
  unfold required, nonEmptyString, trimmedString in E.
  destruct (trim token) eqn:Etrim; [discriminate|].
  simpl in E. injection E as <-. split; [reflexivity | discriminate].
Qed.

Lemma parseConfig_accepts_only_known_keys_witness :
  exists fs token,
    samplePayload = JObj fs
    /\ (forall k v, In (k, v) fs -> In k configShapeKeys)
    /\ getField (lit "slackToken") fs = Some (JStr token)
    /\ Config.slackToken sampleParsed = trim token
    /\ trim token <> [].
Proof.
  apply (parseConfig_accepts_only_known_keys samplePayload sampleParsed).
  reflexivity.
Defined.

(** X16: an emoji given as a blank string counts as not given:
    the configuration [parseConfig] returns leaves it unset, so both
    [main] and [applyDefaults] use the default emoji. *)
Theorem blank_statusEmoji_means_default
  (fs : list (jsstring * json)) (s : jsstring) (config : Config.t)
  (repositoryDirectory : jsstring) :
  getField (lit "statusEmoji") fs = Some (JStr s) ->
  trim s = [] ->
  parseConfig (JObj fs) = Some config ->
  Config.statusEmoji config = None
  /\ Runtime.statusEmoji (runtimeConfigOf repositoryDirectory config)
     = DEFAULT_CONFIG.statusEmoji
  /\ ConfigWithDefaults.statusEmoji (applyDefaults (draftOf config))
     = DEFAULT_CONFIG.statusEmoji.
Proof.
  intros Hf Hblank. unfold parseConfig, configSchema.
  destruct (strict configShapeKeys fs); [|discriminate].
  intros H. parse_steps H. injection H as <-.
  rewrite Hf in E1. unfold optionalTrimmedString, trimOrUndefined in E1.
  rewrite Hblank in E1. simpl in E1. injection E1 as <-.
  repeat split.
Qed.

Lemma blank_statusEmoji_means_default_witness :
  Config.statusEmoji sampleParsed = None
  /\ Runtime.statusEmoji (runtimeConfigOf (lit "/repo") sampleParsed)
     = DEFAULT_CONFIG.statusEmoji
  /\ ConfigWithDefaults.statusEmoji (applyDefaults (draftOf sampleParsed))
     = DEFAULT_CONFIG.statusEmoji.
Proof.
  apply (blank_statusEmoji_means_default
           [(lit "slackToken", JStr (lit " xoxp-sample "));
            (lit "statusEmoji", JStr (lit "  "));
            (lit "statusTtlSeconds", JNum (ofZ 90));
            (lit "alwaysOverride", JBool true)]
           (lit "  ")); reflexivity.
Defined.

(** ** Writing the configuration and reading it back *)

Lemma getField_field (key : jsstring) A (k : string) (toJson : A -> json)
  (v : option A) (rest : list (jsstring * json)) :
  getField key (field k toJson v ++ rest)
  = if streq (lit k) key
    then match v with
         | Some x => Some (toJson x)
         | None => getField key rest
         end
    else getField key rest.
Proof.
  destruct v; simpl; destruct (streq (lit k) key); reflexivity.
Qed.

Lemma getField_field_last (key : jsstring) A (k : string)
  (toJson : A -> json) (v : option A) :
  getField key (field k toJson v)
  = if streq (lit k) key
    then match v with
         | Some x => Some (toJson x)
         | None => None
         end
    else None.
Proof.
  destruct v; simpl; destruct (streq (lit k) key); reflexivity.
Qed.

Lemma strict_field A (shapeKeys : list jsstring) (k : string)
  (toJson : A -> json) (v : option A) (rest : list (jsstring * json)) :
  existsb (streq (lit k)) shapeKeys = true ->
  strict shapeKeys rest = true ->
  strict shapeKeys (field k toJson v ++ rest) = true.
Proof.
  intros Hk Hr. destruct v; simpl; auto.
  unfold strict in *. simpl. now rewrite Hk.
Qed.

Lemma strict_field_last A (shapeKeys : list jsstring) (k : string)
  (toJson : A -> json) (v : option A) :
  existsb (streq (lit k)) shapeKeys = true ->
  strict shapeKeys (field k toJson v) = true.
Proof.
  intros Hk. destruct v; simpl; auto.
  unfold strict. simpl. now rewrite Hk.
Qed.

Lemma required_nonEmptyString (s : jsstring) :
  trimmedNonEmpty s -> required nonEmptyString (Some (JStr s)) = Some s.
Proof.
  intros [Ht Hne]. unfold required, nonEmptyString, trimmedString.
  rewrite Ht. destruct s; [congruence | reflexivity].
Qed.

Lemma zFiniteMin0_jsonNumber (n : number) :
  finiteNonNegative n -> zFiniteMin0 (jsonNumber n) = Some n.
Proof.
  intros [Hf Hg]. unfold jsonNumber. rewrite Hf.
  destruct n; try discriminate. simpl in *. now rewrite Hg.
Qed.

Lemma optional_number (v : option number) :
  whenSet finiteNonNegative v ->
  optional nonNegativeNumber
    match v with Some x => Some (jsonNumber x) | None => None end
  = Some v.
Proof.
  destruct v as [n|]; simpl; auto. intros H.
  unfold nonNegativeNumber. now rewrite zFiniteMin0_jsonNumber.
Qed.

Lemma optional_string (v : option jsstring) :
  whenSet trimmedNonEmpty v ->
  optionalTrimmedString
    match v with Some x => Some (JStr x) | None => None end
  = Some v.
Proof.
  destruct v as [s|]; simpl; auto. intros [Ht Hne].
  unfold optionalTrimmedString, trimOrUndefined. cbv zeta. rewrite Ht.
  apply streq_false in Hne. now rewrite Hne.
Qed.

Lemma optional_boolean (v : option bool) :
  optional zBoolean match v with Some x => Some (JBool x) | None => None end
  = Some v.
Proof. now destruct v. Qed.

(** Decide the comparisons of key names. *)
Ltac decide_keys :=
  repeat match goal with
    | |- context [streq (lit ?a) (lit ?b)] =>
        let v := eval vm_compute in (streq (lit a) (lit b)) in
        change (streq (lit a) (lit b)) with v
    end;
  cbv iota.

Lemma configToJson_accepted (config : Config.t) :
  ValidConfig config -> configSchema (configToJson config) = Some config.
Proof.
  intros (Ht & Hp & He & Hu & Hl & Hw & Hc & Hm & Hk & Ho & Hr).
  destruct config as [token poll emoji unicode ttl always twoReads window
                        maxAge maxLines keepLines outPath errPath].
  cbn [Config.slackToken Config.pollIntervalSeconds
    Config.statusEmoji Config.statusEmojiUnicode Config.statusTtlSeconds
    Config.emptyReadConfirmWindowSeconds Config.cacheMaxAgeSeconds
    Config.logMaxLines Config.logKeepLines Config.stdoutLogPath
    Config.stderrLogPath] in *.
  unfold configSchema, configToJson.
  cbn [Config.slackToken Config.pollIntervalSeconds
    Config.statusEmoji Config.statusEmojiUnicode Config.statusTtlSeconds
    Config.alwaysOverride Config.requireTwoEmptyReadsBeforeOverride
    Config.emptyReadConfirmWindowSeconds Config.cacheMaxAgeSeconds
    Config.logMaxLines Config.logKeepLines Config.stdoutLogPath
    Config.stderrLogPath].
  match goal with
  | |- (if strict ?keys ?fs then _ else _) = _ =>
      assert (Hs : strict keys fs = true)
  end.
  { match goal with
    | |- strict _ (_ :: ?rest) = true =>
        change (strict configShapeKeys
                  (field "slackToken" JStr (Some token) ++ rest) = true)
    end.
    repeat first [ apply strict_field; [reflexivity|]
                 | apply strict_field_last; reflexivity ]. }
  rewrite Hs. clear Hs.
  cbn [getField]. decide_keys.
  repeat (first [rewrite getField_field | rewrite getField_field_last];
          decide_keys).
  rewrite required_nonEmptyString by assumption. cbn [andThen].
  rewrite !optional_number, !optional_string, !optional_boolean
    by assumption.
  reflexivity.
Qed.

(** X17: a configuration that [parseConfig] returned, once
    written by [writeConfigFile] and read again by [readConfigFile], is
    accepted and comes back the same. *)
Theorem written_config_is_read_back (payload : json) (config : Config.t) :
  parseConfig payload = Some config ->
  parseConfig (configToJson config) = Some config.
Proof.
  intros H. apply configToJson_accepted. now apply configSchema_valid in H.
Qed.

Lemma written_config_is_read_back_witness :
  parseConfig (configToJson sampleParsed) = Some sampleParsed.
Proof.
  apply (written_config_is_read_back samplePayload). reflexivity.
Defined.

(** ** The settings of the configuration page *)

Lemma required_zFiniteMin0_valid (v : option json) (n : number) :
  required zFiniteMin0 v = Some n -> finiteNonNegative n.
Proof.
  destruct v as [j|]; [apply zFiniteMin0_valid | discriminate].
Qed.

Lemma uiConfigSchema_valid (payload : json) (data : UiConfig) :
  uiConfigSchema payload = Some data ->
  finiteNonNegative (ui_statusTtlSeconds data)
  /\ finiteNonNegative (ui_cacheMaxAgeSeconds data)
  /\ finiteNonNegative (ui_emptyReadConfirmWindowSeconds data).
Proof.
  unfold uiConfigSchema. destruct payload as [| | | | |fs]; try discriminate.
  destruct (strict uiShapeKeys fs); [|discriminate].
  intros H. parse_steps H. injection H as <-. simpl.
  split; [|split]; eapply required_zFiniteMin0_valid; eassumption.
Qed.

(** X21: [PUT /api/ui-config] cannot spoil the stored
    configuration.  Whatever settings [uiConfigSchema] accepts, spread
    over a configuration that [parseConfig] returned, pass [parseConfig]
    again; the result differs from the stored configuration in the four
    settings of the page only, so the Slack token is kept. *)
Theorem ui_update_is_accepted
  (stored payload : json) (existing : Config.t) (data : UiConfig) :
  parseConfig stored = Some existing ->
  uiConfigSchema payload = Some data ->
  updatedConfig existing data = Some (spread existing data)
  /\ Config.slackToken (spread existing data) = Config.slackToken existing
  /\ selectUiConfig (applyDefaults (draftOf (spread existing data))) = data.
Proof.
  intros Hs Hu. apply configSchema_valid in Hs.
  apply uiConfigSchema_valid in Hu. destruct Hu as (H1 & H2 & H3).
  split; [|split; [reflexivity | now destruct data]].
  unfold updatedConfig, parseConfig. apply configToJson_accepted.
  destruct Hs as (Ht & Hp & He & Hu & Hl & Hw & Hc & Hm & Hk & Ho & Hr).
  unfold ValidConfig, spread. simpl. tauto.
Qed.

Lemma ui_update_is_accepted_witness :
  updatedConfig sampleParsed sampleUiConfig
  = Some (spread sampleParsed sampleUiConfig)
  /\ Config.slackToken (spread sampleParsed sampleUiConfig)
     = Config.slackToken sampleParsed
  /\ selectUiConfig
       (applyDefaults (draftOf (spread sampleParsed sampleUiConfig)))
     = sampleUiConfig.
Proof.
  apply (ui_update_is_accepted samplePayload sampleUiPayload); reflexivity.
Defined.

(** ** Defaults *)

(** X18: [applyDefaults] and the [runtimeConfig] of [main] resolve
    every setting they share to the same value, except a log path that is
    not set: [main] puts the log in the repository directory,
    [applyDefaults] gives a path relative to the working directory. *)
Theorem applyDefaults_agrees_with_main
  (repositoryDirectory : jsstring) (config : Config.t) :
  let defaulted := applyDefaults (draftOf config) in
  let runtimeConfig := runtimeConfigOf repositoryDirectory config in
  ConfigWithDefaults.slackToken defaulted = Config.slackToken config
  /\ Runtime.statusEmoji runtimeConfig
     = ConfigWithDefaults.statusEmoji defaulted
  /\ Runtime.statusEmojiUnicode runtimeConfig
     = ConfigWithDefaults.statusEmojiUnicode defaulted
  /\ Runtime.statusTtlSeconds runtimeConfig
     = ConfigWithDefaults.statusTtlSeconds defaulted
  /\ Runtime.alwaysOverride runtimeConfig
     = ConfigWithDefaults.alwaysOverride defaulted
  /\ Runtime.logMaxLines runtimeConfig
     = ConfigWithDefaults.logMaxLines defaulted
  /\ Runtime.logKeepLines runtimeConfig
     = ConfigWithDefaults.logKeepLines defaulted
  /\ Runtime.cacheMaxAgeSeconds runtimeConfig
     = ConfigWithDefaults.cacheMaxAgeSeconds defaulted
  /\ Runtime.requireTwoEmptyReadsBeforeOverride runtimeConfig
     = ConfigWithDefaults.requireTwoEmptyReadsBeforeOverride defaulted
  /\ Runtime.emptyReadConfirmWindowSeconds runtimeConfig
     = ConfigWithDefaults.emptyReadConfirmWindowSeconds defaulted
  /\ match Config.stdoutLogPath config with
     | Some p =>
         Runtime.stdoutLogPath runtimeConfig = p
         /\ ConfigWithDefaults.stdoutLogPath defaulted = p
     | None =>
         Runtime.stdoutLogPath runtimeConfig
         = repositoryDirectory ++ lit "/spotify-status.log"
         /\ ConfigWithDefaults.stdoutLogPath defaulted
            = lit "./spotify-status.log"
     end
  /\ match Config.stderrLogPath config with
     | Some p =>
         Runtime.stderrLogPath runtimeConfig = p
         /\ ConfigWithDefaults.stderrLogPath defaulted = p
     | None =>
         Runtime.stderrLogPath runtimeConfig
         = repositoryDirectory ++ lit "/spotify-status.error.log"
         /\ ConfigWithDefaults.stderrLogPath defaulted
            = lit "./spotify-status.error.log"
     end.
Proof.
  destruct config as [token poll emoji unicode ttl always twoReads window
                        maxAge maxLines keepLines outPath errPath].
  simpl. repeat split; try reflexivity.
  - destruct outPath; split; reflexivity.
  - destruct errPath; split; reflexivity.
Qed.

(** ** Finding the file *)

Lemma find_two {A} (f : A -> bool) (a b x : A) :
  find f [a; b] = Some x ->
  f x = true /\ (x = a \/ (x = b /\ f a = false)).
Proof.
  simpl. destruct (f a) eqn:Ea.
  - intros H. injection H as <-. auto.
  - destruct (f b) eqn:Eb; [|discriminate].
    intros H. injection H as <-. auto.
Qed.

(** X19: when [loadConfiguration] returns, the path it returns
    holds a JSON file that [parseConfig] accepted, and the configuration
    is valid.  The path is [CONFIG_PATH] when that is set and not empty;
    otherwise it is [config.local.json] in the repository if that exists,
    else the file in the home directory. *)
Theorem loadConfiguration_returns_an_existing_file
  (fs : FileSystem) (overridePath : option jsstring)
  (repositoryDirectory : jsstring) (config : Config.t) (path : jsstring) :
  OnDisk.loadConfiguration fs overridePath repositoryDirectory
  = inr (config, path) ->
  (exists j, fileAt fs path = Json j /\ parseConfig j = Some config)
  /\ ValidConfig config
  /\ match overridePath with
     | Some (c :: r) => path = c :: r
     | _ =>
         path = pathJoin repositoryDirectory (lit "config.local.json")
         \/ (path
             = pathJoin
                 (pathJoin (pathJoin (homedir fs) (lit ".config"))
                    (lit "spotify-status-on-slack"))
                 (lit "config.json")
             /\ existsSync fs
                  (pathJoin repositoryDirectory (lit "config.local.json"))
                = false)
     end.
Proof.
  unfold OnDisk.loadConfiguration. cbv zeta.
  set (p := resolveConfigPath fs repositoryDirectory overridePath).
  destruct (existsSync fs p) eqn:Ex; [|discriminate]. simpl.
  unfold readConfigFile.
  destruct (fileAt fs p) as [| e | | j] eqn:Ef; try discriminate.
  destruct (parseConfig j) as [parsed|] eqn:Ep; [|discriminate].
  intros H. injection H as <- <-.
  split; [eauto|]. split; [now apply configSchema_valid in Ep|].
  assert (Hsearch :
    match find (existsSync fs) (getConfigSearchPaths fs repositoryDirectory)
    with
    | Some candidate => candidate
    | None => nth 0 (getConfigSearchPaths fs repositoryDirectory) []
    end
    = pathJoin repositoryDirectory (lit "config.local.json")
    \/ (match find (existsSync fs)
                (getConfigSearchPaths fs repositoryDirectory)
        with
        | Some candidate => candidate
        | None => nth 0 (getConfigSearchPaths fs repositoryDirectory) []
        end
        = pathJoin
            (pathJoin (pathJoin (homedir fs) (lit ".config"))
               (lit "spotify-status-on-slack"))
            (lit "config.json")
        /\ existsSync fs
             (pathJoin repositoryDirectory (lit "config.local.json"))
           = false)).
  { unfold getConfigSearchPaths. cbv zeta.
    destruct (find _ _) as [x|] eqn:Efind.
    - apply find_two in Efind. tauto.
    - left. reflexivity. }
  unfold p, resolveConfigPath. cbv zeta.
  destruct overridePath as [[|c0 r0]|]; auto.
Qed.

Lemma loadConfiguration_returns_an_existing_file_witness :
  (exists j,
      fileAt sampleFiles (lit "/repo/config.local.json") = Json j
      /\ parseConfig j = Some sampleParsed)
  /\ ValidConfig sampleParsed
  /\ (lit "/repo/config.local.json"
      = pathJoin (lit "/repo") (lit "config.local.json")
      \/ (lit "/repo/config.local.json"
          = pathJoin
              (pathJoin (pathJoin (homedir sampleFiles) (lit ".config"))
                 (lit "spotify-status-on-slack"))
              (lit "config.json")
          /\ existsSync sampleFiles
               (pathJoin (lit "/repo") (lit "config.local.json"))
             = false)).
Proof.
  apply (loadConfiguration_returns_an_existing_file
           sampleFiles None (lit "/repo") sampleParsed
           (lit "/repo/config.local.json")).
  reflexivity.
Defined.

(** X20: a [CONFIG_PATH] that is set and not empty decides
    alone: if nothing is at that path the load fails, whatever files the
    search would have found; an empty [CONFIG_PATH] is as good as none. *)
Theorem loadConfiguration_override_decides
  (fs : FileSystem) (repositoryDirectory : jsstring) :
  (forall c r,
      existsSync fs (c :: r) = false ->
      exists e,
        OnDisk.loadConfiguration fs (Some (c :: r)) repositoryDirectory
        = inl e)
  /\ OnDisk.loadConfiguration fs (Some []) repositoryDirectory
     = OnDisk.loadConfiguration fs None repositoryDirectory.
Proof.
  split; [|reflexivity].
  intros c r H. unfold OnDisk.loadConfiguration, resolveConfigPath.
  cbv zeta. rewrite H. simpl. eauto.
Qed.

(** ** The status the script publishes, read back *)

Lemma statusEmoji_trimmed (repositoryDirectory : jsstring)
  (config : Config.t) :
  ValidConfig config ->
  trim (Runtime.statusEmoji (runtimeConfigOf repositoryDirectory config))
  = Runtime.statusEmoji (runtimeConfigOf repositoryDirectory config).
Proof.
  intros (_ & _ & He & _). simpl.
  destruct (Config.statusEmoji config) as [e|]; simpl in *.
  - apply He.
  - reflexivity.
Qed.

(** X13: with a configuration that [parseConfig] returned, a
    status that carries the emoji the script publishes is classified as
    the script's own exactly when its text, trimmed, is empty or contains
    [" - "].  So the script recognises what it published on the next run
    if the track label still contains the separator after the trim, and
    not otherwise. *)
Theorem published_status_is_recognised
  (payload : json) (config : Config.t) (repositoryDirectory text : jsstring) :
  parseConfig payload = Some config ->
  let runtimeConfig := runtimeConfigOf repositoryDirectory config in
  isStatusOwnedByScript (normalizeText (Some text))
    (normalizeEmoji (Some (Runtime.statusEmoji runtimeConfig)))
    runtimeConfig
  = true
  <-> trim text = [] \/ Substring separator (trim text).
Proof.
  intros H runtimeConfig. apply configSchema_valid in H.
  pose proof (statusEmoji_trimmed repositoryDirectory config H) as Ht.
  fold runtimeConfig in Ht.
  rewrite isStatusOwnedByScript_true.
  unfold IsSentinel, normalizeEmoji, normalizeText, orEmpty.
  rewrite trim_idem, Ht. tauto.
Qed.

Lemma published_status_is_recognised_witness :
  let runtimeConfig := runtimeConfigOf (lit "/repo") sampleParsed in
  isStatusOwnedByScript (normalizeText (Some (lit "Artist - Song")))
    (normalizeEmoji (Some (Runtime.statusEmoji runtimeConfig)))
    runtimeConfig
  = true
  <-> trim (lit "Artist - Song") = []
      \/ Substring separator (trim (lit "Artist - Song")).
Proof.
  apply (published_status_is_recognised samplePayload). reflexivity.
Defined.

(** * The cache file between two runs *)

Lemma reparsed_parsed : forall j : json, parsed j = true -> reparsed j = j.
Proof.
  fix IH 1. intros [| b | n | s | items | fields]; simpl; auto.
  - intros H. unfold jsonNumber. now rewrite H.
  - intros H. f_equal.
    induction items as [|x xs IHxs]; simpl in *; auto.
    apply andb_true_iff in H. destruct H as [H1 H2].
    rewrite (IH x H1). f_equal. auto.
  - intros H. f_equal.
    induction fields as [|[k v] kvs IHkvs]; simpl in *; auto.
    apply andb_true_iff in H. destruct H as [H1 H2].
    rewrite (IH v H1). f_equal. auto.
Qed.

Lemma reparsed_extras (extras : list (jsstring * json)) :
  Forall (fun kv => parsed (snd kv) = true) extras ->
  List.map (fun kv : jsstring * json => let (k, v) := kv in (k, reparsed v))
    extras
  = extras.
Proof.
  induction 1 as [|[k v] extras Hkv _ IH]; simpl; auto.
  simpl in Hkv. now rewrite reparsed_parsed, IH.
Qed.

Lemma getField_extrasOnly (key : jsstring) (extras : list (jsstring * json)) :
  inShape key = true -> extrasOnly extras -> getField key extras = None.
Proof.
  intros Hk Hx. apply (getField_extras key [] extras Hk Hx).
Qed.

Lemma filter_extrasOnly (extras : list (jsstring * json)) :
  extrasOnly extras ->
  filter (fun kv => negb (inShape (fst kv))) extras = extras.
Proof. intros Hx. apply (filter_extras [] extras Hx). Qed.

Lemma filter_field A (k : string) (toJson : A -> json) (v : option A)
  (rest : list (jsstring * json)) :
  inShape (lit k) = true ->
  filter (fun kv => negb (inShape (fst kv))) (field k toJson v ++ rest)
  = filter (fun kv => negb (inShape (fst kv))) rest.
Proof.
  intros Hk. destruct v; simpl; auto. now rewrite Hk.
Qed.

Lemma zObservedStatus_written (o : ObservedStatus) :
  finiteNonNegative (os_expiration o) -> finiteNonNegative (observedAt o) ->
  zObservedStatus (observedStatusToJson o) = Some o.
Proof.
  intros Hx Ho. destruct o as [t e x a]. simpl in *.
  unfold zObservedStatus, observedStatusToJson. cbn [getField os_text
    os_emoji os_expiration observedAt]. decide_keys.
  cbn [required zString].
  now rewrite !zFiniteMin0_jsonNumber by assumption.
Qed.

Lemma zSetStatus_written (v : SetStatus) :
  finiteNonNegative (ss_expiration v) -> finiteNonNegative (setAt v) ->
  zSetStatus (setStatusToJson v) = Some v.
Proof.
  intros Hx Ha. destruct v as [t e x a]. simpl in *.
  unfold zSetStatus, setStatusToJson. cbn [getField ss_text ss_emoji
    ss_expiration setAt]. decide_keys.
  cbn [required zString].
  now rewrite !zFiniteMin0_jsonNumber by assumption.
Qed.

Lemma zIntMin0_jsonNumber (n : number) :
  wholeNonNegative n -> zIntMin0 (jsonNumber n) = Some n.
Proof.
  intros [Hi Hg]. destruct n; try discriminate.
  unfold jsonNumber. simpl in *. now rewrite Hi, Hg.
Qed.

Lemma zEmptyRead_written (e : EmptyRead) :
  finiteNonNegative (lastSeenAt e) -> wholeNonNegative (consecutiveCount e) ->
  zEmptyRead (emptyReadToJson e) = Some e.
Proof.
  intros Hl Hc. destruct e as [l c]. simpl in *.
  unfold zEmptyRead, emptyReadToJson. cbn [getField lastSeenAt
    consecutiveCount]. decide_keys.
  cbn [required].
  now rewrite zFiniteMin0_jsonNumber, zIntMin0_jsonNumber by assumption.
Qed.

Lemma cacheToJson_accepted (cache : Cache) :
  Storable cache -> cacheSchema (cacheToJson cache) = Some cache.
Proof.
  intros (Hu & Hl & He & Hs & Hx & Hp).
  destruct cache as [u l e s extras]. simpl in *.
  unfold cacheSchema, cacheToJson.
  cbn [updatedAt lastNonEmptyNonOwned emptyRead lastSetByScript passthrough].
  rewrite reparsed_extras by assumption.
  cbn [getField]. decide_keys.
  repeat (rewrite getField_field; decide_keys).
  rewrite !getField_extrasOnly by (assumption || reflexivity).
  cbn [required]. rewrite zFiniteMin0_jsonNumber by assumption.
  change (filter ?f ((lit "updatedAt", ?x) :: ?rest)) with (filter f rest).
  rewrite !filter_field by reflexivity.
  rewrite filter_extrasOnly by assumption.
  destruct l as [o|]; destruct e as [r|]; destruct s as [v|];
    simpl in Hl, He, Hs; cbn [optional];
    rewrite ?zObservedStatus_written, ?zEmptyRead_written,
      ?zSetStatus_written by tauto;
    reflexivity.
Qed.



(** ** What [loadCache] returns can be stored *)

Lemma zObservedStatus_valid (j : json) (o : ObservedStatus) :
  zObservedStatus j = Some o ->
  finiteNonNegative (os_expiration o) /\ finiteNonNegative (observedAt o).
Proof.
  destruct j as [| | | | |fs]; try discriminate. unfold zObservedStatus.
  destruct (required zString _); [|discriminate].
  destruct (required zString _); [|discriminate].
  destruct (required zFiniteMin0 (getField (lit "expiration") fs)) eqn:E1;
    [|discriminate].
  destruct (required zFiniteMin0 (getField (lit "observedAt") fs)) eqn:E2;
    [|discriminate].
  intros H. injection H as <-. simpl.
  split; eapply required_zFiniteMin0_valid; eassumption.
Qed.

Lemma zSetStatus_valid (j : json) (v : SetStatus) :
  zSetStatus j = Some v ->
  finiteNonNegative (ss_expiration v) /\ finiteNonNegative (setAt v).
Proof.
  destruct j as [| | | | |fs]; try discriminate. unfold zSetStatus.
  destruct (required zString _); [|discriminate].
  destruct (required zString _); [|discriminate].
  destruct (required zFiniteMin0 (getField (lit "expiration") fs)) eqn:E1;
    [|discriminate].
  destruct (required zFiniteMin0 (getField (lit "setAt") fs)) eqn:E2;
    [|discriminate].
  intros H. injection H as <-. simpl.
  split; eapply required_zFiniteMin0_valid; eassumption.
Qed.

Lemma zIntMin0_valid (v : option json) (n : number) :
  required zIntMin0 v = Some n -> wholeNonNegative n.
Proof.
  destruct v as [[| | x | | |]|]; try discriminate. simpl.
  destruct x; try discriminate.
  destruct (isInteger (Finite q)) eqn:Ei; [|discriminate].
  destruct (geZero (Finite q)) eqn:Eg; [|discriminate].
  simpl. intros H. injection H as <-. now split.
Qed.

Lemma zEmptyRead_valid (j : json) (e : EmptyRead) :
  zEmptyRead j = Some e ->
  finiteNonNegative (lastSeenAt e) /\ wholeNonNegative (consecutiveCount e).
Proof.
  destruct j as [| | | | |fs]; try discriminate. unfold zEmptyRead.
  destruct (required zFiniteMin0 (getField (lit "lastSeenAt") fs)) eqn:E1;
    [|discriminate].
  destruct (required zIntMin0 (getField (lit "consecutiveCount") fs)) eqn:E2;
    [|discriminate].
  intros H. injection H as <-. simpl.
  split; [eapply required_zFiniteMin0_valid | eapply zIntMin0_valid];
    eassumption.
Qed.

Lemma optional_valid A (p : json -> option A) (P : A -> Prop)
  (v : option json) (x : option A) :
  (forall j a, p j = Some a -> P a) ->
  optional p v = Some x -> whenSet P x.
Proof.
  intros Hp. destruct v as [j|]; simpl.
  - destruct (p j) eqn:E; [|discriminate].
    intros H. injection H as <-. simpl. eauto.
  - intros H. now injection H as <-.
Qed.

Lemma cacheSchema_storable (j : json) (cache : Cache) :
  parsed j = true -> cacheSchema j = Some cache -> Storable cache.
Proof.
  destruct j as [| | | | |fs]; try discriminate. intros Hp.
  unfold cacheSchema.
  destruct (required zFiniteMin0 (getField (lit "updatedAt") fs)) eqn:Eu;
    [|discriminate].
  destruct (optional zObservedStatus _) eqn:El; [|discriminate].
  destruct (optional zEmptyRead _) eqn:Ee; [|discriminate].
  destruct (optional zSetStatus _) eqn:Es; [|discriminate].
  intros H. injection H as <-. unfold Storable. simpl.
  split; [eapply required_zFiniteMin0_valid; eassumption|].
  split; [eapply optional_valid; [apply zObservedStatus_valid | eassumption]|].
  split; [eapply optional_valid; [apply zEmptyRead_valid | eassumption]|].
  split; [eapply optional_valid; [apply zSetStatus_valid | eassumption]|].
  simpl in Hp. rewrite forallb_forall in Hp. split.
  - apply Forall_forall. intros kv Hin. apply filter_In in Hin.
    destruct Hin as [_ Hin]. now apply negb_true_iff in Hin.
  - apply Forall_forall. intros [k v] Hin. apply filter_In in Hin.
    destruct Hin as [Hin _]. apply (Hp _ Hin).
Qed.

(** * What a run never does *)

(** ** Invariants of computations *)

Lemma triple_ret {A} (I : event -> Prop) (a : A) (R : A -> Prop) :
  R a -> triple I (ret a) R.
Proof.
  intros H s. split; [constructor|]. simpl. intros b E. now injection E as <-.
Qed.

Lemma triple_throw {A} (I : event -> Prop) (e : exn) (R : A -> Prop) :
  triple I (throw e) R.
Proof. intros s. split; [constructor | discriminate]. Qed.

Lemma triple_emit (I : event -> Prop) (e : event) :
  I e -> triple I (emit e) (fun _ => True).
Proof. intros H s. split; [repeat constructor; exact H | auto]. Qed.

Lemma triple_log (I : event -> Prop) (level : LogLevel) (message : string) :
  I (ConsoleLog level message) -> triple I (log level message) (fun _ => True).
Proof. apply triple_emit. Qed.

Lemma triple_bind {A B} (I : event -> Prop) (c : M A) (k : A -> M B)
  (R : A -> Prop) (R' : B -> Prop) :
  triple I c R ->
  (forall a, R a -> triple I (k a) R') ->
  triple I (bind c k) R'.
Proof.
  intros Hc Hk s. unfold bind. specialize (Hc s).
  destruct (c s) as [[t1 s1] [a | e]]; simpl in *.
  - destruct Hc as [Ht Ha]. specialize (Hk a (Ha a eq_refl) s1).
    destruct (k a s1) as [[t2 s2] r]. simpl in *.
    destruct Hk as [Ht2 Hr]. split; [now apply Forall_app | exact Hr].
  - destruct Hc as [Ht _]. split; [exact Ht | discriminate].
Qed.

Lemma triple_tryCatch {A} (I : event -> Prop) (c : M A) (h : exn -> M A)
  (R : A -> Prop) :
  triple I c R -> (forall e, triple I (h e) R) -> triple I (tryCatch c h) R.
Proof.
  intros Hc Hh s. unfold tryCatch. specialize (Hc s).
  destruct (c s) as [[t1 s1] [a | e]]; simpl in *.
  - exact Hc.
  - specialize (Hh e s1). destruct (h e s1) as [[t2 s2] r]. simpl in *.
    destruct Hc as [Ht _]. destruct Hh as [Ht2 Hr].
    split; [now apply Forall_app | exact Hr].
Qed.

Lemma triple_now (I : event -> Prop) (env : Env) :
  triple I (currentTimestampSeconds env)
    (fun now => exists k, now = ofZ (clock env k)).
Proof.
  intros s. split; [constructor|]. simpl. intros a E.
  injection E as <-. eauto.
Qed.

Lemma triple_setExitCode (I : event -> Prop) (code : Z) :
  triple I (setExitCode code) (fun _ => True).
Proof. intros s. split; [constructor | auto]. Qed.

(** ** The steps of [main] *)

Lemma triple_loadConfiguration (I : event -> Prop) (env : Env)
  (dir : jsstring) :
  triple I (loadConfiguration env dir)
    (fun loaded => configOutcome env = inr loaded).
Proof.
  intros s. unfold loadConfiguration.
  destruct (configOutcome env) as [e | loaded]; simpl.
  - split; [constructor | discriminate].
  - split; [constructor|]. intros a E. now injection E as <-.
Qed.

Lemma triple_trimLogFile (I : event -> Prop) (env : Env) (p : jsstring)
  (a b : number) :
  I (TrimLog p a b) ->
  I (ConsoleLog WARN "Log trimming failed (non-fatal)") ->
  triple I (trimLogFile env p a b) (fun _ => True).
Proof.
  intros H1 H2. unfold trimLogFile.
  apply triple_tryCatch.
  - eapply triple_bind; [apply triple_emit, H1|]. intros _ _.
    destruct (logTrimOutcome env p);
      [apply triple_throw | now apply triple_ret].
  - intros e. now apply triple_log.
Qed.

Lemma triple_loadCache (I : event -> Prop) (env : Env) (dir : jsstring) :
  I (ConsoleLog WARN "Cache read failed; starting fresh.") ->
  triple I (loadCache env dir)
    (fun c =>
       (exists j, cacheFile env = Json j /\ cacheSchema j = Some c)
       \/ exists k, c = freshCache (ofZ (clock env k))).
Proof.
  intros H. unfold loadCache. apply triple_tryCatch.
  - destruct (cacheFile env) as [| e | | j] eqn:Ef; try apply triple_throw.
    + eapply triple_bind; [apply triple_now|]. intros now [k ->].
      apply triple_ret. eauto.
    + unfold parseCache. destruct (cacheSchema j) eqn:Ec;
        [apply triple_ret; eauto | apply triple_throw].
  - intros _. eapply triple_bind; [apply triple_log, H|]. intros _ _.
    eapply triple_bind; [apply triple_now|]. intros now [k ->].
    apply triple_ret. eauto.
Qed.

Lemma triple_writeFile (I : event -> Prop) (env : Env) (p : jsstring)
  (c : Cache) :
  I (WriteFile p c) -> triple I (writeFile env p c) (fun _ => True).
Proof. intros H s. split; [repeat constructor; exact H | auto]. Qed.

Lemma triple_saveCache (I : event -> Prop) (env : Env) (dir : jsstring)
  (c : Cache) :
  (forall k,
      I (WriteFile (getCacheFilePath dir)
           (withUpdatedAt c (ofZ (clock env k))))) ->
  triple I (saveCache env dir c)
    (fun c' => exists k, c' = withUpdatedAt c (ofZ (clock env k))).
Proof.
  intros H. unfold saveCache. cbv zeta.
  eapply triple_bind; [apply triple_now|]. intros now [k ->].
  eapply triple_bind; [apply triple_writeFile, H|]. intros _ _.
  apply triple_ret. eauto.
Qed.

Lemma triple_executeFileAsync (I : event -> Prop) (env : Env)
  (file : string) (args : list string) :
  I (ExecFile file args) ->
  triple I (executeFileAsync env file args)
    (fun stdout => execFile env file args = inr stdout).
Proof.
  intros H. unfold executeFileAsync.
  eapply triple_bind; [apply triple_emit, H|]. intros _ _.
  destruct (execFile env file args);
    [apply triple_throw | now apply triple_ret].
Qed.

Lemma triple_isSpotifyRunning (I : event -> Prop) (env : Env) :
  I (ExecFile "/usr/bin/pgrep" ["Spotify"]) ->
  triple I (isSpotifyRunning env) (fun _ => True).
Proof.
  intros H. unfold isSpotifyRunning. apply triple_tryCatch.
  - eapply triple_bind; [apply triple_executeFileAsync, H|]. intros _ _.
    now apply triple_ret.
  - intros _. now apply triple_ret.
Qed.

Lemma triple_osascript (I : event -> Prop) (env : Env) (script : string) :
  I (ExecFile "/usr/bin/osascript" ["-e"; script]) ->
  triple I (osascript env script)
    (fun out =>
       exists stdout,
         execFile env "/usr/bin/osascript" ["-e"; script] = inr stdout
         /\ out = trim stdout).
Proof.
  intros H. unfold osascript.
  eapply triple_bind; [apply triple_executeFileAsync, H|]. intros stdout E.
  apply triple_ret. exists stdout. now split.
Qed.

Lemma triple_getSpotifyState (I : event -> Prop) (env : Env) :
  I (ExecFile "/usr/bin/osascript" ["-e"; stateScript]) ->
  triple I (getSpotifyState env) (fun _ => True).
Proof.
  intros H. unfold getSpotifyState. apply triple_tryCatch.
  - eapply triple_bind; [apply triple_osascript, H|]. intros state _.
    repeat match goal with
      | |- triple _ (if ?b then _ else _) _ => destruct b
      end; now apply triple_ret.
  - intros _. now apply triple_ret.
Qed.

Lemma triple_getSpotifyTrack (I : event -> Prop) (env : Env) :
  I (ExecFile "/usr/bin/osascript" ["-e"; trackScript]) ->
  triple I (getSpotifyTrack env)
    (fun song =>
       exists stdout,
         execFile env "/usr/bin/osascript" ["-e"; trackScript] = inr stdout
         /\ song = trim stdout).
Proof.
  intros H. unfold getSpotifyTrack.
  eapply triple_bind; [apply triple_osascript, H|]. intros song E.
  now apply triple_ret.
Qed.

Lemma triple_callSlackApi {T} (I : event -> Prop) (outcome : fetchOutcome T)
  (token : jsstring) (method : string) (body : option StatusBody) :
  I (Fetch token method body) ->
  triple I (callSlackApi outcome token method body)
    (fun r => outcome = JsonBody r).
Proof.
  intros H. unfold callSlackApi.
  eapply triple_bind; [apply triple_emit, H|]. intros _ _.
  destruct outcome; try apply triple_throw. now apply triple_ret.
Qed.

Lemma triple_retryFrom (I : event -> Prop) (env : Env) (token : jsstring) :
  I (Fetch token "users.profile.get" None) ->
  I (ConsoleLog WARN "Slack profile.get failed, retrying") ->
  (forall ms, I (SetTimeout ms)) ->
  forall remaining attempt lastError,
    triple I (retryFrom env token remaining attempt lastError)
      (fun r => exists k, profileGetOutcome env k = JsonBody r).
Proof.
  intros Hf Hw Ht. induction remaining as [|remaining IH];
    intros attempt lastError; simpl.
  - apply triple_throw.
  - eapply triple_bind
      with (R := fun step =>
                   match step with
                   | inr r => profileGetOutcome env attempt = JsonBody r
                   | inl _ => True
                   end).
    + apply triple_tryCatch.
      * eapply triple_bind; [apply triple_callSlackApi, Hf|].
        intros r Hr. now apply triple_ret.
      * intros e. eapply triple_bind; [apply triple_log, Hw|]. intros _ _.
        eapply triple_bind; [apply triple_emit, Ht|]. intros _ _.
        now apply triple_ret.
    + intros [e | r] Hstep; [apply IH|]. apply triple_ret. eauto.
Qed.

Lemma triple_getSlackProfileWithRetry (I : event -> Prop) (env : Env)
  (token : jsstring) :
  I (Fetch token "users.profile.get" None) ->
  I (ConsoleLog WARN "Slack profile.get failed, retrying") ->
  (forall ms, I (SetTimeout ms)) ->
  triple I (getSlackProfileWithRetry env token)
    (fun r => exists k, profileGetOutcome env k = JsonBody r).
Proof. intros. now apply triple_retryFrom. Qed.

(** The block of [main] that records a foreign status. *)
Lemma triple_record (I : event -> Prop) (env : Env) (b : bool)
  (c : Cache) (f : number -> Cache) :
  triple I
    (if b
     then bind (currentTimestampSeconds env) (fun now => ret (f now))
     else ret c)
    (fun c' => c' = c \/ exists k, c' = f (ofZ (clock env k))).
Proof.
  destruct b.
  - eapply triple_bind; [apply triple_now|]. intros now [k ->].
    apply triple_ret. eauto.
  - apply triple_ret. auto.
Qed.

(** The invariant of a run, from the invariant of [program]. *)
Lemma triple_run (I : event -> Prop) (env : Env) :
  triple I (program env) (fun _ => True) -> Forall I (traceOf (run env)).
Proof. intros H. apply (H initialState). Qed.

(** Go through [main] step by step; what is left to show is that each
    event satisfies the invariant, given what the steps before it
    returned. *)
Ltac triple_step env :=
  lazymatch goal with
  | |- triple _ (bind (loadConfiguration _ _) _) _ =>
      eapply triple_bind;
      [apply triple_loadConfiguration | intros ?loaded ?Hloaded]
  | |- triple _ (bind (trimLogFile _ _ _ _) _) _ =>
      eapply triple_bind; [apply triple_trimLogFile | intros _ _]
  | |- triple _ (bind (log _ _) _) _ =>
      eapply triple_bind; [apply triple_log | intros _ _]
  | |- triple _ (bind (loadCache _ _) _) _ =>
      eapply triple_bind; [apply triple_loadCache | intros ?cache ?Hcache]
  | |- triple _ (bind (isSpotifyRunning _) _) _ =>
      eapply triple_bind; [apply triple_isSpotifyRunning | intros ?running _]
  | |- triple _ (bind (getSpotifyState _) _) _ =>
      eapply triple_bind; [apply triple_getSpotifyState | intros ?state _]
  | |- triple _ (bind (getSlackProfileWithRetry _ _) _) _ =>
      eapply triple_bind;
      [apply triple_getSlackProfileWithRetry | intros ?r ?Hread]
  | |- triple _ (bind (if _ then bind (currentTimestampSeconds _) _
                       else ret _) _) _ =>
      eapply triple_bind; [apply triple_record | intros ?cache ?Hrecord]
  | |- triple _ (bind (saveCache _ _ _) _) _ =>
      eapply triple_bind; [apply triple_saveCache | intros ?cache ?Hsaved]
  | |- triple _ (bind (getSpotifyTrack _) _) _ =>
      eapply triple_bind; [apply triple_getSpotifyTrack | intros ?song ?Hsong]
  | |- triple _ (bind (currentTimestampSeconds _) _) _ =>
      eapply triple_bind; [apply triple_now | intros ?now ?Hnow]
  | |- triple _ (bind (callSlackApi _ _ _ _) _) _ =>
      eapply triple_bind; [apply triple_callSlackApi | intros ?response _]
  | |- triple _ (bind (setExitCode _) _) _ =>
      eapply triple_bind; [apply triple_setExitCode | intros _ _]
  | |- triple _ (log _ _) _ => apply triple_log
  | |- triple _ (setExitCode _) _ => apply triple_setExitCode
  | |- triple _ (tryCatch _ _) _ => apply triple_tryCatch; [|intros ?e]
  | |- triple _ (if ?b then _ else _) _ => destruct b eqn:?
  end;
  cbn [fst snd].

Ltac triple_main env :=
  apply triple_run; unfold program, main; cbv zeta;
  repeat triple_step env.

(** X9: whatever the configuration, Slack and the player answer,
    a run starts no process but [pgrep Spotify] and [osascript] with one
    of the two fixed scripts: nothing read from a file or from the network
    reaches a command line. *)
Theorem run_starts_only_known_commands (env : Env) :
  Forall knownCommand (traceOf (run env)).
Proof.
  triple_main env.
  all: try (intros; exact I).
  all: simpl; tauto.
Qed.

(** X10: the only calls a run makes to Slack are profile reads
    without a body and status-set calls; each carries the token of the
    configuration, and the body of a set call holds the censored track
    label the player gave, the configured emoji, and a clock reading plus
    the configured time to live. *)
Theorem run_calls_slack_as_configured
  (env : Env) (config : Config.t) (path : jsstring) :
  configOutcome env = inr (config, path) ->
  Forall (slackCallOf env config) (traceOf (run env)).
Proof.
  intros Hc. triple_main env.
  all: try (intros; exact I).
  all: rewrite Hc in Hloaded; injection Hloaded as <-; cbn [fst].
  - split; [reflexivity | left; split; reflexivity].
  - split; [reflexivity | right; split; [reflexivity|]].
    eexists. split; [reflexivity|].
    destruct Hsong as (stdout & Hs & ->). destruct Hnow as [k ->].
    unfold bodyOf. cbn [body_text body_emoji body_expiration].
    split; [exists stdout; now split|]. split; [reflexivity|].
    now exists k.
Qed.

Lemma run_calls_slack_as_configured_witness :
  Forall (slackCallOf envPlaying sampleConfig) (traceOf (run envPlaying)).
Proof.
  apply (run_calls_slack_as_configured envPlaying sampleConfig
           (lit "/repo/config.local.json")).
  reflexivity.
Defined.


(** ** The cache stays loadable *)

Lemma finiteNonNegative_ofZ (z : Z) : (0 <= z)%Z -> finiteNonNegative (ofZ z).
Proof.
  intros H. split; [reflexivity|]. unfold ofZ, geZero.
  apply Qle_bool_iff. change 0%Q with (inject_Z 0). now rewrite <- Zle_Qle.
Qed.

Lemma finiteNonNegative_add (z : Z) (n : number) :
  (0 <= z)%Z -> finiteNonNegative n ->
  finiteNonNegative (number_add (ofZ z) n).
Proof.
  intros Hz [Hf Hg]. destruct n as [q | | |]; try discriminate.
  unfold ofZ, number_add. split; [reflexivity|].
  unfold geZero in *. apply Qle_bool_iff in Hg. apply Qle_bool_iff.
  rewrite Qred_correct.
  setoid_replace 0%Q with (0 + 0)%Q by ring.
  apply Qplus_le_compat; [|exact Hg].
  change 0%Q with (inject_Z 0). now rewrite <- Zle_Qle.
Qed.

Lemma statusTtlSeconds_valid (dir : jsstring) (config : Config.t) :
  ValidConfig config ->
  finiteNonNegative (Runtime.statusTtlSeconds (runtimeConfigOf dir config)).
Proof.
  intros (_ & _ & _ & _ & Hl & _). simpl.
  destruct (Config.statusTtlSeconds config); simpl in *; auto.
  split; reflexivity.
Qed.

Lemma Storable_fresh (z : Z) : (0 <= z)%Z -> Storable (freshCache (ofZ z)).
Proof.
  intros H. unfold Storable, freshCache. simpl.
  repeat split; try constructor; now apply finiteNonNegative_ofZ.
Qed.

Lemma Storable_withUpdatedAt (c : Cache) (z : Z) :
  Storable c -> (0 <= z)%Z -> Storable (withUpdatedAt c (ofZ z)).
Proof.
  intros (_ & H) Hz. split; [now apply finiteNonNegative_ofZ | exact H].
Qed.

Lemma Storable_withLastNonEmptyNonOwned (c : Cache) (text emoji : jsstring)
  (expiration : number) (z : Z) :
  Storable c -> finiteNonNegative expiration -> (0 <= z)%Z ->
  Storable
    (withLastNonEmptyNonOwned c
       {| os_text := text; os_emoji := emoji;
          os_expiration := expiration; observedAt := ofZ z |}).
Proof.
  intros (Hu & _ & H) Hx Hz. split; [exact Hu|]. split; [|exact H].
  simpl. split; [exact Hx | now apply finiteNonNegative_ofZ].
Qed.

Lemma Storable_withLastSetByScript (c : Cache) (text emoji : jsstring)
  (expiration : number) (z : Z) :
  Storable c -> finiteNonNegative expiration -> (0 <= z)%Z ->
  Storable
    (withLastSetByScript c
       {| ss_text := text; ss_emoji := emoji;
          ss_expiration := expiration; setAt := ofZ z |}).
Proof.
  intros (Hu & Hl & He & _ & H) Hx Hz.
  split; [exact Hu|]. split; [exact Hl|]. split; [exact He|].
  split; [|exact H].
  simpl. split; [exact Hx | now apply finiteNonNegative_ofZ].
Qed.

Lemma run_writes_storable (env : Env) :
  WellBehaved env -> Forall (storableWrite env) (traceOf (run env)).
Proof.
  intros (Hclock & Hconfig & Hslack & Hfile). triple_main env.
  all: try (intros; exact I).
  all: destruct loaded as [config path]; cbn [fst] in *.
  all: assert (Hstart : Storable cache)
         by (destruct Hcache as [(j & Hj & Hs) | [k ->]];
             [ eapply cacheSchema_storable; [apply (Hfile j Hj) | exact Hs]
             | apply Storable_fresh, Hclock ]).
  all: destruct Hread as [attempt Hread].
  all: assert (Hrecorded : Storable cache0)
         by (destruct Hrecord as [-> | [k ->]]; auto;
             apply Storable_withLastNonEmptyNonOwned; auto;
             apply (Hslack attempt r Hread)).
  - intros k. split; [reflexivity|].
    now apply Storable_withUpdatedAt.
  - intros k. split; [reflexivity|].
    destruct Hsaved as [k1 ->]. destruct Hnow as [k2 ->].
    destruct Hnow0 as [k3 ->].
    apply Storable_withUpdatedAt; auto.
    apply Storable_withLastSetByScript; auto.
    + now apply Storable_withUpdatedAt.
    + apply finiteNonNegative_add; auto.
      eapply statusTtlSeconds_valid, Hconfig, Hloaded.
Qed.

(** X12: when the clock is not before the epoch, the
    configuration is one the schema let through, Slack reports an
    expiration that is finite and not negative, and the cache file holds
    JSON, every record [saveCache] writes during the run goes to the cache
    path, and is one the next run loads back unchanged. *)
Theorem run_writes_loadable_caches (env : Env) :
  WellBehaved env ->
  forall filePath content,
    In (WriteFile filePath content) (traceOf (run env)) ->
    filePath = getCacheFilePath (cwd env)
    /\ forall env' repositoryDirectory s,
         cacheFile env' = Json (cacheToJson content) ->
         loadCache env' repositoryDirectory s = ([], s, Ok content).
Proof.
  intros Hw filePath content Hin.
  pose proof (run_writes_storable env Hw) as H.
  rewrite Forall_forall in H. destruct (H _ Hin) as [-> Hs].
  split; [reflexivity|]. intros env' dir s Hf.
  apply loadCache_valid with (j := cacheToJson content); auto.
  now apply cacheToJson_accepted.
Qed.

Lemma run_writes_loadable_caches_witness :
  getCacheFilePath (cwd envPlaying) = getCacheFilePath (cwd envPlaying)
  /\ forall env' repositoryDirectory s,
       cacheFile env'
       = Json (cacheToJson
                 (withUpdatedAt (freshCache (ofZ 1700000000))
                    (ofZ 1700000001))) ->
       loadCache env' repositoryDirectory s
       = ([], s,
          Ok (withUpdatedAt (freshCache (ofZ 1700000000))
                (ofZ 1700000001))).
Proof.
  apply (run_writes_loadable_caches envPlaying).
  - split; [intros k; unfold envPlaying, sampleEnv; cbn [clock]; lia|].
    split; [|split].
    + intros config path H. injection H as <- _.
      unfold ValidConfig, trimmedNonEmpty. simpl.
      repeat split; try exact I. discriminate.
    + intros k r H. injection H as <-. split; reflexivity.
    + intros j H. discriminate H.
  - vm_compute. repeat (try (left; reflexivity); right).
Defined.

(** ** With the configuration found on disk *)

Lemma statusEmoji_valid (dir : jsstring) (config : Config.t) :
  ValidConfig config ->
  trimmedNonEmpty (Runtime.statusEmoji (runtimeConfigOf dir config)).
Proof.
  intros (_ & _ & He & _). simpl.
  destruct (Config.statusEmoji config); simpl in *; auto.
  split; [reflexivity | discriminate].
Qed.

Lemma number_le_add (z : Z) (n : number) :
  finiteNonNegative n -> number_le (ofZ z) (number_add (ofZ z) n) = true.
Proof.
  intros [Hf Hg]. destruct n as [q | | |]; try discriminate.
  unfold ofZ, number_add, number_le. unfold geZero in Hg.
  apply Qle_bool_iff in Hg. apply Qle_bool_iff. rewrite Qred_correct.
  setoid_replace (inject_Z z) with (inject_Z z + 0)%Q at 1 by ring.
  apply Qplus_le_compat; [apply Qle_refl | exact Hg].
Qed.

(** X25: when the configuration is the one
    [loadConfiguration] finds on disk, no call goes to Slack with a blank
    or untrimmed token, and a status the run sets has an emoji that is
    trimmed and not empty and an expiration that is not before the clock
    reading it was computed from. *)
Theorem run_from_disk_makes_sound_calls
  (env : Env) (fs : FileSystem) (overridePath : option jsstring) :
  configOutcome env = OnDisk.loadConfiguration fs overridePath (cwd env) ->
  Forall (soundCall env) (traceOf (run env)).
Proof.
  intros Hdisk. triple_main env.
  all: try (intros; exact I).
  all: destruct loaded as [config path]; cbn [fst].
  all: assert (Hvalid : ValidConfig config)
         by (rewrite Hdisk in Hloaded; revert Hloaded;
             unfold OnDisk.loadConfiguration, readConfigFile; cbv zeta;
             destruct (existsSync fs _); [|discriminate]; simpl;
             destruct (fileAt fs _); try discriminate;
             destruct (parseConfig j) eqn:Ep; [|discriminate];
             intros H; injection H as <- _;
             now apply configSchema_valid in Ep).
  - split; [apply Hvalid | exact I].
  - split; [apply Hvalid|].
    cbn [whenSet body_emoji body_expiration].
    split; [now apply (statusEmoji_valid (cwd env))|].
    destruct Hnow as [k ->]. exists k.
    apply number_le_add. now apply statusTtlSeconds_valid.
Qed.

Lemma run_from_disk_makes_sound_calls_witness :
  Forall (soundCall envFromDisk) (traceOf (run envFromDisk)).
Proof.
  apply (run_from_disk_makes_sound_calls envFromDisk sampleFiles None).
  reflexivity.
Defined.

(** * Log trimming is not fatal *)

Lemma sameBesidesTrimming_refl {A} (m1 m2 : M A) :
  m1 = m2 -> sameBesidesTrimming m1 m2.
Proof. intros -> s. auto. Qed.

Lemma sameBesidesTrimming_bind {A B} (c1 c2 : M A) (k1 k2 : A -> M B) :
  sameBesidesTrimming c1 c2 ->
  (forall a, sameBesidesTrimming (k1 a) (k2 a)) ->
  sameBesidesTrimming (bind c1 k1) (bind c2 k2).
Proof.
  intros Hc Hk s. unfold bind. destruct (Hc s) as (Ht & Hs & Hr).
  destruct (c1 s) as [[t1 s1] r1]. destruct (c2 s) as [[t2 s2] r2].
  simpl in *. subst s2 r2. destruct r1 as [a | e]; simpl; auto.
  destruct (Hk a s1) as (Ht' & Hs' & Hr').
  destruct (k1 a s1) as [[u1 v1] w1]. destruct (k2 a s1) as [[u2 v2] w2].
  simpl in *. unfold besidesTrimming in *.
  rewrite !filter_app. split; [congruence | auto].
Qed.

Lemma sameBesidesTrimming_tryCatch {A} (c1 c2 : M A) (h1 h2 : exn -> M A) :
  sameBesidesTrimming c1 c2 ->
  (forall e, sameBesidesTrimming (h1 e) (h2 e)) ->
  sameBesidesTrimming (tryCatch c1 h1) (tryCatch c2 h2).
Proof.
  intros Hc Hh s. unfold tryCatch. destruct (Hc s) as (Ht & Hs & Hr).
  destruct (c1 s) as [[t1 s1] r1]. destruct (c2 s) as [[t2 s2] r2].
  simpl in *. subst s2 r2. destruct r1 as [a | e]; simpl; auto.
  destruct (Hh e s1) as (Ht' & Hs' & Hr').
  destruct (h1 e s1) as [[u1 v1] w1]. destruct (h2 e s1) as [[u2 v2] w2].
  simpl in *. unfold besidesTrimming in *.
  rewrite !filter_app. split; [congruence | auto].
Qed.

Lemma sameBesidesTrimming_trimLogFile (env1 env2 : Env) (p : jsstring)
  (a b : number) :
  sameBesidesTrimming (trimLogFile env1 p a b) (trimLogFile env2 p a b).
Proof.
  intros s. unfold trimLogFile, tryCatch, bind, emit, log. simpl.
  destruct (logTrimOutcome env1 p); destruct (logTrimOutcome env2 p);
    simpl; auto.
Qed.

(** X5: whether trimming the logs works or fails changes
    nothing else in a run: the same processes are started, the same calls
    go to Slack, the same cache is written, the same lines are logged but
    for the warning about the trim, and the run ends with the same result
    and exit code. *)
Theorem log_trimming_is_not_fatal
  (env : Env) (outcome : jsstring -> option exn) :
  let r := run env in
  let r' := run (envWithLogTrimOutcome env outcome) in
  besidesTrimming (traceOf r') = besidesTrimming (traceOf r)
  /\ stateOf r' = stateOf r
  /\ snd r' = snd r.
Proof.
  cbv zeta. unfold traceOf, stateOf, run.
  apply (sameBesidesTrimming_tryCatch
           (main (envWithLogTrimOutcome env outcome)) (main env)).
  - unfold main. cbv zeta.
    apply sameBesidesTrimming_bind; [now apply sameBesidesTrimming_refl|].
    intros loaded.
    apply sameBesidesTrimming_bind;
      [apply sameBesidesTrimming_trimLogFile|]. intros _.
    apply sameBesidesTrimming_bind;
      [apply sameBesidesTrimming_trimLogFile|]. intros _.
    now apply sameBesidesTrimming_refl.
  - intros e. now apply sameBesidesTrimming_refl.
Qed.

(** * What the log shows *)

(** ** Metadata of a log line *)

(** X8: in the metadata [log] prints, no string value holds a
    token, at any depth of the object: the replacer redacts each one. *)
Theorem logged_metadata_holds_no_token :
  forall (metadata : json) (s : jsstring),
    In s (stringValues (sanitized metadata)) -> ~ ContainsToken s.
Proof.
  fix IH 1. intros [| b | n | v | items | fields] s; simpl; try tauto.
  - intros [<- | []]. apply NoToken_iff. unfold redactSlackToken.
    apply (replaceTokens_clean (List.length v)). lia.
  - induction items as [|x xs IHxs]; simpl; [tauto|].
    intros H. apply in_app_or in H. destruct H as [H | H]; eauto.
  - induction fields as [|[k x] kvs IHkvs]; simpl; [tauto|].
    intros H. apply in_app_or in H. destruct H as [H | H]; eauto.
Qed.

Lemma logged_metadata_holds_no_token_witness :
  ~ ContainsToken (lit "token xox*-REDACTED refused").
Proof.
  apply (logged_metadata_holds_no_token
           (JObj [(lit "attempt", JNum (ofZ 2));
                  (lit "error", JStr (lit "token xoxp-12-ab refused"))])).
  left. reflexivity.
Defined.

(** ** Escaping *)

Lemma replaceAll_flat_map (c : N) (by_ : jsstring) (f : N -> jsstring)
  (s : jsstring) :
  replaceAll c by_ (flat_map f s)
  = flat_map (fun x => replaceAll c by_ (f x)) s.
Proof.
  unfold replaceAll. induction s as [|x s IH]; simpl; auto.
  now rewrite flat_map_app, IH.
Qed.

Lemma escapeHtml_units (input : jsstring) :
  escapeHtml input = flat_map escapeUnit input.
Proof.
  unfold escapeHtml. unfold replaceAll at 5.
  rewrite !replaceAll_flat_map.
  apply flat_map_ext. intros x. unfold escapeUnit.
  destruct (N.eqb_spec x 38) as [-> | H38]; [reflexivity|].
  destruct (N.eqb_spec x 60) as [-> | H60]; [reflexivity|].
  destruct (N.eqb_spec x 62) as [-> | H62]; [reflexivity|].
  destruct (N.eqb_spec x 34) as [-> | H34]; [reflexivity|].
  destruct (N.eqb_spec x 39) as [-> | H39]; [reflexivity|].
  unfold replaceAll. simpl.
  apply N.eqb_neq in H60, H62, H34, H39.
  rewrite H60. simpl. rewrite H62. simpl. rewrite H34. simpl.
  now rewrite H39.
Qed.

(** X24: [escapeHtml] works as one pass that replaces each of the
    five special code units by its entity (an ampersand it has written is
    not escaped again), and what it returns holds no [<], [>], double or
    single quote. *)
Theorem escapeHtml_leaves_no_markup (input : jsstring) :
  escapeHtml input = flat_map escapeUnit input
  /\ forall c, In c (escapeHtml input) -> isMarkup c = false.
Proof.
  split; [apply escapeHtml_units|].
  rewrite escapeHtml_units. intros c H.
  apply in_flat_map in H. destruct H as (x & _ & H).
  unfold escapeUnit in H.
  repeat match type of H with
    | In _ (if ?b then _ else _) =>
        let E := fresh "E" in destruct b eqn:E
    end;
    try (simpl in H;
         repeat (destruct H as [<- | H]; [reflexivity|]); now destruct H).
  simpl in H. destruct H as [<- | []].
  unfold isMarkup. now rewrite E0, E1, E2, E3.
Qed.

(** * The cache file decides nothing *)

(** ** Computations without state *)

Lemma stateless_ret {A} (a : A) : stateless (ret a).
Proof. now exists [], (Ok a). Qed.

Lemma stateless_throw {A} (e : exn) : stateless (@throw A e).
Proof. now exists [], (Throw e). Qed.

Lemma stateless_emit (e : event) : stateless (emit e).
Proof. now exists [e], (Ok tt). Qed.

Lemma stateless_log (level : LogLevel) (message : string) :
  stateless (log level message).
Proof. apply stateless_emit. Qed.

Lemma stateless_bind {A B} (c : M A) (k : A -> M B) :
  stateless c -> (forall a, stateless (k a)) -> stateless (bind c k).
Proof.
  intros (t & r & Hc) Hk. destruct r as [a | e].
  - destruct (Hk a) as (t' & r' & Hk'). exists (t ++ t'), r'.
    intros s. unfold bind. now rewrite Hc, Hk'.
  - exists t, (Throw e). intros s. unfold bind. now rewrite Hc.
Qed.

Lemma stateless_tryCatch {A} (c : M A) (h : exn -> M A) :
  stateless c -> (forall e, stateless (h e)) -> stateless (tryCatch c h).
Proof.
  intros (t & r & Hc) Hh. destruct r as [a | e].
  - exists t, (Ok a). intros s. unfold tryCatch. now rewrite Hc.
  - destruct (Hh e) as (t' & r' & Hh'). exists (t ++ t'), r'.
    intros s. unfold tryCatch. now rewrite Hc, Hh'.
Qed.

Lemma stateless_loadConfiguration (env : Env) (dir : jsstring) :
  stateless (loadConfiguration env dir).
Proof.
  unfold loadConfiguration.
  destruct (configOutcome env); [apply stateless_throw | apply stateless_ret].
Qed.

Lemma stateless_trimLogFile (env : Env) (p : jsstring) (a b : number) :
  stateless (trimLogFile env p a b).
Proof.
  unfold trimLogFile. apply stateless_tryCatch.
  - apply stateless_bind; [apply stateless_emit|]. intros _.
    destruct (logTrimOutcome env p);
      [apply stateless_throw | apply stateless_ret].
  - intros e. apply stateless_log.
Qed.

Lemma stateless_executeFileAsync (env : Env) (file : string)
  (args : list string) :
  stateless (executeFileAsync env file args).
Proof.
  unfold executeFileAsync.
  apply stateless_bind; [apply stateless_emit|]. intros _.
  destruct (execFile env file args);
    [apply stateless_throw | apply stateless_ret].
Qed.

Lemma stateless_osascript (env : Env) (script : string) :
  stateless (osascript env script).
Proof.
  unfold osascript.
  apply stateless_bind; [apply stateless_executeFileAsync|]. intros stdout.
  apply stateless_ret.
Qed.

Lemma stateless_isSpotifyRunning (env : Env) :
  stateless (isSpotifyRunning env).
Proof.
  unfold isSpotifyRunning. apply stateless_tryCatch.
  - apply stateless_bind; [apply stateless_executeFileAsync|]. intros _.
    apply stateless_ret.
  - intros _. apply stateless_ret.
Qed.

Lemma stateless_getSpotifyState (env : Env) :
  stateless (getSpotifyState env).
Proof.
  unfold getSpotifyState. apply stateless_tryCatch.
  - apply stateless_bind; [apply stateless_osascript|]. intros state.
    repeat match goal with
      | |- stateless (if ?b then _ else _) => destruct b
      end; apply stateless_ret.
  - intros _. apply stateless_ret.
Qed.

Lemma stateless_getSpotifyTrack (env : Env) :
  stateless (getSpotifyTrack env).
Proof.
  unfold getSpotifyTrack.
  apply stateless_bind; [apply stateless_osascript|]. intros song.
  apply stateless_ret.
Qed.

Lemma stateless_callSlackApi {T} (outcome : fetchOutcome T)
  (token : jsstring) (method : string) (body : option StatusBody) :
  stateless (callSlackApi outcome token method body).
Proof.
  unfold callSlackApi.
  apply stateless_bind; [apply stateless_emit|]. intros _.
  destruct outcome; try apply stateless_throw. apply stateless_ret.
Qed.

Lemma stateless_retryFrom (env : Env) (token : jsstring) :
  forall remaining attempt lastError,
    stateless (retryFrom env token remaining attempt lastError).
Proof.
  induction remaining as [|remaining IH]; intros attempt lastError; simpl.
  - apply stateless_throw.
  - apply stateless_bind.
    + apply stateless_tryCatch.
      * apply stateless_bind; [apply stateless_callSlackApi|].
        intros r. apply stateless_ret.
      * intros e. apply stateless_bind; [apply stateless_log|]. intros _.
        apply stateless_bind; [apply stateless_emit|]. intros _.
        apply stateless_ret.
    + intros [e | r]; [apply IH | apply stateless_ret].
Qed.

Lemma stateless_getSlackProfileWithRetry (env : Env) (token : jsstring) :
  stateless (getSlackProfileWithRetry env token).
Proof. apply stateless_retryFrom. Qed.

(** ** Looking the same from outside *)

Lemma outwardOf_app (a b : list event) :
  outwardOf (a ++ b) = outwardOf a ++ outwardOf b.
Proof. apply flat_map_app. Qed.

Lemma sameOutward_stateless {A} (m : M A) :
  stateless m -> sameOutward eq m m.
Proof.
  intros (t & r & H) s1 s2 Hw He. rewrite !H. simpl.
  repeat split; auto. now destruct r.
Qed.

Lemma sameOutward_ret {A} (R : A -> A -> Prop) (a b : A) :
  R a b -> sameOutward R (ret a) (ret b).
Proof. intros H s1 s2 Hw He. simpl. auto. Qed.

Lemma sameOutward_bind {A B} (R : A -> A -> Prop) (R' : B -> B -> Prop)
  (c1 c2 : M A) (k1 k2 : A -> M B) :
  sameOutward R c1 c2 ->
  (forall a b, R a b -> sameOutward R' (k1 a) (k2 b)) ->
  sameOutward R' (bind c1 k1) (bind c2 k2).
Proof.
  intros Hc Hk s1 s2 Hw He. unfold bind.
  destruct (Hc s1 s2 Hw He) as (Ht & Hw' & He' & Hr).
  destruct (c1 s1) as [[t1 u1] [a | e1]];
    destruct (c2 s2) as [[t2 u2] [b | e2]]; simpl in *; try contradiction.
  - destruct (Hk a b Hr u1 u2 Hw' He') as (Ht2 & Hw2 & He2 & Hr2).
    destruct (k1 a u1) as [[t1' u1'] r1]. destruct (k2 b u2) as [[t2' u2'] r2].
    simpl in *. rewrite !outwardOf_app. split; [congruence | auto].
  - auto.
Qed.

Lemma sameOutward_tryCatch {A} (R : A -> A -> Prop) (c1 c2 : M A)
  (h1 h2 : exn -> M A) :
  sameOutward R c1 c2 ->
  (forall e, sameOutward R (h1 e) (h2 e)) ->
  sameOutward R (tryCatch c1 h1) (tryCatch c2 h2).
Proof.
  intros Hc Hh s1 s2 Hw He. unfold tryCatch.
  destruct (Hc s1 s2 Hw He) as (Ht & Hw' & He' & Hr).
  destruct (c1 s1) as [[t1 u1] [a | e1]];
    destruct (c2 s2) as [[t2 u2] [b | e2]]; simpl in *; try contradiction.
  - auto.
  - subst e2. destruct (Hh e1 u1 u2 Hw' He') as (Ht2 & Hw2 & He2 & Hr2).
    destruct (h1 e1 u1) as [[t1' u1'] r1].
    destruct (h2 e1 u2) as [[t2' u2'] r2].
    simpl in *. rewrite !outwardOf_app. split; [congruence | auto].
Qed.

Lemma sameOutward_now (env1 env2 : Env) :
  sameOutward whatever (currentTimestampSeconds env1)
    (currentTimestampSeconds env2).
Proof. intros s1 s2 Hw He. simpl. unfold whatever. auto. Qed.

Lemma sameOutward_setExitCode (code : Z) :
  sameOutward eq (setExitCode code) (setExitCode code).
Proof. intros s1 s2 Hw He. simpl. auto. Qed.

Lemma sameOutward_loadCache (env1 env2 : Env) (dir : jsstring) :
  sameOutward whatever (loadCache env1 dir) (loadCache env2 dir).
Proof.
  intros s1 s2 Hw He.
  unfold loadCache, tryCatch, parseCache, whatever.
  destruct (cacheFile env1) as [| e1 | | j1];
    destruct (cacheFile env2) as [| e2 | | j2]; simpl;
    try destruct (cacheSchema j1); try destruct (cacheSchema j2);
    simpl; auto.
Qed.

Lemma sameOutward_saveCache (env1 env2 : Env) (dir : jsstring)
  (c1 c2 : Cache) :
  writeFileOutcome env1 = writeFileOutcome env2 ->
  sameOutward whatever (saveCache env1 dir c1) (saveCache env2 dir c2).
Proof.
  intros Hout s1 s2 Hw He.
  unfold saveCache, bind, currentTimestampSeconds, writeFile, whatever.
  simpl. rewrite Hout, Hw.
  destruct (writeFileOutcome env2 (writes s2)); simpl; auto.
Qed.

Lemma sameOutward_record (env1 env2 : Env) (b : bool) (c1 c2 : Cache)
  (f1 f2 : number -> Cache) :
  sameOutward whatever
    (if b
     then bind (currentTimestampSeconds env1) (fun now => ret (f1 now))
     else ret c1)
    (if b
     then bind (currentTimestampSeconds env2) (fun now => ret (f2 now))
     else ret c2).
Proof.
  destruct b; intros s1 s2 Hw He; simpl; unfold whatever; auto.
Qed.

Lemma sameOutward_set {T} (outcome : fetchOutcome T) (token : jsstring)
  (method : string) (text emoji : jsstring) (x1 x2 : number) :
  sameOutward eq
    (callSlackApi outcome token method
       (Some {| body_text := text; body_emoji := emoji;
                body_expiration := x1 |}))
    (callSlackApi outcome token method
       (Some {| body_text := text; body_emoji := emoji;
                body_expiration := x2 |})).
Proof.
  intros s1 s2 Hw He. unfold callSlackApi, bind, emit. simpl.
  destruct outcome; simpl; auto.
Qed.

(** Go through two runs of [main] side by side. *)
Ltac pair_step :=
  lazymatch goal with
  | |- sameOutward _ (bind (currentTimestampSeconds _) _) _ =>
      eapply sameOutward_bind; [apply sameOutward_now | intros ?now1 ?now2 _]
  | |- sameOutward _ (bind (loadCache _ _) _) _ =>
      eapply sameOutward_bind;
      [apply sameOutward_loadCache | intros ?cache1 ?cache2 _]
  | |- sameOutward _ (bind (saveCache _ _ _) _) _ =>
      eapply sameOutward_bind;
      [apply sameOutward_saveCache; reflexivity | intros ?cache1 ?cache2 _]
  | |- sameOutward _ (bind (if _ then bind (currentTimestampSeconds _) _
                            else ret _) _) _ =>
      eapply sameOutward_bind;
      [apply sameOutward_record | intros ?cache1 ?cache2 _]
  | |- sameOutward _ (bind (callSlackApi _ _ _ (Some _)) _) _ =>
      eapply sameOutward_bind; [apply sameOutward_set | intros ?r ? <-]
  | |- sameOutward _ (bind (loadConfiguration _ _) _) _ =>
      eapply sameOutward_bind;
      [apply sameOutward_stateless, stateless_loadConfiguration
      | intros ?loaded ? <-]
  | |- sameOutward _ (bind (trimLogFile _ _ _ _) _) _ =>
      eapply sameOutward_bind;
      [apply sameOutward_stateless, stateless_trimLogFile | intros _ _ _]
  | |- sameOutward _ (bind (log _ _) _) _ =>
      eapply sameOutward_bind;
      [apply sameOutward_stateless, stateless_log | intros _ _ _]
  | |- sameOutward _ (bind (isSpotifyRunning _) _) _ =>
      eapply sameOutward_bind;
      [apply sameOutward_stateless, stateless_isSpotifyRunning
      | intros ?running ? <-]
  | |- sameOutward _ (bind (getSpotifyState _) _) _ =>
      eapply sameOutward_bind;
      [apply sameOutward_stateless, stateless_getSpotifyState
      | intros ?state ? <-]
  | |- sameOutward _ (bind (getSlackProfileWithRetry _ _) _) _ =>
      eapply sameOutward_bind;
      [apply sameOutward_stateless, stateless_getSlackProfileWithRetry
      | intros ?r ? <-]
  | |- sameOutward _ (bind (getSpotifyTrack _) _) _ =>
      eapply sameOutward_bind;
      [apply sameOutward_stateless, stateless_getSpotifyTrack
      | intros ?song ? <-]
  | |- sameOutward _ (bind (setExitCode _) _) _ =>
      eapply sameOutward_bind; [apply sameOutward_setExitCode | intros _ _ _]
  | |- sameOutward _ (log _ _) _ =>
      apply sameOutward_stateless, stateless_log
  | |- sameOutward _ (setExitCode _) _ => apply sameOutward_setExitCode
  | |- sameOutward _ (if ?b then _ else _) _ => destruct b
  end;
  cbn [fst snd].

(** X26: the cache file decides nothing.  Whatever is at the
    cache path (nothing, a broken file, any record), the run starts the
    same processes, makes the same calls to Slack with the same token,
    text and emoji, writes to the same path, logs the same lines but for
    the warning about the cache file, and ends with the same result and
    exit code: [main] records in the cache but never consults it. *)
Theorem cache_file_decides_nothing (env : Env) (file : fileContent) :
  let r := run env in
  let r' := run (envWithCacheFile env file) in
  outwardOf (traceOf r') = outwardOf (traceOf r)
  /\ exitCode (stateOf r') = exitCode (stateOf r)
  /\ snd r' = snd r.
Proof.
  cbv zeta. unfold traceOf, stateOf, run.
  assert (H : sameOutward eq (program (envWithCacheFile env file))
                (program env)).
  { unfold program. apply sameOutward_tryCatch.
    - unfold main. cbv zeta.
      change (cwd (envWithCacheFile env file)) with (cwd env).
      repeat pair_step.
    - intros e. repeat pair_step. }
  destruct (H initialState initialState eq_refl eq_refl)
    as (Ht & _ & He & Hr).
  split; [exact Ht|]. split; [exact He|].
  destruct (snd (program (envWithCacheFile env file) initialState))
    as [[] | e1];
    destruct (snd (program env initialState)) as [[] | e2];
    try contradiction; congruence.
Qed.

(** ** Settings [main] does not read *)

(** X27: [pollIntervalSeconds] and [cacheMaxAgeSeconds] are
    validated and defaulted, but [main] reads neither: a run is the same,
    event for event, whatever values the configuration gives them. *)
Theorem run_ignores_poll_interval_and_cache_age
  (env : Env) (pollInterval cacheMaxAge : option number) :
  run (envWithIdleSettings env pollInterval cacheMaxAge) = run env.
Proof.
  unfold run, program, tryCatch. f_equal.
  unfold main, bind at 1 3, loadConfiguration.
  change (configOutcome (envWithIdleSettings env pollInterval cacheMaxAge))
    with (match configOutcome env with
          | inl e => inl e
          | inr (config, path) =>
              inr (withIdleSettings config pollInterval cacheMaxAge, path)
          end).
  destruct (configOutcome env) as [e | [config path]]; reflexivity.
Qed.
